(** * Allie chess engine: the time controller and the search-tree root

    A shallow embedding of [lib/clock.cpp] and [lib/tree.h].

    Conventions.
    - C++ integers are [Z].  Signed overflow, division by zero and an
      out-of-range float-to-int conversion are undefined behaviour in C++;
      the embedding returns [None] there, so every function that computes
      with them lives in the [option] monad.
    - [float] (IEEE binary32) values are modelled exactly as dyadic numbers
      rounded to a 24-bit significand, ties to even (module [F32]).
    - Mutable objects reached through pointers (search nodes, the node
      cache) live in an explicit store indexed by addresses (module
      [Tree]). *)

From Stdlib Require Import ZArith Lia Bool List.
From stdpp Require Import base option list gmap.

(** ** Machine integers *)

Module Int.
Local Open Scope Z_scope.

Definition in_range (bits z : Z) : bool :=
  (- 2 ^ (bits - 1) <=? z) && (z <? 2 ^ (bits - 1)).

(** The result of a signed operation whose mathematical value is [z]:
    defined only when [z] is representable. *)
Definition checked (bits z : Z) : option Z :=
  if in_range bits z then Some z else None.

Definition int32 : Z -> option Z := checked 32.
Definition int64 : Z -> option Z := checked 64.

(** C++ [/] on signed integers truncates toward zero. *)
Definition div64 (a b : Z) : option Z :=
  if b =? 0 then None else int64 (Z.quot a b).

(** [quint64(x)] for a [qint64] x: reduction modulo 2^64. *)
Definition to_uint64 (z : Z) : Z := z mod 2 ^ 64.

(** [int(x)] for a [qint64] x: the low 32 bits, read as two's complement. *)
Definition narrow32 (z : Z) : Z := (z + 2 ^ 31) mod 2 ^ 32 - 2 ^ 31.

End Int.

(** ** Binary32 arithmetic *)

Module F32.
Local Open Scope Z_scope.

(** A finite binary32 number, [Fnum * 2 ^ Fexp].  The exponent range is
    not modelled: values that would overflow to infinity are far outside
    the range in which a conversion to [int] is defined, and values that
    would underflow vanish when [qRound] adds one half. *)
Record float : Type := mk { Fnum : Z; Fexp : Z }.

Definition prec : Z := 24.

Definition digits (m : Z) : Z := Z.log2 (Z.abs m) + 1.

(** [a / 2^k] rounded to the nearest integer, ties to even ([0 <= a],
    [0 < k]). *)
Definition rne (a k : Z) : Z :=
  let q := a / 2 ^ k in
  let r := a mod 2 ^ k in
  let h := 2 ^ (k - 1) in
  if r <? h then q
  else if h <? r then q + 1
  else if Z.even q then q else q + 1.

(** Rounding of the exact value [m * 2^e] to [prec] significant bits. *)
Definition round (m e : Z) : float :=
  let k := digits m - prec in
  if k <=? 0 then mk m e
  else mk (Z.sgn m * rne (Z.abs m) k) (e + k).

Definition of_int (z : Z) : float := round z 0.

Definition mul (x y : float) : float :=
  round (Fnum x * Fnum y) (Fexp x + Fexp y).

Definition add (x y : float) : float :=
  let e := Z.min (Fexp x) (Fexp y) in
  round (Fnum x * 2 ^ (Fexp x - e) + Fnum y * 2 ^ (Fexp y - e)) e.

Definition opp (x : float) : float := mk (- Fnum x) (Fexp x).

Definition sub (x y : float) : float := add x (opp y).

(** [x >= 0.0f] *)
Definition ge0 (x : float) : bool := 0 <=? Fnum x.

(** Truncation toward zero, the value of [int(x)] when it is defined. *)
Definition trunc (x : float) : Z :=
  if 0 <=? Fexp x then Fnum x * 2 ^ Fexp x
  else Z.quot (Fnum x) (2 ^ (- Fexp x)).

Definition to_int (x : float) : option Z := Int.int32 (trunc x).

Definition zero : float := mk 0 0.
Definition one : float := mk 1 0.
Definition half : float := mk 1 (-1).

(** [0 <= x <= 1] *)
Definition unit_range (x : float) : bool :=
  (0 <=? Fnum x) && (Fnum x <=? 2 ^ (- Fexp x)).

(** [|x| <= 2^K] *)
Definition bounded (K : Z) (x : float) : Prop :=
  Z.abs (Fnum x) <= 2 ^ (K - Fexp x).

End F32.

(** ** Qt helpers used by the clock *)

Module Qt.
Local Open Scope Z_scope.

(** [qRound(float d)] of Qt 5's qglobal.h:
    [d >= 0.0f ? int(d + 0.5f) : int(d - float(int(d-1)) + 0.5f) + int(d-1)]. *)
Definition qRound (d : F32.float) : option Z :=
  if F32.ge0 d then F32.to_int (F32.add d F32.half)
  else
    i1 ← F32.to_int (F32.sub d F32.one);
    i2 ← F32.to_int (F32.add (F32.sub d (F32.of_int i1)) F32.half);
    Int.int32 (i2 + i1).

(** [qMax] and [qMin] of qglobal.h: [(a < b) ? b : a] and
    [(a < b) ? a : b]. *)
Definition qMax (a b : Z) : Z := if a <? b then b else a.
Definition qMin (a b : Z) : Z := if a <? b then a else b.

(** [QElapsedTimer::hasExpired(qint64 timeout)]:
    [quint64(elapsed()) > quint64(timeout)], with [elapsed()] the
    milliseconds since the timer was restarted. *)
Definition timer_hasExpired (elapsed_ms timeout : Z) : bool :=
  Int.to_uint64 timeout <? Int.to_uint64 elapsed_ms.

End Qt.

(** ** The clock ([lib/clock.cpp]) *)

Module Clock.
Local Open Scope Z_scope.

Inductive Army : Type := White | Black.

(** Modelled from the spec: the trend of the best-move evaluation
    (declared in search.h, which is not part of the excerpt); the glossary
    lists [Better], [Same] and [Worse]. *)
Inductive Trend : Type := Worse | Same | Better.

Definition Trend_eqb (a b : Trend) : bool :=
  match a, b with
  | Worse, Worse | Same, Same | Better, Better => true
  | _, _ => false
  end.

(** Modelled from the spec: the fields of [SearchInfo] that the clock
    reads (search.h is not part of the excerpt): depth, trend direction and
    trend degree, a [float] in [0, 1]. *)
Record SearchInfo : Type := mkInfo {
  depth : Z;
  trend : Trend;
  trendDegree : F32.float
}.

(** The members of [Clock].  [m_timeout] is the one-shot [QTimer]: [None]
    when stopped, [Some ms] when armed with an interval.  The elapsed timer
    [m_timer] is read through an explicit argument, the nanoseconds since
    its last restart. *)
Record t : Type := mkClock {
  m_isActive : bool;
  m_whiteTime : Z;
  m_whiteIncrement : Z;
  m_blackTime : Z;
  m_blackIncrement : Z;
  m_moveTime : Z;
  m_infinite : bool;
  m_deadline : Z;
  m_trendFactor : Z;
  m_materialScore : Z;
  m_halfMoveNumber : Z;
  m_info : SearchInfo;
  m_onTheClock : Army;
  m_timeout : option Z
}.

(** [Clock::Clock].  The initialiser of [m_moveTime] is [false], which
    converts to 0.  [m_info] is default-constructed ([info0], the value of
    [SearchInfo()]) and [m_onTheClock] is left uninitialised ([army0]). *)
Definition Clock (info0 : SearchInfo) (army0 : Army) : t :=
  {| m_isActive := false;
     m_whiteTime := -1;
     m_whiteIncrement := -1;
     m_blackTime := -1;
     m_blackIncrement := -1;
     m_moveTime := 0;
     m_infinite := false;
     m_deadline := 0;
     m_trendFactor := 0;
     m_materialScore := 0;
     m_halfMoveNumber := 0;
     m_info := info0;
     m_onTheClock := army0;
     m_timeout := None |}.

Definition time (army : Army) (c : t) : Z :=
  match army with White => m_whiteTime c | Black => m_blackTime c end.

Definition increment (army : Army) (c : t) : Z :=
  match army with White => m_whiteIncrement c | Black => m_blackIncrement c end.

Definition setTime (army : Army) (time : Z) (c : t) : t :=
  match army with
  | White =>
      mkClock (m_isActive c) time (m_whiteIncrement c) (m_blackTime c)
        (m_blackIncrement c) (m_moveTime c) (m_infinite c) (m_deadline c)
        (m_trendFactor c) (m_materialScore c) (m_halfMoveNumber c) (m_info c)
        (m_onTheClock c) (m_timeout c)
  | Black =>
      mkClock (m_isActive c) (m_whiteTime c) (m_whiteIncrement c) time
        (m_blackIncrement c) (m_moveTime c) (m_infinite c) (m_deadline c)
        (m_trendFactor c) (m_materialScore c) (m_halfMoveNumber c) (m_info c)
        (m_onTheClock c) (m_timeout c)
  end.

Definition setIncrement (army : Army) (inc : Z) (c : t) : t :=
  match army with
  | White =>
      mkClock (m_isActive c) (m_whiteTime c) inc (m_blackTime c)
        (m_blackIncrement c) (m_moveTime c) (m_infinite c) (m_deadline c)
        (m_trendFactor c) (m_materialScore c) (m_halfMoveNumber c) (m_info c)
        (m_onTheClock c) (m_timeout c)
  | Black =>
      mkClock (m_isActive c) (m_whiteTime c) (m_whiteIncrement c) (m_blackTime c)
        inc (m_moveTime c) (m_infinite c) (m_deadline c)
        (m_trendFactor c) (m_materialScore c) (m_halfMoveNumber c) (m_info c)
        (m_onTheClock c) (m_timeout c)
  end.

Definition setInfinite (infinite : bool) (c : t) : t :=
  mkClock (m_isActive c) (m_whiteTime c) (m_whiteIncrement c) (m_blackTime c)
    (m_blackIncrement c) (m_moveTime c) infinite (m_deadline c)
    (m_trendFactor c) (m_materialScore c) (m_halfMoveNumber c) (m_info c)
    (m_onTheClock c) (m_timeout c).

Definition setMoveTime (time : Z) (c : t) : t :=
  mkClock (m_isActive c) (m_whiteTime c) (m_whiteIncrement c) (m_blackTime c)
    (m_blackIncrement c) time (m_infinite c) (m_deadline c)
    (m_trendFactor c) (m_materialScore c) (m_halfMoveNumber c) (m_info c)
    (m_onTheClock c) (m_timeout c).

(** The material score is written by a setter of clock.h. *)
Definition setMaterialScore (score : Z) (c : t) : t :=
  mkClock (m_isActive c) (m_whiteTime c) (m_whiteIncrement c) (m_blackTime c)
    (m_blackIncrement c) (m_moveTime c) (m_infinite c) (m_deadline c)
    (m_trendFactor c) score (m_halfMoveNumber c) (m_info c)
    (m_onTheClock c) (m_timeout c).

Definition setTrendFactor (tf : Z) (c : t) : t :=
  mkClock (m_isActive c) (m_whiteTime c) (m_whiteIncrement c) (m_blackTime c)
    (m_blackIncrement c) (m_moveTime c) (m_infinite c) (m_deadline c)
    tf (m_materialScore c) (m_halfMoveNumber c) (m_info c)
    (m_onTheClock c) (m_timeout c).

(** [Clock::elapsed]: [m_timer.nsecsElapsed() / 1000000]. *)
Definition elapsed (nsecs : Z) : Z := Z.quot nsecs 1000000.

(** [Clock::hasExpired]: [m_timer.hasExpired(m_deadline)]. *)
Definition hasExpired (nsecs : Z) (c : t) : bool :=
  Qt.timer_hasExpired (elapsed nsecs) (m_deadline c).

Definition timeToDeadline (nsecs : Z) (c : t) : option Z :=
  if m_infinite c then Some (-1) else Int.int64 (m_deadline c - elapsed nsecs).

Definition trendFactor (c : t) : Z := m_trendFactor c.

Definition lessThanMoveOverhead (overhead nsecs : Z) (c : t) : option bool :=
  d ← timeToDeadline nsecs c; Some (d <? overhead).

Definition pastMoveOverhead (overhead nsecs : Z) : bool :=
  overhead <? elapsed nsecs.

(** [Clock::expectedHalfMovesTillEOG].  [3/8] and [5/4] are quotients of
    [int] literals, computed before the conversion to [float]. *)
Definition expectedHalfMovesTillEOG (c : t) : option Z :=
  let m := m_materialScore c in
  if m <? 20 then Int.int32 (m + 10)
  else if (20 <=? m) && (m <=? 60) then
    r ← Qt.qRound (F32.mul (F32.of_int (Z.quot 3 8)) (F32.of_int m));
    Int.int32 (r + 22)
  else
    r ← Qt.qRound (F32.mul (F32.of_int (Z.quot 5 4)) (F32.of_int m));
    Int.int32 (r - 30).

(** [easingCurve], with EXPERIMENTAL undefined. *)
Definition easingCurve (x : F32.float) : F32.float := x.

Definition minimumDepth : Z := 3.

(** [Clock::calculateDeadline].  [overhead] is the value of the
    MoveOverhead option and [nsecs] the reading of [m_timer] when
    [elapsed()] is called. *)
Definition calculateDeadline (overhead nsecs : Z) (c : t) : option t :=
  if m_infinite c then
    Some (mkClock (m_isActive c) (m_whiteTime c) (m_whiteIncrement c)
            (m_blackTime c) (m_blackIncrement c) (m_moveTime c) (m_infinite c)
            (-1) (m_trendFactor c) (m_materialScore c) (m_halfMoveNumber c)
            (m_info c) (m_onTheClock c) None)
  else
    let t := time (m_onTheClock c) c in
    let inc := increment (m_onTheClock c) c in
    maximum ← Int.int64 (t - overhead);
    e ← expectedHalfMovesTillEOG c;
    q ← Int.div64 t e;
    s ← Int.int64 (q + inc);
    ideal ← Qt.qRound (easingCurve (F32.of_int s));
    raw ← Qt.qRound (F32.mul (F32.of_int (Z.quot maximum 4))
                              (trendDegree (m_info c)));
    tf ← (if negb (Trend_eqb (trend (m_info c)) Better)
          then Int.int64 (m_trendFactor c + raw)
          else Some (Z.quot (m_trendFactor c) 2));
    let tf := Qt.qMax 0 tf in
    deadline ← (if negb (m_moveTime c =? -1) then Int.int64 (m_moveTime c - overhead)
                else if negb (t =? -1) && (minimumDepth <=? depth (m_info c))
                then Some (Qt.qMin maximum ideal)
                else if negb (t =? -1) then Some maximum
                else Some 5000);
    let deadline := Qt.qMax 0 deadline in
    remaining ← Int.int64 (deadline - elapsed nsecs);
    Some (mkClock (m_isActive c) (m_whiteTime c) (m_whiteIncrement c)
            (m_blackTime c) (m_blackIncrement c) (m_moveTime c) (m_infinite c)
            deadline tf (m_materialScore c) (m_halfMoveNumber c)
            (m_info c) (m_onTheClock c)
            (Some (Qt.qMax 0 (Int.narrow32 remaining)))).

(** [Clock::startDeadline]; [info0] is the value of [SearchInfo()]. *)
Definition startDeadline (info0 : SearchInfo) (army : Army)
    (overhead nsecs : Z) (c : t) : option t :=
  calculateDeadline overhead nsecs
    (mkClock true (m_whiteTime c) (m_whiteIncrement c)
       (m_blackTime c) (m_blackIncrement c) (m_moveTime c) (m_infinite c)
       (m_deadline c) (m_trendFactor c) (m_materialScore c) (m_halfMoveNumber c)
       info0 army None).

(** [Clock::updateDeadline]; the [isPartial] flag is unused. *)
Definition updateDeadline (info : SearchInfo) (isPartial : bool)
    (overhead nsecs : Z) (c : t) : option t :=
  calculateDeadline overhead nsecs
    (mkClock (m_isActive c) (m_whiteTime c) (m_whiteIncrement c)
       (m_blackTime c) (m_blackIncrement c) (m_moveTime c) (m_infinite c)
       (m_deadline c) (m_trendFactor c) (m_materialScore c) (m_halfMoveNumber c)
       info (m_onTheClock c) (m_timeout c)).

End Clock.

(** ** The search tree root ([lib/tree.h]) *)

Module Tree.

(** A [Node*]: an address in the node arena; [nullptr] is [None] of
    [option ptr]. *)
Definition ptr : Type := positive.

(** The calls made on the global [Cache], oldest first: instrumentation
    that lets statements speak about which cache operations ran. *)
Inductive Call : Type :=
  | CallUnlinkNode (p : ptr)
  | CallResetNodes
  | CallNewNode (p : ptr)
  | CallNewNodePosition (h : Z).

Section Model.

(** The rules engine and the game history are outside the excerpt: the
    position type, the game type, [StandaloneGame::position],
    [Position::isSamePosition], [Position::positionHash] and the search
    statistics of a node are parameters. *)
Context {Position Game Stats : Type}.
Variable position : Game -> Position.
Variable isSamePosition : Position -> Position -> bool.
Variable positionHash : Position -> Z.
Variable freshStats : Stats.

(** Modelled from the spec: the attributes of a search node (node.h is not
    part of the excerpt): parent link, pointer to its NodePosition (named by
    the hash key of the cache entry), children vector, the proven-terminal
    answer of [isTrueTerminal()], and the statistics (visits, summed value,
    prior, virtual loss), which the tree code never inspects. *)
Record Node : Type := mkNode {
  n_parent : option ptr;
  n_game : option Game;
  n_position : option Z;
  n_children : list ptr;
  n_trueTerminal : bool;
  n_stats : Stats
}.

(** Modelled from the spec: a NodePosition entry (node.h is not part of the
    excerpt): the canonical position, absent until [initialize], and the
    back-set of nodes that point at the entry (the transposition set). *)
Record NodePosition : Type := mkNodePosition {
  np_position : option Position;
  np_transpositions : gset ptr
}.

(** Modelled from the spec: the node arena and the position map of the
    cache (cache.h is not part of the excerpt), both of fixed capacity. *)
Record Cache : Type := mkCache {
  nodes : gmap ptr Node;
  positions : gmap Z NodePosition;
  capacity : nat;
  positionCapacity : nat;
  calls : list Call
}.

Record Tree : Type := mkTree {
  m_root : option ptr;
  m_resumePreviousPositionIfPossible : bool
}.

(** [Tree::Tree] and [Tree::reset]. *)
Definition new (resumePreviousPositionIfPossible : bool) : Tree :=
  mkTree None resumePreviousPositionIfPossible.

Definition reset (t : Tree) : Tree :=
  mkTree None (m_resumePreviousPositionIfPossible t).

(** *** The cache and node operations the tree calls *)

Definition used (c : Cache) : nat := size (nodes c).

Definition logCall (e : Call) (c : Cache) : Cache :=
  mkCache (nodes c) (positions c) (capacity c) (positionCapacity c)
    (calls c ++ [e]).

Definition withNodes (ns : gmap ptr Node) (c : Cache) : Cache :=
  mkCache ns (positions c) (capacity c) (positionCapacity c) (calls c).

Definition withPositions (ps : gmap Z NodePosition) (c : Cache) : Cache :=
  mkCache (nodes c) ps (capacity c) (positionCapacity c) (calls c).

Definition blankNode : Node := mkNode None None None [] false freshStats.

(** Modelled from the spec: [Cache::newNode] returns the next free slot and
    fails (a null pointer here) when the arena is full. *)
Definition newNode (c : Cache) : option (ptr * Cache) :=
  if decide (used c < capacity c)%nat then
    let p := fresh (dom (nodes c)) in
    Some (p, logCall (CallNewNode p) (withNodes (<[p := blankNode]> (nodes c)) c))
  else None.

(** Modelled from the spec: [Cache::containsNodePosition] and
    [Cache::nodePosition] look the hash up. *)
Definition containsNodePosition (h : Z) (c : Cache) : bool :=
  bool_decide (is_Some (positions c !! h)).

Definition nodePosition (h : Z) (c : Cache) : option Z :=
  if containsNodePosition h c then Some h else None.

(** Modelled from the spec: [Cache::newNodePosition] inserts an entry that
    the caller must still initialise; it fails when the map is full. *)
Definition newNodePosition (h : Z) (c : Cache) : option (Z * Cache) :=
  if decide (size (positions c) < positionCapacity c)%nat then
    Some (h, logCall (CallNewNodePosition h)
               (withPositions (<[h := mkNodePosition None ∅]> (positions c)) c))
  else None.

(** Modelled from the spec: [Node::initialize(parent, game)] gives the node
    its parent link and game and resets children, flags and statistics. *)
Definition Node_initialize (p : ptr) (parent : option ptr) (game : Game)
    (c : Cache) : Cache :=
  withNodes (alter (fun _ => mkNode parent (Some game) None [] false freshStats)
               p (nodes c)) c.

(** Modelled from the spec: [Node::setPosition] binds the node to a
    NodePosition. *)
Definition Node_setPosition (p : ptr) (h : Z) (c : Cache) : Cache :=
  withNodes (alter (fun n => mkNode (n_parent n) (n_game n) (Some h)
                               (n_children n) (n_trueTerminal n) (n_stats n))
               p (nodes c)) c.

(** Modelled from the spec: [Node::Position::initialize(node, position)]
    stores the canonical position and records the node in the
    transposition set. *)
Definition Position_initialize (h : Z) (p : ptr) (pos : Position)
    (c : Cache) : Cache :=
  withPositions (alter (fun np => mkNodePosition (Some pos)
                                    ({[p]} ∪ np_transpositions np))
                   h (positions c)) c.

(** Modelled from the spec: [Node::setAsRootNode]: only the root has no
    parent, and unlinking the old root afterwards must not collect the new
    root, so the node is taken out of its parent's children vector and its
    parent link is cleared. *)
Definition setAsRootNode (g : ptr) (c : Cache) : Cache :=
  match nodes c !! g with
  | None => c
  | Some n =>
      let detached :=
        match n_parent n with
        | Some p =>
            alter (fun pn => mkNode (n_parent pn) (n_game pn) (n_position pn)
                               (filter (fun x => x ≠ g) (n_children pn))
                               (n_trueTerminal pn) (n_stats pn))
              p (nodes c)
        | None => nodes c
        end in
      withNodes (alter (fun n => mkNode None (n_game n) (n_position n)
                                   (n_children n) (n_trueTerminal n) (n_stats n))
                   g detached) c
  end.

Definition dropTransposition (p : ptr) (np : NodePosition) : NodePosition :=
  mkNodePosition (np_position np) (np_transpositions np ∖ {[p]}).

Definition addTransposition (p : ptr) (np : NodePosition) : NodePosition :=
  mkNodePosition (np_position np) ({[p]} ∪ np_transpositions np).

(** A walk over the node [p] and its descendants that applies [f p] to the
    NodePosition of every node met.  [fuel] bounds the depth of the walk;
    the callers pass one more than the number of nodes in the arena. *)
Fixpoint walk (f : ptr -> NodePosition -> NodePosition) (fuel : nat)
    (p : ptr) (c : Cache) : Cache :=
  match fuel with
  | O => c
  | S fuel' =>
      match nodes c !! p with
      | None => c
      | Some n =>
          let c1 :=
            match n_position n with
            | Some h => withPositions (alter (f p) h (positions c)) c
            | None => c
            end in
          fold_left (fun acc ch => walk f fuel' ch acc) (n_children n) c1
      end
  end.

(** Modelled from the spec: [Cache::unlinkNode(n)] recursively unlinks [n]
    and all descendants from their NodePositions' transposition sets. *)
Definition unlinkNode (p : ptr) (c : Cache) : Cache :=
  logCall (CallUnlinkNode p) (walk dropTransposition (S (used c)) p c).

(** Modelled from the spec: [Node::updateTranspositions] updates the
    transposition pointers of the surviving subtree: every node of it is
    (again) recorded at its NodePosition. *)
Definition updateTranspositions (p : ptr) (c : Cache) : Cache :=
  walk addTransposition (S (used c)) p c.

Definition linked (c : Cache) (p : ptr) (n : Node) : bool :=
  match n_position n with
  | Some h =>
      match positions c !! h with
      | Some np => bool_decide (p ∈ np_transpositions np)
      | None => false
      end
  | None => false
  end.

(** Modelled from the spec: [Cache::resetNodes] keeps the nodes that are
    still linked, so that [used] counts exactly the survivors, and drops
    the NodePositions no node references. *)
Definition resetNodes (c : Cache) : Cache :=
  logCall CallResetNodes
    (mkCache
       (filter (fun kv => linked c kv.1 kv.2 = true) (nodes c))
       (filter (fun kv => np_transpositions kv.2 ≠ ∅) (positions c))
       (capacity c) (positionCapacity c) (calls c)).

(** *** [Tree::clearRoot] *)

(** The test of the inner loop:
    [grandChild->m_position->position().isSamePosition(rootGame.position())
     && !grandChild->isTrueTerminal()]. *)
Definition resumable (rootGame : Game) (g : ptr) (c : Cache) : option bool :=
  n ← nodes c !! g;
  h ← n_position n;
  np ← positions c !! h;
  pos ← np_position np;
  Some (isSamePosition pos (position rootGame) && negb (n_trueTerminal n)).

(** The state the loops of [clearRoot] work on: [m_root] (non-null
    throughout), the cache, and the local [foundResume]. *)
Record Scan : Type := mkScan {
  s_root : ptr;
  s_cache : Cache;
  s_found : bool
}.

(** The body of the [if] in the inner loop. *)
Definition resume (grandChild : ptr) (s : Scan) : Scan :=
  let c1 := setAsRootNode grandChild (s_cache s) in
  let c2 := unlinkNode (s_root s) c1 in
  let c3 := updateTranspositions grandChild c2 in
  mkScan grandChild c3 true.

(** The inner loop over a copy of the grandchildren; it stops at the first
    hit ([break]). *)
Fixpoint scanGrandChildren (rootGame : Game) (grandChildren : list ptr)
    (s : Scan) : option Scan :=
  match grandChildren with
  | [] => Some s
  | grandChild :: rest =>
      b ← resumable rootGame grandChild (s_cache s);
      if b : bool then Some (resume grandChild s)
      else scanGrandChildren rootGame rest s
  end.

(** The outer loop over a copy of the children of the old root. *)
Fixpoint scanChildren (rootGame : Game) (children : list ptr)
    (s : Scan) : option Scan :=
  match children with
  | [] => Some s
  | child :: rest =>
      n ← nodes (s_cache s) !! child;
      s' ← scanGrandChildren rootGame (n_children n) s;
      scanChildren rootGame rest s'
  end.

Definition clearRoot (rootGame : Game) (t : Tree) (cache : Cache)
    : option (Tree * Cache) :=
  '(root, cache) ←
    match m_root t with
    | Some r =>
        if negb (m_resumePreviousPositionIfPossible t) then
          Some (None, unlinkNode r cache)
        else
          n ← nodes cache !! r;
          s ← scanChildren rootGame (n_children n) (mkScan r cache false);
          if s_found s then Some (Some (s_root s), s_cache s)
          else Some (None, unlinkNode (s_root s) (s_cache s))
    | None => Some (None, cache)
    end;
  Some (mkTree root (m_resumePreviousPositionIfPossible t), resetNodes cache).

(** *** [Tree::embodiedRoot] *)

Definition embodiedRoot (rootGame : Game) (t : Tree) (cache : Cache)
    : option (ptr * Tree * Cache) :=
  match m_root t with
  | Some r => Some (r, t, cache)
  | None =>
      '(root, cache) ← newNode cache;
      let rootPositionHash := positionHash (position rootGame) in
      '(rootPosition, cache) ←
        (if containsNodePosition rootPositionHash cache
         then h ← nodePosition rootPositionHash cache; Some (h, cache)
         else newNodePosition rootPositionHash cache);
      let cache := Node_initialize root None rootGame cache in
      let cache := Node_setPosition root rootPosition cache in
      let cache := Position_initialize rootPosition root (position rootGame) cache in
      Some (root, mkTree (Some root) (m_resumePreviousPositionIfPossible t), cache)
  end.

(** [Tree::~Tree]. *)
Definition destroy (rootGame : Game) (t : Tree) (cache : Cache)
    : option (Tree * Cache) :=
  clearRoot rootGame (mkTree (m_root t) false) cache.

(** *** Auxiliary definitions for the statements about the tree *)

Definition childrenOf (c : Cache) (p : ptr) : list ptr :=
  match nodes c !! p with
  | Some n => n_children n
  | None => []
  end.

(** The grandchild passes the test of the inner loop. *)
Definition isHit (rootGame : Game) (c : Cache) (g : ptr) : bool :=
  match resumable rootGame g c with
  | Some true => true
  | _ => false
  end.

(** The grandchild at which the inner loop stops, if any. *)
Definition firstHit (rootGame : Game) (c : Cache) (grandChildren : list ptr)
    : option ptr :=
  List.find (isHit rootGame c) grandChildren.

(** The grandchildren selected by the outer loop, in the order in which
    the loop meets them: for each child, the first matching grandchild. *)
Definition hits (rootGame : Game) (c : Cache) (children : list ptr)
    : list ptr :=
  omap (fun ch => firstHit rootGame c (childrenOf c ch)) children.

(** All grandchildren of [r], child by child. *)
Definition grandChildrenOf (c : Cache) (r : ptr) : list ptr :=
  flat_map (childrenOf c) (childrenOf c r).

(** All matching grandchildren of [r], in iteration order. *)
Definition allMatches (rootGame : Game) (c : Cache) (r : ptr) : list ptr :=
  List.filter (isHit rootGame c) (grandChildrenOf c r).

(** Distinct moves lead to distinct positions: among the children of one
    node at most one has the position of the game. *)
Definition distinctSiblings (rootGame : Game) (c : Cache) (r : ptr) : bool :=
  forallb (fun ch =>
             (length (List.filter (isHit rootGame c) (childrenOf c ch)) <=? 1)%nat)
    (childrenOf c r).

(** The shape the tree code relies on below the root: a child is a live
    node, a grandchild is a live node bound to an initialised
    NodePosition, and its parent link names the child that lists it. *)
Definition childOK (rootGame : Game) (c : Cache) (ch : ptr) : bool :=
  match nodes c !! ch with
  | Some n =>
      forallb (fun g =>
                 match resumable rootGame g c, nodes c !! g with
                 | Some _, Some ng => bool_decide (n_parent ng = Some ch)
                 | _, _ => false
                 end) (n_children n)
  | None => false
  end.

Definition childrenOK (rootGame : Game) (c : Cache) (children : list ptr)
    : bool :=
  bool_decide (NoDup children) && forallb (childOK rootGame c) children.

Definition wellFormed (rootGame : Game) (c : Cache) (r : ptr) : bool :=
  match nodes c !! r with
  | Some n => childrenOK rootGame c (n_children n)
  | None => false
  end.

(** The helpers leave alone what the test of the inner loop reads and the
    statistics: [sameView c c'] relates two caches that agree on the
    position binding, the terminal flag, the game and the statistics of
    every node and on the canonical position of every entry. *)
Definition nodeView (n : Node) : option Game * option Z * bool * Stats :=
  (n_game n, n_position n, n_trueTerminal n, n_stats n).

Definition sameView (c c' : Cache) : Prop :=
  (forall p, nodeView <$> nodes c' !! p = nodeView <$> nodes c !! p)
  /\ (forall h, np_position <$> positions c' !! h
                = np_position <$> positions c !! h).

(** What a walk over a subtree may change: nothing but transposition
    sets. *)
Definition onlyTranspositions (c c' : Cache) : Prop :=
  nodes c' = nodes c /\ calls c' = calls c
  /\ capacity c' = capacity c /\ positionCapacity c' = positionCapacity c
  /\ (forall h, np_position <$> positions c' !! h
                = np_position <$> positions c !! h).

(** The node [p] is recorded at the entry [h]. *)
Definition recorded (c : Cache) (h : Z) (p : ptr) : Prop :=
  exists np, positions c !! h = Some np /\ p ∈ np_transpositions np.

Definition grows (c c' : Cache) : Prop :=
  forall h p, recorded c h p -> recorded c' h p.

(** The shape of the subtrees the outer loop still has to visit, as a
    proposition (what [childrenOK] decides). *)
Definition childShaped (rootGame : Game) (c : Cache) (ch : ptr) : Prop :=
  exists n, nodes c !! ch = Some n
    /\ forall g, g ∈ n_children n ->
         is_Some (resumable rootGame g c)
         /\ n_parent <$> nodes c !! g = Some (Some ch).

Definition shaped (rootGame : Game) (c : Cache) (children : list ptr) : Prop :=
  NoDup children /\ forall ch, ch ∈ children -> childShaped rootGame c ch.

(** The node [g] is a root (no parent) that is recorded at its
    NodePosition. *)
Definition linkedRoot (c : Cache) (g : ptr) : Prop :=
  exists n h, nodes c !! g = Some n /\ n_parent n = None
    /\ n_position n = Some h /\ recorded c h g.

(** The subtree below [p] is no deeper than [fuel]: a walk with that
    much fuel never stops for lack of it. *)
Fixpoint heightWithin (ns : gmap ptr Node) (fuel : nat) (p : ptr) : bool :=
  match ns !! p with
  | None => true
  | Some n =>
      match fuel with
      | O => false
      | S fuel' => forallb (heightWithin ns fuel') (n_children n)
      end
  end.

(** The nodes a recursive descent from [p] meets, [p] first, no deeper
    than [fuel]. *)
Fixpoint subtree (ns : gmap ptr Node) (fuel : nat) (p : ptr) : list ptr :=
  match fuel with
  | O => []
  | S fuel' =>
      match ns !! p with
      | None => []
      | Some n => p :: flat_map (subtree ns fuel') (n_children n)
      end
  end.

(** The subtree at [p], as [unlinkNode] and [updateTranspositions] walk
    it. *)
Definition treeOf (c : Cache) (p : ptr) : list ptr :=
  subtree (nodes c) (S (used c)) p.

(** What the loops of [clearRoot] may do to the arena before the reset:
    no slot is added or freed, no node is bound to another NodePosition,
    and children vectors only lose elements. *)
Definition narrows (c c' : Cache) : Prop :=
  used c' = used c
  /\ forall p,
       match nodes c !! p, nodes c' !! p with
       | Some n, Some n' =>
           n_position n' = n_position n /\ n_children n' ⊆ n_children n
       | None, None => True
       | _, _ => False
       end.

(** The bookkeeping the tree relies on between the old root [r] and the
    current root of the scan: a node of the old tree that is still
    recorded at its NodePosition lies below the current root. *)
Definition recordedBelowRoot (c : Cache) (r : ptr) (s : Scan) : Prop :=
  forall q n h,
    q ∈ treeOf c r -> nodes c !! q = Some n -> n_position n = Some h ->
    recorded (s_cache s) h q -> q ∈ treeOf (s_cache s) (s_root s).

End Model.

(** A concrete instance: positions and games are integers, the
    statistics are a visit count. *)
Module Example.

Definition node (parent : option ptr) (pos : Z) (children : list ptr)
    (visits : Z) : @Node Z Z :=
  mkNode parent (Some 0%Z) (Some pos) children false visits.

Definition entry (pos : Z) (ns : list ptr) : @NodePosition Z :=
  mkNodePosition (Some pos) (list_to_set ns).

(** Root 1 with children 2 and 3; 2 has the children 4 and 5, 3 has the
    children 6 and 7.  The nodes 5 and 6 are transpositions: both reach
    position 500. *)
Definition cache : @Cache Z Z Z :=
  mkCache
    (list_to_map
       [(1%positive, node None 101 [2%positive; 3%positive] 100);
        (2%positive, node (Some 1%positive) 102 [4%positive; 5%positive] 40);
        (3%positive, node (Some 1%positive) 103 [6%positive; 7%positive] 59);
        (4%positive, node (Some 2%positive) 104 [] 9);
        (5%positive, node (Some 2%positive) 500 [] 30);
        (6%positive, node (Some 3%positive) 500 [] 50);
        (7%positive, node (Some 3%positive) 107 [] 8)])
    (list_to_map
       [(101%Z, entry 101 [1%positive]); (102%Z, entry 102 [2%positive]);
        (103%Z, entry 103 [3%positive]); (104%Z, entry 104 [4%positive]);
        (500%Z, entry 500 [5%positive; 6%positive]);
        (107%Z, entry 107 [7%positive])])
    16 16 [].

Definition tree : Tree := mkTree (Some 1%positive) true.

Definition clearRoot := @clearRoot Z Z Z (fun g => g) Z.eqb.
Definition embodiedRoot := @embodiedRoot Z Z Z (fun g => g) (fun p => p) 0%Z.

End Example.

End Tree.

(** ** Auxiliary definitions for the statements about the clock *)

Module ClockSpec.
Local Open Scope Z_scope.
Import Clock.

(** The material heuristic as the specification writes it, with the
    rational constants 0.375 and 1.25 and rounding to nearest (halves
    up). *)
Definition expectedHalfMoves_spec (m : Z) : Z :=
  if m <? 20 then m + 10
  else if m <=? 60 then (3 * m + 4) / 8 + 22
  else (5 * m + 2) / 4 - 30.

(** [maximum = time - overhead]. *)
Definition maximumOf (overhead : Z) (c : t) : option Z :=
  Int.int64 (time (m_onTheClock c) c - overhead).

(** [ideal = round(easing(time / expectedHalfMovesTillEOG + increment))]. *)
Definition idealOf (c : t) : option Z :=
  e ← expectedHalfMovesTillEOG c;
  q ← Int.div64 (time (m_onTheClock c) c) e;
  s ← Int.int64 (q + increment (m_onTheClock c) c);
  Qt.qRound (easingCurve (F32.of_int s)).

(** [raw = round((maximum/4) * trendDegree)] with
    [maximum = time - overhead]. *)
Definition trendRaw (overhead time : Z) (info : SearchInfo) : option Z :=
  maximum ← Int.int64 (time - overhead);
  Qt.qRound (F32.mul (F32.of_int (Z.quot maximum 4)) (trendDegree info)).

(** The update of the trend factor as the specification words it. *)
Definition trendUpdate (trendFactor raw : Z) (info : SearchInfo) : Z :=
  Z.max 0 (match trend info with
           | Better => Z.quot trendFactor 2
           | _ => trendFactor + raw
           end).

(** The deadline before the final clamp, by the branch taken. *)
Definition branchDeadline (overhead maximum ideal : Z) (c : t) : option Z :=
  if negb (m_moveTime c =? -1) then Int.int64 (m_moveTime c - overhead)
  else if negb (time (m_onTheClock c) c =? -1)
          && (minimumDepth <=? depth (m_info c))
  then Some (Qt.qMin maximum ideal)
  else if negb (time (m_onTheClock c) c =? -1) then Some maximum
  else Some 5000.

(** The readings of a running [QElapsedTimer]: a non-negative [qint64]. *)
Definition timerReading (nsecs : Z) : bool :=
  (0 <=? nsecs) && (nsecs <? 2 ^ 63).

(** Clock states in the range where no operation of [calculateDeadline]
    overflows: times, increment and overhead below 2^25 ms (over nine
    hours) in magnitude, a material score below 2^22 in magnitude for which
    the expected number of half moves is not zero, and a trend degree in
    [0, 1]. *)
Definition sane (overhead : Z) (c : t) : bool :=
  (Z.abs (time (m_onTheClock c) c) <=? 2 ^ 25)
  && (Z.abs (increment (m_onTheClock c) c) <=? 2 ^ 25)
  && (Z.abs overhead <=? 2 ^ 25)
  && (Z.abs (m_moveTime c) <=? 2 ^ 62)
  && (Z.abs (m_trendFactor c) <=? 2 ^ 62)
  && (Z.abs (m_materialScore c) <=? 2 ^ 22)
  && negb (m_materialScore c =? -10)
  && F32.unit_range (trendDegree (m_info c)).

(** The state [startDeadline] hands to [calculateDeadline]. *)
Definition started (info0 : SearchInfo) (army : Army) (c : t) : t :=
  mkClock true (m_whiteTime c) (m_whiteIncrement c)
    (m_blackTime c) (m_blackIncrement c) (m_moveTime c) (m_infinite c)
    (m_deadline c) (m_trendFactor c) (m_materialScore c) (m_halfMoveNumber c)
    info0 army None.

(** The state [updateDeadline] hands to [calculateDeadline]. *)
Definition updated (info : SearchInfo) (c : t) : t :=
  mkClock (m_isActive c) (m_whiteTime c) (m_whiteIncrement c)
    (m_blackTime c) (m_blackIncrement c) (m_moveTime c) (m_infinite c)
    (m_deadline c) (m_trendFactor c) (m_materialScore c) (m_halfMoveNumber c)
    info (m_onTheClock c) (m_timeout c).

(** Example states.  [exampleInfo] reports depth 5, a worse trend and a
    trend degree of one half; [exampleClock] is White to move with 200 ms
    left, no increment, material score 30 and no move-time override. *)
Definition exampleInfo : SearchInfo := mkInfo 5 Worse F32.half.

Definition exampleClock : t :=
  setMaterialScore 30
    (setMoveTime (-1)
       (setIncrement White 0 (setTime White 200 (Clock exampleInfo White)))).

End ClockSpec.

(** ** Sequences of calls on a clock *)

Module ClockRun.
Local Open Scope Z_scope.
Import Clock.

(** The calls a driver makes on a clock.  The deadline computations carry
    the MoveOverhead option and the reading of the elapsed timer at the
    time of the call. *)
Inductive Op : Type :=
  | OpSetTime (army : Army) (time : Z)
  | OpSetIncrement (army : Army) (inc : Z)
  | OpSetInfinite (infinite : bool)
  | OpSetMoveTime (time : Z)
  | OpSetMaterialScore (score : Z)
  | OpStartDeadline (army : Army) (overhead nsecs : Z)
  | OpUpdateDeadline (info : SearchInfo) (isPartial : bool) (overhead nsecs : Z).

Definition step (info0 : SearchInfo) (op : Op) (c : t) : option t :=
  match op with
  | OpSetTime army time => Some (setTime army time c)
  | OpSetIncrement army inc => Some (setIncrement army inc c)
  | OpSetInfinite infinite => Some (setInfinite infinite c)
  | OpSetMoveTime time => Some (setMoveTime time c)
  | OpSetMaterialScore score => Some (setMaterialScore score c)
  | OpStartDeadline army overhead nsecs =>
      startDeadline info0 army overhead nsecs c
  | OpUpdateDeadline info isPartial overhead nsecs =>
      updateDeadline info isPartial overhead nsecs c
  end.

Fixpoint run (info0 : SearchInfo) (ops : list Op) (c : t) : option t :=
  match ops with
  | [] => Some c
  | op :: rest => c' ← step info0 op c; run info0 rest c'
  end.

(** What every reachable clock state satisfies. *)
Definition invariant (c : t) : Prop :=
  0 <= m_trendFactor c
  /\ -1 <= m_deadline c
  /\ (forall ms, m_timeout c = Some ms -> 0 <= ms < 2 ^ 31).

End ClockRun.

(** ** Comparing a binary32 number with a half-integer *)

Module F32Order.
Local Open Scope Z_scope.
Import F32.

(** [x <= N / 2] *)
Definition leHalves (x : float) (N : Z) : Prop :=
  if 0 <=? Fexp x + 1 then Fnum x * 2 ^ (Fexp x + 1) <= N
  else Fnum x <= N * 2 ^ (- (Fexp x + 1)).

End F32Order.

(** ** A second example tree *)

Module TreeExample2.
Import Tree.

(** The example tree with node 4 not yet bound to a NodePosition. *)
Definition cache : @Cache Z Z Z :=
  mkCache
    (<[4%positive := mkNode (Some 2%positive) (Some 0%Z) None [] false 9%Z]>
       (nodes Example.cache))
    (positions Example.cache) 16 16 [].

Definition scanGrandChildren := @scanGrandChildren Z Z Z (fun g => g) Z.eqb.
End TreeExample2.

(** ** A third example tree *)

Module TreeExample3.
Import Tree.

(** The example tree with the siblings 4 and 5 both at position 104. *)
Definition cache : @Cache Z Z Z :=
  mkCache
    (<[5%positive := Example.node (Some 2%positive) 104 [] 30]>
       (nodes Example.cache))
    (<[104%Z := Example.entry 104 [4%positive; 5%positive]]>
       (<[500%Z := Example.entry 500 [6%positive]]> (positions Example.cache)))
    16 16 [].

End TreeExample3.

(** * Properties *)

(** ** Sanity checks of the model *)

Section Model_checks.
Local Open Scope Z_scope.
Import Clock ClockSpec.

(** 2^24 + 1 is not a binary32 number: the conversion rounds to even. *)
Example of_int_ties_to_even :
  F32.of_int 16777217 = F32.mk 8388608 1
  /\ F32.of_int 16777219 = F32.mk 8388610 1.
Proof. split; reflexivity. Qed.

(** [qRound] rounds halves up: 2.5 to 3, -2.5 to -2, -1 stays -1. *)
Example qRound_halves :
  Qt.qRound (F32.mk 5 (-1)) = Some 3
  /\ Qt.qRound (F32.mk (-5) (-1)) = Some (-2)
  /\ Qt.qRound (F32.mk (-1) 0) = Some (-1).
Proof. repeat split; reflexivity. Qed.

(** 200 ms left, no increment, an overhead of 100 ms, material score 30,
    depth 5: the estimate is 22 half moves, the ideal time 200/22 = 9 ms,
    and the deadline is 9 ms. *)
Example deadline_under_low_time :
  expectedHalfMovesTillEOG exampleClock = Some 22
  /\ idealOf exampleClock = Some 9
  /\ m_deadline <$> calculateDeadline 100 0 exampleClock = Some 9.
Proof. repeat split; reflexivity. Qed.

(** Without resumption [clearRoot] unlinks the root and empties the
    arena. *)
Example clearRoot_without_resume :
  (fun r => (Tree.m_root r.1, Tree.used r.2, Tree.calls r.2))
    <$> Tree.Example.clearRoot 500 (Tree.mkTree (Some 1%positive) false)
          Tree.Example.cache
  = Some (None, 0%nat, [Tree.CallUnlinkNode 1%positive; Tree.CallResetNodes]).
Proof. reflexivity. Qed.

(** After a resumption at node 6 the arena holds that node alone. *)
Example clearRoot_keeps_new_root_only :
  (fun r => (Tree.m_root r.1, Tree.used r.2))
    <$> Tree.Example.clearRoot 500 Tree.Example.tree Tree.Example.cache
  = Some (Some 6%positive, 1%nat).
Proof. reflexivity. Qed.

(** The fuel [unlinkNode] and [updateTranspositions] pass covers the
    example tree. *)
Example example_fuel_suffices :
  Tree.heightWithin (Tree.nodes Tree.Example.cache)
    (S (Tree.used Tree.Example.cache)) 1%positive = true.
Proof. reflexivity. Qed.

End Model_checks.

(** ** Bounds on the binary32 operations *)

Section F32_bounds.
Local Open Scope Z_scope.
Import F32.

Lemma pow2_pos (n : Z) : 0 <= 2 ^ n.
Proof. apply Z.pow_nonneg; lia. Qed.

Lemma pow2_split (a b : Z) : 0 <= a -> 0 <= b -> 2 ^ (a + b) = 2 ^ a * 2 ^ b.
Proof. intros; apply Z.pow_add_r; lia. Qed.

Lemma pow2_mono (a b : Z) : a <= b -> 2 ^ a <= 2 ^ b.
Proof.
  intros Hab. destruct (Z.lt_ge_cases a 0) as [Ha|Ha].
  - rewrite (Z.pow_neg_r 2 a Ha). apply pow2_pos.
  - apply Z.pow_le_mono_r; lia.
Qed.

Lemma bounded_mono (K K' : Z) (x : float) :
  K <= K' -> bounded K x -> bounded K' x.
Proof.
  unfold bounded; intros HK Hx.
  etransitivity; [exact Hx|]. apply pow2_mono; lia.
Qed.

Lemma rne_le (a k P : Z) :
  0 <= a -> 0 < k -> a <= P * 2 ^ k -> 0 <= rne a k <= P.
Proof.
  intros Ha Hk HP. unfold rne.
  assert (Hd : 0 < 2 ^ k) by (apply Z.pow_pos_nonneg; lia).
  assert (Hh : 0 < 2 ^ (k - 1)) by (apply Z.pow_pos_nonneg; lia).
  pose proof (Z.div_mod a (2 ^ k) ltac:(lia)) as Hdm.
  pose proof (Z.mod_pos_bound a (2 ^ k) Hd) as Hr.
  set (q := a / 2 ^ k) in *. set (r := a mod 2 ^ k) in *.
  assert (Hq0 : 0 <= q) by (subst q; apply Z.div_pos; lia).
  assert (HqP : q <= P) by nia.
  assert (Hup : 0 < r -> q + 1 <= P) by (intros; nia).
  destruct (r <? 2 ^ (k - 1)) eqn:E1; [lia|].
  apply Z.ltb_ge in E1.
  destruct (2 ^ (k - 1) <? r) eqn:E2; [lia|].
  destruct (Z.even q); lia.
Qed.

Lemma abs_sgn_mul (m x : Z) : 0 <= x -> Z.abs (Z.sgn m * x) <= x.
Proof. intros Hx; destruct m; simpl; lia. Qed.

Lemma round_exact (m e : Z) : Z.abs m < 2 ^ prec -> round m e = mk m e.
Proof.
  intros Hm. unfold round, digits.
  destruct (Z.eq_dec m 0) as [->|Hne]; [reflexivity|].
  assert (Z.log2 (Z.abs m) < prec) by (apply Z.log2_lt_pow2; lia).
  destruct (Z.leb_spec (Z.log2 (Z.abs m) + 1 - prec) 0); [reflexivity|lia].
Qed.

Lemma round_bounded (K m e : Z) :
  Z.abs m <= 2 ^ (K - e) -> bounded K (round m e).
Proof.
  intros Hm. unfold round, digits.
  destruct (Z.leb_spec (Z.log2 (Z.abs m) + 1 - prec) 0) as [Hk|Hk];
    [exact Hm|].
  unfold bounded; cbn [Fnum Fexp].
  set (k := Z.log2 (Z.abs m) + 1 - prec) in *.
  assert (Hlog : 0 < Z.log2 (Z.abs m)) by (unfold prec in *; lia).
  assert (Ha : 0 < Z.abs m).
  { destruct (Z.eq_dec (Z.abs m) 0) as [E|E]; [rewrite E in Hlog; cbn in Hlog|]; lia. }
  destruct (Z.log2_spec (Z.abs m) Ha) as [Hlo _].
  assert (HKe : Z.log2 (Z.abs m) <= K - e).
  { destruct (Z.lt_ge_cases (K - e) (Z.log2 (Z.abs m))) as [Hlt|]; [|lia].
    exfalso.
    assert (2 ^ (K - e) < 2 ^ Z.log2 (Z.abs m)).
    { destruct (Z.lt_ge_cases (K - e) 0) as [Hn|Hn].
      - rewrite (Z.pow_neg_r 2 _ Hn). apply Z.pow_pos_nonneg; lia.
      - apply Z.pow_lt_mono_r; lia. }
    lia. }
  assert (Hsplit : 2 ^ (K - e) = 2 ^ (K - (e + k)) * 2 ^ k).
  { rewrite <- pow2_split by (unfold k, prec in *; lia). f_equal; lia. }
  pose proof (rne_le (Z.abs m) k (2 ^ (K - (e + k))) ltac:(lia) Hk
                ltac:(lia)) as [H0 H1].
  etransitivity; [apply abs_sgn_mul; exact H0|exact H1].
Qed.

Lemma of_int_bounded (K z : Z) : Z.abs z <= 2 ^ K -> bounded K (of_int z).
Proof.
  intros Hz. apply round_bounded. now rewrite Z.sub_0_r.
Qed.

Lemma of_int_exact (z : Z) : Z.abs z < 2 ^ prec -> of_int z = mk z 0.
Proof. apply round_exact. Qed.

Lemma opp_bounded (K : Z) (x : float) : bounded K x -> bounded K (opp x).
Proof. unfold bounded, opp; cbn. now rewrite Z.abs_opp. Qed.

Lemma bounded_scaled (K : Z) (x : float) (e : Z) :
  bounded K x -> e <= Fexp x -> Z.abs (Fnum x * 2 ^ (Fexp x - e)) <= 2 ^ (K - e).
Proof.
  unfold bounded; intros Hx He.
  rewrite Z.abs_mul, (Z.abs_eq (2 ^ _)) by apply pow2_pos.
  destruct (Z.lt_ge_cases (K - Fexp x) 0) as [Hn|Hn].
  - rewrite (Z.pow_neg_r 2 _ Hn) in Hx.
    replace (Z.abs (Fnum x)) with 0 by lia. rewrite Z.mul_0_l. apply pow2_pos.
  - replace (K - e) with ((K - Fexp x) + (Fexp x - e)) by lia.
    rewrite pow2_split by lia.
    apply Z.mul_le_mono_nonneg_r; [apply pow2_pos|exact Hx].
Qed.

Lemma add_bounded (K : Z) (x y : float) :
  bounded K x -> bounded K y -> bounded (K + 1) (add x y).
Proof.
  intros Hx Hy. unfold add. apply round_bounded.
  set (e := Z.min (Fexp x) (Fexp y)).
  pose proof (bounded_scaled K x e Hx ltac:(lia)) as Bx.
  pose proof (bounded_scaled K y e Hy ltac:(lia)) as By.
  destruct (Z.lt_ge_cases (K - e) 0) as [Hn|Hn].
  - rewrite (Z.pow_neg_r 2 _ Hn) in Bx, By.
    pose proof (pow2_pos (K + 1 - e)). lia.
  - replace (K + 1 - e) with ((K - e) + 1) by lia.
    rewrite pow2_split by lia. change (2 ^ 1) with 2. lia.
Qed.

Lemma sub_bounded (K : Z) (x y : float) :
  bounded K x -> bounded K y -> bounded (K + 1) (sub x y).
Proof. intros Hx Hy. apply add_bounded; [exact Hx|now apply opp_bounded]. Qed.

Lemma mul_bounded (K : Z) (x y : float) :
  bounded K x -> bounded 0 y -> bounded K (mul x y).
Proof.
  unfold bounded; intros Hx Hy. apply round_bounded.
  rewrite Z.abs_mul.
  destruct (Z.lt_ge_cases (K - Fexp x) 0) as [Hn|Hn].
  { rewrite (Z.pow_neg_r 2 _ Hn) in Hx.
    replace (Z.abs (Fnum x)) with 0 by lia. rewrite Z.mul_0_l. apply pow2_pos. }
  destruct (Z.lt_ge_cases (0 - Fexp y) 0) as [Hm|Hm].
  { rewrite (Z.pow_neg_r 2 _ Hm) in Hy.
    replace (Z.abs (Fnum y)) with 0 by lia. rewrite Z.mul_0_r. apply pow2_pos. }
  replace (K - (Fexp x + Fexp y)) with ((K - Fexp x) + (0 - Fexp y)) by lia.
  rewrite pow2_split by lia.
  apply Z.mul_le_mono_nonneg; lia.
Qed.

Lemma unit_range_bounded (x : float) : unit_range x = true -> bounded 0 x.
Proof.
  unfold unit_range, bounded. rewrite andb_true_iff, Z.leb_le, Z.leb_le.
  intros [H0 H1]. rewrite Z.abs_eq by lia. exact H1.
Qed.

Lemma trunc_bounded (K : Z) (x : float) :
  0 <= K -> bounded K x -> Z.abs (trunc x) <= 2 ^ K.
Proof.
  unfold bounded, trunc; intros HK Hx.
  destruct (Z.leb_spec 0 (Fexp x)) as [He|He].
  - pose proof (bounded_scaled K x 0 Hx He) as B.
    now rewrite !Z.sub_0_r in B.
  - assert (Hp : 0 < 2 ^ (- Fexp x)) by (apply Z.pow_pos_nonneg; lia).
    replace (K - Fexp x) with (K + - Fexp x) in Hx by lia.
    rewrite pow2_split in Hx by lia.
    pose proof (pow2_pos K).
    rewrite <- Z.quot_abs by lia.
    rewrite (Z.abs_eq (2 ^ _)) by lia.
    rewrite Z.quot_div_nonneg by lia.
    apply Z.div_le_upper_bound; lia.
Qed.

End F32_bounds.

(** ** Definedness and exactness of [qRound] *)

Section Qt_facts.
Local Open Scope Z_scope.
Import F32.

Lemma checked_Some (bits z : Z) :
  - 2 ^ (bits - 1) <= z < 2 ^ (bits - 1) -> Int.checked bits z = Some z.
Proof.
  intros [H1 H2]. unfold Int.checked, Int.in_range.
  destruct (Z.leb_spec (- 2 ^ (bits - 1)) z); [|lia].
  destruct (Z.ltb_spec z (2 ^ (bits - 1))); [reflexivity|lia].
Qed.

Lemma checked_inv (bits z r : Z) :
  Int.checked bits z = Some r -> r = z /\ - 2 ^ (bits - 1) <= z < 2 ^ (bits - 1).
Proof.
  unfold Int.checked, Int.in_range.
  destruct (Z.leb_spec (- 2 ^ (bits - 1)) z); cbn; [|discriminate].
  destruct (Z.ltb_spec z (2 ^ (bits - 1))); cbn; [|discriminate].
  intros [= <-]. lia.
Qed.

Lemma int32_Some (z : Z) : - 2 ^ 31 <= z < 2 ^ 31 -> Int.int32 z = Some z.
Proof. intros; apply checked_Some; exact H. Qed.

Lemma int64_Some (z : Z) : - 2 ^ 63 <= z < 2 ^ 63 -> Int.int64 z = Some z.
Proof. intros; apply checked_Some; exact H. Qed.

Lemma qMax_max (a b : Z) : Qt.qMax a b = Z.max a b.
Proof. unfold Qt.qMax. destruct (Z.ltb_spec a b); lia. Qed.

Lemma qMin_min (a b : Z) : Qt.qMin a b = Z.min a b.
Proof. unfold Qt.qMin. destruct (Z.ltb_spec a b); lia. Qed.

Lemma to_int_defined (K : Z) (x : float) :
  0 <= K <= 30 -> bounded K x ->
  exists z, to_int x = Some z /\ Z.abs z <= 2 ^ K.
Proof.
  intros HK Hx. pose proof (trunc_bounded K x ltac:(lia) Hx) as Ht.
  assert (2 ^ K <= 2 ^ 30) by (apply pow2_mono; lia).
  exists (trunc x). split; [|exact Ht].
  unfold to_int. apply int32_Some. lia.
Qed.

Lemma half_bounded (K : Z) : 0 <= K -> bounded K half.
Proof.
  intros HK. unfold bounded, half; cbn [Fnum Fexp].
  assert (2 ^ 0 <= 2 ^ (K - -1)) by (apply pow2_mono; lia).
  cbn in *; lia.
Qed.

Lemma one_bounded (K : Z) : 0 <= K -> bounded K one.
Proof.
  intros HK. unfold bounded, one; cbn [Fnum Fexp].
  assert (2 ^ 0 <= 2 ^ (K - 0)) by (apply pow2_mono; lia).
  cbn in *; lia.
Qed.

(** [qRound] is defined on every float of magnitude at most 2^26. *)
Lemma qRound_defined (K : Z) (d : float) :
  0 <= K <= 26 -> bounded K d ->
  exists r, Qt.qRound d = Some r /\ Z.abs r <= 2 ^ (K + 4).
Proof.
  intros HK Hd. unfold Qt.qRound.
  destruct (ge0 d).
  - destruct (to_int_defined (K + 1) (add d half)) as (z & -> & Hz);
      [lia|apply add_bounded; [exact Hd|apply half_bounded; lia]|].
    exists z; split; [reflexivity|].
    etransitivity; [exact Hz|apply pow2_mono; lia].
  - destruct (to_int_defined (K + 1) (sub d one)) as (i1 & -> & H1);
      [lia|apply sub_bounded; [exact Hd|apply one_bounded; lia]|].
    cbn [mbind option_bind].
    assert (B1 : bounded (K + 1) (of_int i1)) by (apply of_int_bounded; exact H1).
    assert (B2 : bounded (K + 2) (sub d (of_int i1))).
    { replace (K + 2) with (K + 1 + 1) by lia. apply sub_bounded;
        [apply (bounded_mono K); [lia|exact Hd]|exact B1]. }
    destruct (to_int_defined (K + 3)
                (add (sub d (of_int i1)) half)) as (i2 & -> & H2);
      [lia| |].
    { replace (K + 3) with (K + 2 + 1) by lia.
      apply add_bounded; [exact B2|apply half_bounded; lia]. }
    cbn [mbind option_bind].
    assert (2 ^ (K + 4) = 2 * 2 ^ (K + 3)).
    { replace (K + 4) with (1 + (K + 3)) by lia. rewrite pow2_split by lia.
      reflexivity. }
    assert (2 ^ (K + 1) <= 2 ^ (K + 3)) by (apply pow2_mono; lia).
    assert (2 ^ (K + 4) <= 2 ^ 30) by (apply pow2_mono; lia).
    exists (i2 + i1). split; [apply int32_Some; lia|lia].
Qed.

(** On small non-negative integers [qRound] after the conversion to
    [float] is the identity. *)
Lemma qRound_of_int (z : Z) :
  0 <= z < 2 ^ 23 -> Qt.qRound (of_int z) = Some z.
Proof.
  intros Hz. rewrite of_int_exact by (unfold prec; lia).
  unfold Qt.qRound, ge0; cbn [Fnum].
  destruct (Z.leb_spec 0 z); [|lia].
  unfold add, half; cbn [Fnum Fexp]. change (Z.min 0 (-1)) with (-1).
  change (0 - -1) with 1. change (-1 - -1) with 0.
  change (2 ^ 1) with 2. change (2 ^ 0) with 1.
  rewrite round_exact by (unfold prec; lia).
  unfold to_int, trunc; cbn [Fnum Fexp].
  change (0 <=? -1) with false. cbn iota. change (2 ^ (- (-1))) with 2.
  replace (Z.quot (z * 2 + 1 * 1) 2) with z.
  - apply int32_Some; lia.
  - rewrite Z.quot_div_nonneg by lia.
    apply (Z.div_unique _ _ z 1); lia.
Qed.

End Qt_facts.

(** ** The clock *)

Section Clock_facts.
Local Open Scope Z_scope.
Import Clock ClockSpec.

(** *** The half-move estimate as the code computes it *)

Lemma expected_low (c : t) :
  - 2 ^ 31 <= m_materialScore c + 10 -> m_materialScore c < 20 ->
  expectedHalfMovesTillEOG c = Some (m_materialScore c + 10).
Proof.
  intros Hlo Hm. unfold expectedHalfMovesTillEOG.
  destruct (Z.ltb_spec (m_materialScore c) 20); [|lia].
  apply int32_Some. lia.
Qed.

Lemma expected_mid (c : t) :
  20 <= m_materialScore c <= 60 -> expectedHalfMovesTillEOG c = Some 22.
Proof.
  intros Hm. unfold expectedHalfMovesTillEOG.
  destruct (Z.ltb_spec (m_materialScore c) 20); [lia|].
  destruct (Z.leb_spec 20 (m_materialScore c)); [|lia].
  destruct (Z.leb_spec (m_materialScore c) 60); [|lia].
  cbn [andb]. change (3 ÷ 8) with 0.
  rewrite (of_int_exact (m_materialScore c)) by (unfold F32.prec; lia).
  change (F32.of_int 0) with (F32.mk 0 0).
  unfold F32.mul; cbn [F32.Fnum F32.Fexp]. rewrite Z.mul_0_l.
  reflexivity.
Qed.

Lemma expected_high (c : t) :
  60 < m_materialScore c < 2 ^ 23 ->
  expectedHalfMovesTillEOG c = Some (m_materialScore c - 30).
Proof.
  intros Hm. unfold expectedHalfMovesTillEOG.
  destruct (Z.ltb_spec (m_materialScore c) 20); [lia|].
  destruct (Z.leb_spec (m_materialScore c) 60); [lia|].
  rewrite andb_false_r. change (5 ÷ 4) with 1.
  assert (Hmul : F32.mul (F32.of_int 1) (F32.of_int (m_materialScore c))
                 = F32.of_int (m_materialScore c)).
  { rewrite !of_int_exact by (unfold F32.prec; cbn; lia).
    unfold F32.mul; cbn [F32.Fnum F32.Fexp]. rewrite Z.mul_1_l.
    apply round_exact. unfold F32.prec; lia. }
  rewrite Hmul, qRound_of_int by lia. cbn [mbind option_bind].
  apply int32_Some. lia.
Qed.

Lemma expected_defined (c : t) :
  Z.abs (m_materialScore c) <= 2 ^ 22 -> m_materialScore c <> -10 ->
  exists e, expectedHalfMovesTillEOG c = Some e /\ e <> 0.
Proof.
  intros Hb Hne.
  destruct (Z.lt_ge_cases (m_materialScore c) 20) as [H1|H1].
  - exists (m_materialScore c + 10). split; [apply expected_low; lia|lia].
  - destruct (Z.le_gt_cases (m_materialScore c) 60) as [H2|H2].
    + exists 22. split; [apply expected_mid; lia|lia].
    + exists (m_materialScore c - 30). split; [apply expected_high; lia|lia].
Qed.

(** *** What [calculateDeadline] computes *)

Lemma calculateDeadline_infinite (overhead nsecs : Z) (c : t) :
  m_infinite c = true ->
  exists c', calculateDeadline overhead nsecs c = Some c'
    /\ m_deadline c' = -1 /\ m_trendFactor c' = m_trendFactor c
    /\ m_timeout c' = None.
Proof.
  intros Hinf. unfold calculateDeadline. rewrite Hinf.
  eexists; split; [reflexivity|]. cbn. auto.
Qed.

Lemma calculateDeadline_inv (overhead nsecs : Z) (c c' : t) :
  m_infinite c = false ->
  calculateDeadline overhead nsecs c = Some c' ->
  exists maximum ideal raw tf dl,
    maximumOf overhead c = Some maximum
    /\ idealOf c = Some ideal
    /\ trendRaw overhead (time (m_onTheClock c) c) (m_info c) = Some raw
    /\ (if negb (Trend_eqb (trend (m_info c)) Better)
        then Int.int64 (m_trendFactor c + raw)
        else Some (Z.quot (m_trendFactor c) 2)) = Some tf
    /\ branchDeadline overhead maximum ideal c = Some dl
    /\ m_trendFactor c' = Z.max 0 tf
    /\ m_deadline c' = Z.max 0 dl.
Proof.
  intros Hinf H. unfold calculateDeadline in H. rewrite Hinf in H.
  destruct (Int.int64 (time (m_onTheClock c) c - overhead))
    as [maximum|] eqn:Emax; cbn [mbind option_bind] in H; [|discriminate].
  destruct (expectedHalfMovesTillEOG c) as [e|] eqn:Ee;
    cbn [mbind option_bind] in H; [|discriminate].
  destruct (Int.div64 (time (m_onTheClock c) c) e) as [q|] eqn:Eq;
    cbn [mbind option_bind] in H; [|discriminate].
  destruct (Int.int64 (q + increment (m_onTheClock c) c)) as [s|] eqn:Es;
    cbn [mbind option_bind] in H; [|discriminate].
  destruct (Qt.qRound (easingCurve (F32.of_int s))) as [ideal|] eqn:Ei;
    cbn [mbind option_bind] in H; [|discriminate].
  destruct (Qt.qRound (F32.mul (F32.of_int (maximum ÷ 4))
                         (trendDegree (m_info c)))) as [raw|] eqn:Er;
    cbn [mbind option_bind] in H; [|discriminate].
  match type of H with
  | mbind _ ?m = _ => destruct m as [tf|] eqn:Etf;
      cbn [mbind option_bind] in H; [|discriminate]
  end.
  match type of H with
  | mbind _ ?m = _ => destruct m as [dl|] eqn:Edl;
      cbn [mbind option_bind] in H; [|discriminate]
  end.
  match type of H with
  | mbind _ ?m = _ => destruct m as [rem|] eqn:Erem;
      cbn [mbind option_bind] in H; [|discriminate]
  end.
  injection H as <-. cbn [m_trendFactor m_deadline].
  exists maximum, ideal, raw, tf, dl.
  rewrite !qMax_max.
  repeat split; try assumption; try reflexivity.
  - unfold idealOf. rewrite Ee; cbn [mbind option_bind].
    rewrite Eq; cbn [mbind option_bind]. rewrite Es; cbn [mbind option_bind].
    exact Ei.
  - unfold trendRaw. rewrite Emax; cbn [mbind option_bind]. exact Er.
Qed.

Lemma sane_inv (overhead : Z) (c : t) :
  sane overhead c = true ->
  Z.abs (time (m_onTheClock c) c) <= 2 ^ 25
  /\ Z.abs (increment (m_onTheClock c) c) <= 2 ^ 25
  /\ Z.abs overhead <= 2 ^ 25
  /\ Z.abs (m_moveTime c) <= 2 ^ 62
  /\ Z.abs (m_trendFactor c) <= 2 ^ 62
  /\ Z.abs (m_materialScore c) <= 2 ^ 22
  /\ m_materialScore c <> -10
  /\ F32.unit_range (trendDegree (m_info c)) = true.
Proof.
  unfold sane. rewrite !andb_true_iff, !Z.leb_le, negb_true_iff, Z.eqb_neq.
  tauto.
Qed.

(** In the sane range [calculateDeadline] is defined. *)
Lemma calculateDeadline_defined (overhead nsecs : Z) (c : t) :
  sane overhead c = true -> timerReading nsecs = true ->
  is_Some (calculateDeadline overhead nsecs c).
Proof.
  intros Hs Hn.
  destruct (m_infinite c) eqn:Hinf.
  { destruct (calculateDeadline_infinite overhead nsecs c Hinf) as (c' & -> & _).
    eauto. }
  apply sane_inv in Hs.
  destruct Hs as (Ht & Hi & Ho & Hm & Htf & Hms & Hne & Hu).
  unfold timerReading in Hn. rewrite andb_true_iff, Z.leb_le, Z.ltb_lt in Hn.
  unfold calculateDeadline. rewrite Hinf.
  set (tm := time (m_onTheClock c) c) in *.
  set (inc := increment (m_onTheClock c) c) in *.
  rewrite (int64_Some (tm - overhead)) by (cbn in *; lia).
  cbn [mbind option_bind].
  destruct (expected_defined c Hms Hne) as (e & -> & He).
  cbn [mbind option_bind].
  assert (Hq : Z.abs (tm ÷ e) <= 2 ^ 25).
  { etransitivity; [|exact Ht].
    rewrite <- Z.quot_abs by exact He.
    apply Z.quot_le_upper_bound; [lia|]. nia. }
  unfold Int.div64. destruct (Z.eqb_spec e 0); [contradiction|].
  rewrite (int64_Some (tm ÷ e)) by (cbn in *; lia).
  cbn [mbind option_bind].
  rewrite (int64_Some (tm ÷ e + inc)) by (cbn in *; lia).
  cbn [mbind option_bind].
  destruct (qRound_defined 26 (easingCurve (F32.of_int (tm ÷ e + inc))))
    as (ideal & -> & Hideal); [lia| |].
  { apply of_int_bounded. cbn in *; lia. }
  cbn [mbind option_bind].
  destruct (qRound_defined 26
              (F32.mul (F32.of_int ((tm - overhead) ÷ 4))
                 (trendDegree (m_info c)))) as (raw & -> & Hraw); [lia| |].
  { apply mul_bounded; [|apply unit_range_bounded; exact Hu].
    apply of_int_bounded.
    assert (Z.abs ((tm - overhead) ÷ 4) <= Z.abs (tm - overhead)).
    { rewrite <- (Z.quot_abs _ 4) by lia. change (Z.abs 4) with 4.
      apply Z.quot_le_upper_bound; lia. }
    cbn in *; lia. }
  cbn [mbind option_bind].
  assert (Htf' : exists tf,
    (if negb (Trend_eqb (trend (m_info c)) Better)
     then Int.int64 (m_trendFactor c + raw)
     else Some (m_trendFactor c ÷ 2)) = Some tf).
  { destruct (negb _); [|eauto].
    rewrite int64_Some by (cbn in *; lia). eauto. }
  destruct Htf' as (tf & ->). cbn [mbind option_bind].
  assert (Hdl : exists dl,
    (if negb (m_moveTime c =? -1) then Int.int64 (m_moveTime c - overhead)
     else if negb (tm =? -1) && (minimumDepth <=? depth (m_info c))
          then Some (Qt.qMin (tm - overhead) ideal)
          else if negb (tm =? -1) then Some (tm - overhead) else Some 5000)
    = Some dl /\ Z.abs dl <= 2 ^ 62 + 2 ^ 30).
  { destruct (negb (m_moveTime c =? -1)).
    - rewrite int64_Some by (cbn in *; lia). eexists; split; [reflexivity|].
      cbn in *; lia.
    - destruct (negb (tm =? -1) && _).
      + eexists; split; [reflexivity|]. rewrite qMin_min. cbn in *; lia.
      + destruct (negb (tm =? -1)); eexists; (split; [reflexivity|]);
          cbn in *; lia. }
  destruct Hdl as (dl & -> & Hdl). cbn [mbind option_bind].
  rewrite !qMax_max.
  assert (0 <= elapsed nsecs <= nsecs).
  { unfold elapsed. split; [apply Z.quot_pos; lia|].
    apply Z.quot_le_upper_bound; lia. }
  rewrite int64_Some by (cbn in *; lia).
  cbn [mbind option_bind]. eauto.
Qed.

End Clock_facts.

(** ** The specified properties of the clock *)

Section Clock_properties.
Local Open Scope Z_scope.
Import Clock ClockSpec.

(** C1 (the code departs from the specification).  Specified: the
    estimate is [m + 10] below 20, [round(0.375 m) + 22] from 20 to 60 and
    [round(1.25 m) - 30] above 60.  The code divides the integer literals
    first, so [3/8] is 0 and [5/4] is 1: at material score 40 it returns 22
    where the specification gives 37, at 80 it returns 50 where the
    specification gives 70; at 10 both give 20. *)
Theorem C1_expectedHalfMoves_integer_division (c : t) :
  expectedHalfMovesTillEOG (setMaterialScore 40 c) = Some 22
  /\ expectedHalfMoves_spec 40 = 37
  /\ expectedHalfMovesTillEOG (setMaterialScore 80 c) = Some 50
  /\ expectedHalfMoves_spec 80 = 70
  /\ expectedHalfMovesTillEOG (setMaterialScore 10 c) = Some 20
  /\ expectedHalfMoves_spec 10 = 20.
Proof.
  split; [apply (expected_mid (setMaterialScore 40 c)); cbn; lia|].
  split; [reflexivity|].
  split; [apply (expected_high (setMaterialScore 80 c)); cbn; lia|].
  split; [reflexivity|].
  split; [apply (expected_low (setMaterialScore 10 c)); cbn; lia|].
  reflexivity.
Qed.

(** C2 as stated fails: with a move time of 50 ms and an overhead of
    100 ms the deadline is 0, not -50. *)
Lemma C2_counterexample :
  ~ (forall overhead nsecs c c',
       m_infinite c = false -> 0 <= m_moveTime c ->
       calculateDeadline overhead nsecs c = Some c' ->
       m_deadline c' = m_moveTime c - overhead).
Proof.
  intros H.
  destruct (calculateDeadline 100 0 (setMoveTime 50 exampleClock))
    as [c'|] eqn:E; [|vm_compute in E; discriminate E].
  pose proof (H 100 0 (setMoveTime 50 exampleClock) c' eq_refl
                ltac:(cbn; lia) E) as Hd.
  vm_compute in E. injection E as <-. vm_compute in Hd. discriminate Hd.
Qed.

(** C2 (amended).  On a clock that is not infinite and whose move-time
    override is set ([moveTime >= 0]), the deadline is
    [max(0, moveTime - overhead)]; it is [moveTime - overhead] when the
    move time is at least the overhead.  In the sane range the computation
    is defined. *)
Theorem C2_moveTime_deadline (overhead nsecs : Z) (c : t) :
  m_infinite c = false -> 0 <= m_moveTime c ->
  (sane overhead c = true -> timerReading nsecs = true ->
   is_Some (calculateDeadline overhead nsecs c))
  /\ (forall c', calculateDeadline overhead nsecs c = Some c' ->
        m_deadline c' = Z.max 0 (m_moveTime c - overhead)
        /\ (overhead <= m_moveTime c -> m_deadline c' = m_moveTime c - overhead)).
Proof.
  intros Hinf Hmt. split; [apply calculateDeadline_defined|].
  intros c' H.
  destruct (calculateDeadline_inv _ _ _ _ Hinf H)
    as (maximum & ideal & raw & tf & dl & _ & _ & _ & _ & Hdl & _ & Hd).
  unfold branchDeadline in Hdl.
  destruct (Z.eqb_spec (m_moveTime c) (-1)); [lia|]. cbn [negb] in Hdl.
  apply checked_inv in Hdl as [-> _]. rewrite Hd. lia.
Qed.

(** A move time of 1000 ms: the deadline is 900 ms. *)
Lemma C2_moveTime_deadline_witness :
  exists c', calculateDeadline 100 0 (setMoveTime 1000 exampleClock) = Some c'
             /\ m_deadline c' = 900.
Proof.
  destruct (C2_moveTime_deadline 100 0 (setMoveTime 1000 exampleClock)
              eq_refl ltac:(cbn; lia)) as [Hd Hp].
  destruct (Hd eq_refl eq_refl) as [c' E].
  exists c'. split; [exact E|]. exact (proj1 (Hp c' E)).
Defined.

(** C3 as stated fails: with 200 ms left, an overhead of 100 ms and a
    move-time override of 10000 ms the deadline is 9900 ms, outside
    [0, 100]. *)
Lemma C3_counterexample :
  ~ (forall overhead nsecs c c',
       m_infinite c = false -> overhead <= time (m_onTheClock c) c ->
       calculateDeadline overhead nsecs c = Some c' ->
       0 <= m_deadline c' <= time (m_onTheClock c) c - overhead).
Proof.
  intros H.
  destruct (calculateDeadline 100 0 (setMoveTime 10000 exampleClock))
    as [c'|] eqn:E; [|vm_compute in E; discriminate E].
  pose proof (H 100 0 (setMoveTime 10000 exampleClock) c' eq_refl
                ltac:(cbn; lia) E) as Hd.
  vm_compute in E. injection E as <-. cbn in Hd. lia.
Qed.

(** C3 (amended).  On a clock that is not infinite, has no move-time
    override ([moveTime = -1]) and whose side on the clock has its time set
    ([time <> -1]) to at least the overhead, the deadline lies in
    [0, time - overhead].  In the sane range the computation is defined. *)
Theorem C3_deadline_bounds (overhead nsecs : Z) (c : t) :
  m_infinite c = false -> m_moveTime c = -1 ->
  time (m_onTheClock c) c <> -1 -> overhead <= time (m_onTheClock c) c ->
  (sane overhead c = true -> timerReading nsecs = true ->
   is_Some (calculateDeadline overhead nsecs c))
  /\ (forall c', calculateDeadline overhead nsecs c = Some c' ->
        0 <= m_deadline c' <= time (m_onTheClock c) c - overhead).
Proof.
  intros Hinf Hmt Ht Hle. split; [apply calculateDeadline_defined|].
  intros c' H.
  destruct (calculateDeadline_inv _ _ _ _ Hinf H)
    as (maximum & ideal & raw & tf & dl & Hmax & _ & _ & _ & Hdl & _ & Hd).
  unfold maximumOf in Hmax. apply checked_inv in Hmax as [-> _].
  unfold branchDeadline in Hdl. rewrite Hmt in Hdl. cbn [Z.eqb negb] in Hdl.
  destruct (Z.eqb_spec (time (m_onTheClock c) c) (-1)); [contradiction|].
  cbn [negb andb] in Hdl. rewrite qMin_min in Hdl.
  destruct (minimumDepth <=? depth (m_info c)); injection Hdl as <-; lia.
Qed.

(** 200 ms left, an overhead of 100 ms. *)
Lemma C3_deadline_bounds_witness :
  exists c', calculateDeadline 100 0 exampleClock = Some c'
             /\ 0 <= m_deadline c' <= 100.
Proof.
  destruct (C3_deadline_bounds 100 0 exampleClock eq_refl eq_refl
              ltac:(cbn; lia) ltac:(cbn; lia)) as [Hd Hp].
  destruct (Hd eq_refl eq_refl) as [c' E].
  exists c'. split; [exact E|]. exact (Hp c' E).
Defined.

(** C4 as stated fails: [QElapsedTimer::hasExpired] asks for the elapsed
    time to exceed the timeout, so 100 ms into a 100 ms deadline the clock
    has not expired although the elapsed time is at least the deadline. *)
Lemma C4_counterexample :
  ~ (forall nsecs c,
       timerReading nsecs = true ->
       (hasExpired nsecs c = true <->
        m_deadline c <= elapsed nsecs /\ 0 <= m_deadline c)).
Proof.
  intros H.
  destruct (calculateDeadline 100 0 (setMoveTime 200 exampleClock))
    as [c'|] eqn:E; [|vm_compute in E; discriminate E].
  pose proof (H 100000000 c' eq_refl) as [_ Hd].
  vm_compute in E. injection E as <-.
  assert (Hf : hasExpired 100000000
                 (mkClock false 200 0 (-1) (-1) 200 false 100 13 30 0
                    exampleInfo White (Some 100)) = true).
  { apply Hd. split; vm_compute; intro; discriminate. }
  vm_compute in Hf. discriminate Hf.
Qed.

(** C4 (amended).  For every clock state and timer reading, [hasExpired()]
    is true if and only if the elapsed milliseconds exceed the deadline and
    the deadline is at least 0.  When the infinite flag is set,
    [calculateDeadline] makes the deadline -1 and [hasExpired()] is false
    whatever the timer reads. *)
Theorem C4_hasExpired (nsecs : Z) (c : t) :
  timerReading nsecs = true ->
  - 2 ^ 63 <= m_deadline c < 2 ^ 63 ->
  (hasExpired nsecs c = true <->
   m_deadline c < elapsed nsecs /\ 0 <= m_deadline c)
  /\ (forall overhead nsecs0,
        m_infinite c = true ->
        exists c', calculateDeadline overhead nsecs0 c = Some c'
                   /\ m_deadline c' = -1 /\ hasExpired nsecs c' = false).
Proof.
  intros Hn Hd.
  unfold timerReading in Hn. rewrite andb_true_iff, Z.leb_le, Z.ltb_lt in Hn.
  assert (He : 0 <= elapsed nsecs < 2 ^ 63).
  { unfold elapsed. split; [apply Z.quot_pos; lia|].
    apply Z.le_lt_trans with nsecs; [|lia].
    apply Z.quot_le_upper_bound; lia. }
  assert (Hu : Int.to_uint64 (elapsed nsecs) = elapsed nsecs).
  { unfold Int.to_uint64. apply Z.mod_small. cbn in *; lia. }
  assert (Hneg : forall d, - 2 ^ 63 <= d < 0 ->
            Qt.timer_hasExpired (elapsed nsecs) d = false).
  { intros d Hd'. unfold Qt.timer_hasExpired. rewrite Hu.
    apply Z.ltb_ge. unfold Int.to_uint64.
    replace (d mod 2 ^ 64) with (d + 2 ^ 64).
    - cbn in *; lia.
    - apply (Z.mod_unique _ _ (-1)); cbn in *; lia. }
  split.
  - unfold hasExpired.
    destruct (Z.lt_ge_cases (m_deadline c) 0) as [Hlt|Hge].
    + rewrite Hneg by lia. split; [discriminate|lia].
    + unfold Qt.timer_hasExpired. rewrite Hu. unfold Int.to_uint64.
      rewrite Z.mod_small by (cbn in *; lia). rewrite Z.ltb_lt. lia.
  - intros overhead nsecs0 Hinf.
    destruct (calculateDeadline_infinite overhead nsecs0 c Hinf)
      as (c' & E & Hd' & _).
    exists c'. split; [exact E|]. split; [exact Hd'|].
    unfold hasExpired. rewrite Hd'. apply Hneg. cbn; lia.
Qed.

(** An infinite clock, read 101 ms after the start. *)
Lemma C4_hasExpired_witness :
  (hasExpired 101000000 (setInfinite true exampleClock) = true <->
   0 < 101 /\ 0 <= 0)
  /\ exists c', calculateDeadline 100 0 (setInfinite true exampleClock) = Some c'
                /\ m_deadline c' = -1 /\ hasExpired 101000000 c' = false.
Proof.
  destruct (C4_hasExpired 101000000 (setInfinite true exampleClock)
              eq_refl ltac:(cbn; lia)) as [Hiff Hinf].
  split; [exact Hiff|]. exact (Hinf 100 0 eq_refl).
Defined.

(** C5 as stated fails: a deadline computation on an infinite clock
    returns before the trend factor is touched; with a trend factor of 10
    and a better trend it stays 10 instead of being halved to 5. *)
Lemma C5_counterexample :
  ~ (forall info isPartial overhead nsecs c c' raw,
       updateDeadline info isPartial overhead nsecs c = Some c' ->
       trendRaw overhead (time (m_onTheClock c) c) info = Some raw ->
       m_trendFactor c' = trendUpdate (m_trendFactor c) raw info).
Proof.
  intros H.
  pose proof (H (mkInfo 5 Better F32.zero) false 100 0
                (setInfinite true (setTrendFactor 10 exampleClock))
                _ 0 eq_refl eq_refl) as Hd.
  vm_compute in Hd. discriminate Hd.
Qed.

(** C5 (amended).  Every deadline computation on a clock that is not
    infinite (via [startDeadline] or [updateDeadline]) updates the trend
    factor as follows: with [raw = round((maximum/4) * trendDegree)] and
    [maximum = time - overhead], the trend factor grows by [raw] if the
    reported trend is not Better and is halved otherwise, and is then
    clamped to be at least 0.  In the sane range both computations are
    defined. *)
Theorem C5_trendFactor_update (info0 info : SearchInfo) (army : Army)
    (isPartial : bool) (overhead nsecs : Z) (c : t) :
  m_infinite c = false ->
  (forall c', startDeadline info0 army overhead nsecs c = Some c' ->
     exists raw, trendRaw overhead (time army c) info0 = Some raw
       /\ m_trendFactor c' = trendUpdate (m_trendFactor c) raw info0)
  /\ (forall c', updateDeadline info isPartial overhead nsecs c = Some c' ->
        exists raw, trendRaw overhead (time (m_onTheClock c) c) info = Some raw
          /\ m_trendFactor c' = trendUpdate (m_trendFactor c) raw info)
  /\ (sane overhead (started info0 army c) = true -> timerReading nsecs = true ->
      is_Some (startDeadline info0 army overhead nsecs c))
  /\ (sane overhead (updated info c) = true -> timerReading nsecs = true ->
      is_Some (updateDeadline info isPartial overhead nsecs c)).
Proof.
  intros Hinf.
  assert (Hgen : forall c0 c', m_infinite c0 = false ->
            calculateDeadline overhead nsecs c0 = Some c' ->
            exists raw,
              trendRaw overhead (time (m_onTheClock c0) c0) (m_info c0) = Some raw
              /\ m_trendFactor c' = trendUpdate (m_trendFactor c0) raw (m_info c0)).
  { intros c0 c' Hinf0 H.
    destruct (calculateDeadline_inv _ _ _ _ Hinf0 H)
      as (maximum & ideal & raw & tf & dl & _ & _ & Hraw & Htf & _ & Hc & _).
    exists raw. split; [exact Hraw|]. rewrite Hc. unfold trendUpdate.
    destruct (trend (m_info c0)); cbn [Trend_eqb negb] in Htf.
    - apply checked_inv in Htf as [-> _]. reflexivity.
    - apply checked_inv in Htf as [-> _]. reflexivity.
    - injection Htf as <-. reflexivity. }
  split; [|split; [|split]].
  - intros c' H. apply (Hgen (started info0 army c) c' Hinf H).
  - intros c' H. apply (Hgen (updated info c) c' Hinf H).
  - apply (calculateDeadline_defined overhead nsecs (started info0 army c)).
  - apply (calculateDeadline_defined overhead nsecs (updated info c)).
Qed.

(** 60100 ms left, a worse trend of degree one half: a quarter of the
    60000 ms that remain after the overhead, halved, is added. *)
Lemma C5_trendFactor_update_witness :
  exists c', updateDeadline exampleInfo false 100 0
               (setTime White 60100 exampleClock) = Some c'
             /\ m_trendFactor c' = 7500.
Proof.
  destruct (C5_trendFactor_update exampleInfo exampleInfo White false 100 0
              (setTime White 60100 exampleClock) eq_refl)
    as (_ & Hu & _ & Hd).
  destruct (Hd eq_refl eq_refl) as [c' E].
  exists c'. split; [exact E|].
  destruct (Hu c' E) as (raw & Hraw & Htf).
  vm_compute in Hraw. injection Hraw as <-. exact Htf.
Defined.

(** C6.  The deadline does not depend on the accumulated trend factor: two
    clock states that differ only in the stored trend factor compute the
    same deadline; in the sane range both computations are defined. *)
Theorem C6_deadline_independent_of_trendFactor (overhead nsecs tf1 tf2 : Z)
    (c : t) :
  (forall c1 c2,
     calculateDeadline overhead nsecs (setTrendFactor tf1 c) = Some c1 ->
     calculateDeadline overhead nsecs (setTrendFactor tf2 c) = Some c2 ->
     m_deadline c1 = m_deadline c2)
  /\ (sane overhead (setTrendFactor tf1 c) = true ->
      sane overhead (setTrendFactor tf2 c) = true ->
      timerReading nsecs = true ->
      exists c1 c2,
        calculateDeadline overhead nsecs (setTrendFactor tf1 c) = Some c1
        /\ calculateDeadline overhead nsecs (setTrendFactor tf2 c) = Some c2
        /\ m_deadline c1 = m_deadline c2).
Proof.
  assert (Hsame : forall c1 c2,
     calculateDeadline overhead nsecs (setTrendFactor tf1 c) = Some c1 ->
     calculateDeadline overhead nsecs (setTrendFactor tf2 c) = Some c2 ->
     m_deadline c1 = m_deadline c2).
  { intros c1 c2 H1 H2.
    destruct (m_infinite c) eqn:Hinf.
    - destruct (calculateDeadline_infinite overhead nsecs
                  (setTrendFactor tf1 c) Hinf) as (c1' & E1 & D1 & _).
      destruct (calculateDeadline_infinite overhead nsecs
                  (setTrendFactor tf2 c) Hinf) as (c2' & E2 & D2 & _).
      congruence.
    - destruct (calculateDeadline_inv _ _ (setTrendFactor tf1 c) _ Hinf H1)
        as (max1 & ideal1 & _ & _ & dl1 & Hm1 & Hi1 & _ & _ & Hdl1 & _ & Hd1).
      destruct (calculateDeadline_inv _ _ (setTrendFactor tf2 c) _ Hinf H2)
        as (max2 & ideal2 & _ & _ & dl2 & Hm2 & Hi2 & _ & _ & Hdl2 & _ & Hd2).
      change (maximumOf overhead c = Some max1) in Hm1.
      change (maximumOf overhead c = Some max2) in Hm2.
      change (idealOf c = Some ideal1) in Hi1.
      change (idealOf c = Some ideal2) in Hi2.
      change (branchDeadline overhead max1 ideal1 c = Some dl1) in Hdl1.
      change (branchDeadline overhead max2 ideal2 c = Some dl2) in Hdl2.
      congruence. }
  split; [exact Hsame|].
  intros S1 S2 Hn.
  destruct (calculateDeadline_defined overhead nsecs _ S1 Hn) as [c1 E1].
  destruct (calculateDeadline_defined overhead nsecs _ S2 Hn) as [c2 E2].
  exists c1, c2. split; [exact E1|]. split; [exact E2|].
  apply (Hsame c1 c2 E1 E2).
Qed.

(** Trend factors 0 and 5000 on the example clock. *)
Lemma C6_deadline_independent_of_trendFactor_witness :
  exists c1 c2,
    calculateDeadline 100 0 (setTrendFactor 0 exampleClock) = Some c1
    /\ calculateDeadline 100 0 (setTrendFactor 5000 exampleClock) = Some c2
    /\ m_deadline c1 = m_deadline c2.
Proof.
  exact (proj2 (C6_deadline_independent_of_trendFactor 100 0 0 5000 exampleClock)
           eq_refl eq_refl eq_refl).
Defined.

(** C9 (the code departs from the specification).  A freshly constructed
    clock has both sides' time and increment at -1, but [m_moveTime] is
    initialised with [false], that is 0, not -1.  Hence the first deadline
    computation on a fresh clock takes the move-time branch: for every
    overhead from 0 to 2^25 ms it yields [max(0, 0 - overhead) = 0],
    whereas with the override at -1, as specified, the same call yields
    the fallback of 5000 ms. *)
Theorem C9_fresh_clock_moveTime_is_zero (info0 : SearchInfo)
    (army0 army : Army) (overhead nsecs : Z) :
  F32.unit_range (trendDegree info0) = true ->
  0 <= overhead <= 2 ^ 25 ->
  timerReading nsecs = true ->
  time White (Clock info0 army0) = -1
  /\ time Black (Clock info0 army0) = -1
  /\ increment White (Clock info0 army0) = -1
  /\ increment Black (Clock info0 army0) = -1
  /\ m_moveTime (Clock info0 army0) = 0
  /\ (exists c',
        startDeadline info0 army overhead nsecs (Clock info0 army0) = Some c'
        /\ m_deadline c' = 0)
  /\ (exists c',
        startDeadline info0 army overhead nsecs
          (setMoveTime (-1) (Clock info0 army0)) = Some c'
        /\ m_deadline c' = 5000).
Proof.
  intros Hu Ho Hn. do 5 (split; [reflexivity|]).
  assert (Hsane : forall mt, Z.abs mt <= 1 ->
            sane overhead (started info0 army (setMoveTime mt (Clock info0 army0)))
            = true).
  { intros mt Hmt. unfold sane.
    assert (Ht : time army (started info0 army (setMoveTime mt (Clock info0 army0)))
                 = -1) by (destruct army; reflexivity).
    assert (Hi : increment army
                   (started info0 army (setMoveTime mt (Clock info0 army0)))
                 = -1) by (destruct army; reflexivity).
    cbn [m_onTheClock started]. rewrite Ht, Hi.
    cbn [m_moveTime m_trendFactor m_materialScore m_info started setMoveTime
           Clock trendDegree].
    rewrite Hu.
    repeat (apply andb_true_intro; split); try reflexivity;
      apply Z.leb_le; cbn in *; lia. }
  split.
  - destruct (calculateDeadline_defined overhead nsecs _ (Hsane 0 ltac:(lia)) Hn)
      as [c' E].
    exists c'. split; [exact E|].
    destruct (calculateDeadline_inv overhead nsecs
                (started info0 army (setMoveTime 0 (Clock info0 army0))) c'
                eq_refl E)
      as (maximum & ideal & raw & tf & dl & _ & _ & _ & _ & Hdl & _ & Hd).
    unfold branchDeadline in Hdl. cbn [m_moveTime started Clock] in Hdl.
    cbn [Z.eqb negb] in Hdl. apply checked_inv in Hdl as [-> _].
    rewrite Hd. cbn [m_moveTime started setMoveTime Clock]. lia.
  - destruct (calculateDeadline_defined overhead nsecs _
                (Hsane (-1) ltac:(lia)) Hn) as [c' E].
    exists c'. split; [exact E|].
    destruct (calculateDeadline_inv overhead nsecs
                (started info0 army (setMoveTime (-1) (Clock info0 army0))) c'
                eq_refl E)
      as (maximum & ideal & raw & tf & dl & _ & _ & _ & _ & Hdl & _ & Hd).
    unfold branchDeadline in Hdl.
    assert (Ht : time army (started info0 army
                              (setMoveTime (-1) (Clock info0 army0))) = -1)
      by (destruct army; reflexivity).
    cbn [m_moveTime m_onTheClock started setMoveTime] in Hdl.
    rewrite Ht in Hdl. cbn [Z.eqb negb andb] in Hdl.
    injection Hdl as <-. lia.
Qed.

(** The fresh clock, White to move, an overhead of 100 ms. *)
Lemma C9_fresh_clock_moveTime_is_zero_witness :
  m_moveTime (Clock exampleInfo White) = 0
  /\ exists c',
       startDeadline exampleInfo White 100 0 (Clock exampleInfo White) = Some c'
       /\ m_deadline c' = 0.
Proof.
  destruct (C9_fresh_clock_moveTime_is_zero exampleInfo White White 100 0
              eq_refl ltac:(cbn; lia) eq_refl)
    as (_ & _ & _ & _ & Hm & Hd & _).
  split; [exact Hm|exact Hd].
Defined.

End Clock_properties.


(** ** The search tree root *)

Section Tree_facts.
Context {Position Game Stats : Type}.
Variable position : Game -> Position.
Variable isSamePosition : Position -> Position -> bool.
Variable positionHash : Position -> Z.
Variable freshStats : Stats.
Import Tree.

Local Abbreviation Cache := (@Tree.Cache Position Game Stats).
Local Abbreviation Node := (@Tree.Node Game Stats).
Local Abbreviation NodePosition := (@Tree.NodePosition Position).
Local Abbreviation Scan := (@Tree.Scan Position Game Stats).
Local Abbreviation resumable := (Tree.resumable position isSamePosition).
Local Abbreviation isHit := (Tree.isHit position isSamePosition).
Local Abbreviation firstHit := (Tree.firstHit position isSamePosition).
Local Abbreviation hits := (Tree.hits position isSamePosition).
Local Abbreviation allMatches := (Tree.allMatches position isSamePosition).
Local Abbreviation distinctSiblings := (Tree.distinctSiblings position isSamePosition).
Local Abbreviation childOK := (Tree.childOK position isSamePosition).
Local Abbreviation childrenOK := (Tree.childrenOK position isSamePosition).
Local Abbreviation childShaped := (Tree.childShaped position isSamePosition).
Local Abbreviation shaped := (Tree.shaped position isSamePosition).
Local Abbreviation wellFormed := (Tree.wellFormed position isSamePosition).
Local Abbreviation scanGrandChildren := (Tree.scanGrandChildren position isSamePosition).
Local Abbreviation scanChildren := (Tree.scanChildren position isSamePosition).
Local Abbreviation clearRoot := (Tree.clearRoot position isSamePosition).
Local Abbreviation embodiedRoot := (Tree.embodiedRoot position positionHash freshStats).

(** *** Frame properties of the helpers *)

Lemma sameView_refl (c : Cache) : sameView c c.
Proof. split; reflexivity. Qed.

Lemma sameView_trans (a b c : Cache) :
  sameView a b -> sameView b c -> sameView a c.
Proof.
  intros [N1 P1] [N2 P2]. split; intros x.
  - rewrite N2. apply N1.
  - rewrite P2. apply P1.
Qed.

Lemma onlyTranspositions_refl (c : Cache) : onlyTranspositions c c.
Proof. repeat split; reflexivity. Qed.

Lemma onlyTranspositions_trans (a b c : Cache) :
  onlyTranspositions a b -> onlyTranspositions b c -> onlyTranspositions a c.
Proof.
  intros (N1 & L1 & C1 & Q1 & P1) (N2 & L2 & C2 & Q2 & P2).
  repeat split; first [congruence | intros h; rewrite P2; apply P1].
Qed.

Lemma onlyTranspositions_sameView (c c' : Cache) :
  onlyTranspositions c c' -> sameView c c'.
Proof.
  intros (N & _ & _ & _ & P). split; [|exact P]. intros p. now rewrite N.
Qed.

Lemma grows_refl (c : Cache) : grows c c.
Proof. intros h p H; exact H. Qed.

Lemma grows_trans (a b c : Cache) : grows a b -> grows b c -> grows a c.
Proof. intros H1 H2 h p H. apply H2, H1, H. Qed.

(** A walk is a sequence of updates of single entries: whatever relation
    contains those steps and is reflexive and transitive relates the cache
    before the walk to the cache after it. *)
Lemma walk_preserves (R : Cache -> Cache -> Prop)
    (f : ptr -> NodePosition -> NodePosition) :
  (forall c, R c c) ->
  (forall a b c, R a b -> R b c -> R a c) ->
  (forall p h c, R c (withPositions (alter (f p) h (positions c)) c)) ->
  forall fuel p c, R c (walk f fuel p c).
Proof.
  intros Hrefl Htrans Hstep. induction fuel as [|fuel IH]; intros p c; cbn.
  - apply Hrefl.
  - destruct (nodes c !! p) as [n|]; [|apply Hrefl].
    assert (Hfold : forall l a,
              R a (fold_left (fun acc ch => walk f fuel ch acc) l a)).
    { induction l as [|ch l IHl]; intros a; cbn; [apply Hrefl|].
      eapply Htrans; [apply IH|apply IHl]. }
    destruct (n_position n) as [h|].
    + eapply Htrans; [apply Hstep|apply Hfold].
    + apply Hfold.
Qed.

Lemma walk_onlyTranspositions (f : ptr -> NodePosition -> NodePosition) :
  (forall p np, np_position (f p np) = np_position np) ->
  forall fuel p (c : Cache), onlyTranspositions c (walk f fuel p c).
Proof.
  intros Hf. apply walk_preserves.
  - apply onlyTranspositions_refl.
  - apply onlyTranspositions_trans.
  - intros p h c. repeat split; try reflexivity.
    intros h'. cbn. destruct (decide (h = h')) as [->|Hne].
    + rewrite lookup_alter_eq. destruct (positions c !! h'); cbn; [|reflexivity].
      now rewrite Hf.
    + now rewrite lookup_alter_ne.
Qed.

Lemma walk_add_grows (fuel : nat) (p : ptr) (c : Cache) :
  grows c (walk addTransposition fuel p c).
Proof.
  revert fuel p c. apply walk_preserves.
  - apply grows_refl.
  - apply grows_trans.
  - intros p h c h' q (np & Hnp & Hq). unfold recorded; cbn.
    destruct (decide (h = h')) as [->|Hne].
    + rewrite lookup_alter_eq, Hnp. cbn. eexists; split; [reflexivity|].
      cbn. set_solver.
    + rewrite lookup_alter_ne by exact Hne. eauto.
Qed.

Lemma walk_add_root (fuel : nat) (p : ptr) (c : Cache) (n : Node) (h : Z) :
  nodes c !! p = Some n -> n_position n = Some h ->
  is_Some (positions c !! h) ->
  recorded (walk addTransposition (S fuel) p c) h p.
Proof.
  intros Hn Hh [np Hnp].
  assert (Hfold : forall l (a : Cache),
    grows a (fold_left (fun acc ch => walk addTransposition fuel ch acc) l a)).
  { induction l as [|ch l IHl]; intros a; cbn; [apply grows_refl|].
    eapply grows_trans; [apply walk_add_grows|apply IHl]. }
  cbn. rewrite Hn, Hh. apply Hfold.
  exists (addTransposition p np). split.
  - cbn. rewrite lookup_alter_eq, Hnp. reflexivity.
  - cbn. set_solver.
Qed.

(** With enough fuel for the height of the subtree the walk is the full
    recursion: more fuel changes nothing. *)
Lemma walk_stable (f : ptr -> NodePosition -> NodePosition) (fuel : nat) :
  forall (p : ptr) (c : Cache) (more : nat),
    heightWithin (nodes c) fuel p = true -> (fuel <= more)%nat ->
    walk f more p c = walk f fuel p c.
Proof.
  induction fuel as [|fuel IH]; intros p c more Hh Hle.
  - cbn in Hh. destruct (nodes c !! p) as [n|] eqn:Hn; [discriminate|].
    destruct more; cbn; [reflexivity|]. now rewrite Hn.
  - destruct more as [|more]; [lia|]. cbn in Hh |- *.
    destruct (nodes c !! p) as [n|] eqn:Hn; [|reflexivity].
    assert (Hfold : forall l (a : Cache),
              nodes a = nodes c ->
              forallb (heightWithin (nodes c) fuel) l = true ->
              fold_left (fun acc ch => walk f more ch acc) l a
              = fold_left (fun acc ch => walk f fuel ch acc) l a).
    { induction l as [|ch l IHl]; intros a Ha Hl; [reflexivity|].
      cbn in Hl |- *. apply andb_true_iff in Hl as [H1 H2].
      rewrite (IH ch a more) by (rewrite ?Ha; first [exact H1 | lia]).
      apply IHl; [|exact H2].
      rewrite <- Ha.
      apply (walk_preserves (fun x y : Cache => nodes y = nodes x)); try reflexivity.
      intros x y z Hxy Hyz. congruence. }
    destruct (n_position n); apply Hfold; try reflexivity; exact Hh.
Qed.

Lemma unlinkNode_frame (p : ptr) (c : Cache) :
  nodes (unlinkNode p c) = nodes c
  /\ calls (unlinkNode p c) = calls c ++ [CallUnlinkNode p]
  /\ sameView c (unlinkNode p c).
Proof.
  unfold unlinkNode.
  pose proof (walk_onlyTranspositions dropTransposition
                ltac:(reflexivity) (S (used c)) p c) as H.
  remember (walk dropTransposition (S (used c)) p c) as w eqn:Ew. clear Ew.
  destruct H as (N & L & C1 & C2 & P).
  unfold logCall, sameView; cbn [nodes calls positions].
  split; [exact N|]. split; [now rewrite L|].
  split; [intros q; now rewrite N|exact P].
Qed.

Lemma updateTranspositions_frame (p : ptr) (c : Cache) :
  nodes (updateTranspositions p c) = nodes c
  /\ calls (updateTranspositions p c) = calls c
  /\ sameView c (updateTranspositions p c).
Proof.
  unfold updateTranspositions.
  pose proof (walk_onlyTranspositions addTransposition
                ltac:(reflexivity) (S (used c)) p c) as H.
  remember (walk addTransposition (S (used c)) p c) as w eqn:Ew. clear Ew.
  destruct H as (N & L & C1 & C2 & P).
  split; [exact N|]. split; [exact L|].
  split; [intros q; now rewrite N|exact P].
Qed.

Lemma setAsRootNode_frame (g : ptr) (c : Cache) :
  positions (setAsRootNode g c) = positions c
  /\ calls (setAsRootNode g c) = calls c
  /\ sameView c (setAsRootNode g c).
Proof.
  unfold setAsRootNode.
  destruct (nodes c !! g) as [n|] eqn:Hg;
    [|split; [reflexivity|split; [reflexivity|apply sameView_refl]]].
  split; [reflexivity|]. split; [reflexivity|].
  split; [|reflexivity]. intros p. cbn.
  rewrite lookup_alter. destruct (decide (g = p)) as [->|Hne].
  - destruct (n_parent n) as [q|].
    + rewrite lookup_alter. destruct (decide (q = p)) as [->|Hq].
      * destruct (nodes c !! p); reflexivity.
      * destruct (nodes c !! p); reflexivity.
    + destruct (nodes c !! p); reflexivity.
  - destruct (n_parent n) as [q|]; [|reflexivity].
    rewrite lookup_alter. destruct (decide (q = p)) as [->|Hq]; [|reflexivity].
    destruct (nodes c !! p); reflexivity.
Qed.

(** [setAsRootNode g] changes the children of no node other than the one
    named by the parent link of [g]. *)
Lemma setAsRootNode_children (g x : ptr) (c : Cache) :
  n_parent <$> nodes c !! g <> Some (Some x) ->
  n_children <$> nodes (setAsRootNode g c) !! x = n_children <$> nodes c !! x.
Proof.
  intros Hpar. unfold setAsRootNode.
  destruct (nodes c !! g) as [n|] eqn:Hg; [|reflexivity]. cbn. cbn in Hpar.
  assert (Hd : n_children <$>
                 (match n_parent n with
                  | Some p =>
                      alter (fun pn => mkNode (n_parent pn) (n_game pn)
                                         (n_position pn)
                                         (filter (fun y => y ≠ g) (n_children pn))
                                         (n_trueTerminal pn) (n_stats pn))
                        p (nodes c)
                  | None => nodes c
                  end) !! x = n_children <$> nodes c !! x).
  { destruct (n_parent n) as [q|]; [|reflexivity].
    rewrite lookup_alter_ne; [reflexivity|]. intros ->. apply Hpar. reflexivity. }
  rewrite lookup_alter. destruct (decide (g = x)) as [->|Hne]; [|exact Hd].
  rewrite <- Hd. match goal with |- _ <$> (_ <$> ?o) = _ => destruct o end;
    reflexivity.
Qed.

(** [setAsRootNode g] changes the parent link of no node other than [g]. *)
Lemma setAsRootNode_parent (g x : ptr) (c : Cache) :
  x <> g ->
  n_parent <$> nodes (setAsRootNode g c) !! x = n_parent <$> nodes c !! x.
Proof.
  intros Hne. unfold setAsRootNode.
  destruct (nodes c !! g) as [n|] eqn:Hg; [|reflexivity]. cbn.
  rewrite lookup_alter_ne by congruence.
  destruct (n_parent n) as [q|]; [|reflexivity].
  rewrite lookup_alter. destruct (decide (q = x)); [|reflexivity].
  subst. destruct (nodes c !! x); reflexivity.
Qed.

Lemma setAsRootNode_root (g : ptr) (c : Cache) :
  is_Some (nodes c !! g) ->
  n_parent <$> nodes (setAsRootNode g c) !! g = Some None.
Proof.
  intros [n Hg]. unfold setAsRootNode. rewrite Hg. cbn.
  rewrite lookup_alter_eq.
  match goal with |- _ <$> (_ <$> ?o) = _ => assert (Hs : is_Some o) end.
  { destruct (n_parent n) as [q|]; [|eauto].
    rewrite lookup_alter. destruct (decide (q = g)); [|eauto].
    subst. rewrite Hg. cbn. eauto. }
  destruct Hs as [m ->]. reflexivity.
Qed.

Lemma resumable_sameView (rootGame : Game) (g : ptr) (c c' : Cache) :
  sameView c c' -> resumable rootGame g c' = resumable rootGame g c.
Proof.
  intros [N P]. unfold Tree.resumable. specialize (N g).
  destruct (nodes c' !! g) as [n'|], (nodes c !! g) as [n|];
    cbn in N |- *; try discriminate; [|reflexivity].
  injection N as Hg Hp Ht Hs. rewrite Hp, Ht.
  destruct (n_position n) as [h|]; cbn; [|reflexivity].
  specialize (P h).
  destruct (positions c' !! h) as [np'|], (positions c !! h) as [np|];
    cbn in P |- *; try discriminate; [|reflexivity].
  injection P as ->. reflexivity.
Qed.

(** *** The loops of [clearRoot] *)

Lemma isHit_sameView (rootGame : Game) (g : ptr) (c c' : Cache) :
  sameView c c' -> isHit rootGame c' g = isHit rootGame c g.
Proof.
  intros H. unfold Tree.isHit. now rewrite (resumable_sameView rootGame g c c' H).
Qed.

Lemma firstHit_sameView (rootGame : Game) (l : list ptr) (c c' : Cache) :
  sameView c c' -> firstHit rootGame c' l = firstHit rootGame c l.
Proof.
  intros H. unfold Tree.firstHit. induction l as [|g l IH]; cbn; [reflexivity|].
  rewrite (isHit_sameView rootGame g c c' H), IH. reflexivity.
Qed.

Lemma firstHit_Some (rootGame : Game) (c : Cache) (l : list ptr) (g : ptr) :
  firstHit rootGame c l = Some g -> g ∈ l /\ resumable rootGame g c = Some true.
Proof.
  unfold Tree.firstHit. intros H. apply find_some in H as [Hin Hhit].
  split; [now apply list_elem_of_In|].
  unfold Tree.isHit in Hhit.
  destruct (resumable rootGame g c) as [[|]|]; congruence.
Qed.

Lemma firstHit_None (rootGame : Game) (c : Cache) (l : list ptr) :
  firstHit rootGame c l = None ->
  forall g, g ∈ l -> resumable rootGame g c <> Some true.
Proof.
  unfold Tree.firstHit. intros H g Hin Hg.
  apply list_elem_of_In in Hin.
  pose proof (find_none _ _ H g Hin) as Hf. unfold Tree.isHit in Hf.
  rewrite Hg in Hf. discriminate.
Qed.

(** The inner loop stops at the first matching grandchild and resumes
    there; without a match it changes nothing. *)
Lemma scanGrandChildren_spec (rootGame : Game) (gcs : list ptr) (s : Scan) :
  (forall g, g ∈ gcs -> is_Some (resumable rootGame g (s_cache s))) ->
  scanGrandChildren rootGame gcs s
  = Some (match firstHit rootGame (s_cache s) gcs with
          | Some g => resume g s
          | None => s
          end).
Proof.
  unfold Tree.firstHit. induction gcs as [|g gcs IH]; intros Hdef;
    [reflexivity|].
  cbn [Tree.scanGrandChildren find].
  destruct (Hdef g ltac:(left)) as [b Hb]. unfold Tree.isHit.
  rewrite Hb. cbn [mbind option_bind].
  destruct b; [reflexivity|].
  apply IH. intros g' Hg'. apply Hdef. now right.
Qed.

Lemma resumable_Some_inv (rootGame : Game) (g : ptr) (c : Cache) :
  is_Some (resumable rootGame g c) ->
  exists n h, nodes c !! g = Some n /\ n_position n = Some h
              /\ is_Some (positions c !! h).
Proof.
  intros [b Hb]. unfold Tree.resumable in Hb.
  destruct (nodes c !! g) as [n|] eqn:Hn; cbn in Hb; [|discriminate].
  destruct (n_position n) as [h|] eqn:Hh; cbn in Hb; [|discriminate].
  destruct (positions c !! h) as [np|] eqn:Hnp; cbn in Hb; [|discriminate].
  exists n, h. split; [reflexivity|]. split; [exact Hh|]. exists np. exact Hnp.
Qed.

(** One resumption: the cache after [resume g s]. *)
Lemma resume_spec (rootGame : Game) (g : ptr) (s : Scan) :
  is_Some (resumable rootGame g (s_cache s)) ->
  s_root (resume g s) = g
  /\ s_found (resume g s) = true
  /\ nodes (s_cache (resume g s)) = nodes (setAsRootNode g (s_cache s))
  /\ calls (s_cache (resume g s))
     = calls (s_cache s) ++ [CallUnlinkNode (s_root s)]
  /\ sameView (s_cache s) (s_cache (resume g s))
  /\ linkedRoot (s_cache (resume g s)) g.
Proof.
  intros Hdef. unfold resume; cbn [s_root s_found s_cache].
  set (c := s_cache s) in *.
  set (c1 := setAsRootNode g c).
  set (c2 := unlinkNode (s_root s) c1).
  destruct (setAsRootNode_frame g c) as (P1 & L1 & V1). fold c1 in P1, L1, V1.
  destruct (unlinkNode_frame (s_root s) c1) as (N2 & L2 & V2).
  fold c2 in N2, L2, V2.
  destruct (updateTranspositions_frame g c2) as (N3 & L3 & V3).
  split; [reflexivity|]. split; [reflexivity|].
  split; [now rewrite N3, N2|].
  split; [now rewrite L3, L2, L1|].
  split; [eapply sameView_trans; [|exact V3];
          eapply sameView_trans; [exact V1|exact V2]|].
  destruct (resumable_Some_inv rootGame g c Hdef) as (n & h & Hn & Hh & Hp).
  pose proof (setAsRootNode_root g c ltac:(eauto)) as Hroot. fold c1 in Hroot.
  destruct (nodes c1 !! g) as [n1|] eqn:Hn1; cbn in Hroot; [|discriminate].
  injection Hroot as Hpar.
  assert (Hh1 : n_position n1 = Some h).
  { destruct V1 as [V1 _]. specialize (V1 g). rewrite Hn1, Hn in V1.
    cbn in V1. injection V1 as _ Hpos _ _. congruence. }
  assert (Hp2 : is_Some (positions c2 !! h)).
  { destruct V1 as [_ Q1], V2 as [_ Q2]. specialize (Q1 h). specialize (Q2 h).
    destruct Hp as [np Hnp]. rewrite Hnp in Q1. cbn in Q1.
    rewrite Q1 in Q2. destruct (positions c2 !! h); [eauto|discriminate]. }
  exists n1, h. rewrite N3, N2. repeat split; try assumption.
  unfold updateTranspositions.
  apply (walk_add_root (used c2) g c2 n1 h); [now rewrite N2| |]; assumption.
Qed.

Lemma childrenOf_lookup (c : Cache) (p : ptr) (n : Node) :
  nodes c !! p = Some n -> childrenOf c p = n_children n.
Proof. intros H. unfold childrenOf. now rewrite H. Qed.

Lemma hits_ext (rootGame : Game) (c c' : Cache) (cs : list ptr) :
  sameView c c' ->
  (forall ch, ch ∈ cs -> childrenOf c' ch = childrenOf c ch) ->
  hits rootGame c' cs = hits rootGame c cs.
Proof.
  intros HV. unfold Tree.hits. induction cs as [|ch cs IH]; intros Hc;
    [reflexivity|].
  cbn [omap list_omap].
  rewrite (Hc ch ltac:(left)), (firstHit_sameView rootGame _ c c' HV).
  rewrite IH by (intros ch' H'; apply Hc; now right). reflexivity.
Qed.

(** After a resumption at a grandchild below [ch], the subtrees of the
    other children are as they were. *)
Lemma resume_shaped (rootGame : Game) (ch g : ptr) (rest : list ptr)
    (s : Scan) :
  shaped rootGame (s_cache s) (ch :: rest) ->
  g ∈ childrenOf (s_cache s) ch ->
  shaped rootGame (s_cache (resume g s)) rest
  /\ hits rootGame (s_cache (resume g s)) rest
     = hits rootGame (s_cache s) rest.
Proof.
  intros [Hnd Hsh] Hg.
  apply NoDup_cons in Hnd as [Hnotin Hnd].
  destruct (Hsh ch ltac:(left)) as (nch & Hnch & Hgc).
  rewrite (childrenOf_lookup _ _ _ Hnch) in Hg.
  destruct (Hgc g Hg) as [Hdef Hpar].
  destruct (resume_spec rootGame g s Hdef) as (_ & _ & N & _ & V & _).
  remember (s_cache (resume g s)) as c' eqn:Ec' in *. clear Ec'.
  set (c := s_cache s) in *.
  assert (Hch : forall ch', ch' ∈ rest ->
            n_children <$> nodes c' !! ch' = n_children <$> nodes c !! ch').
  { intros ch' Hin. rewrite N. apply setAsRootNode_children.
    rewrite Hpar. intros [= <-]. contradiction. }
  assert (Hco : forall ch', ch' ∈ rest -> childrenOf c' ch' = childrenOf c ch').
  { intros ch' Hin. specialize (Hch ch' Hin). unfold childrenOf.
    destruct (nodes c' !! ch'), (nodes c !! ch'); cbn in Hch; congruence. }
  split; [|apply hits_ext; assumption].
  split; [exact Hnd|].
  intros ch' Hin.
  destruct (Hsh ch' ltac:(now right)) as (n' & Hn' & Hgc').
  pose proof (Hch ch' Hin) as Hc'. rewrite Hn' in Hc'. cbn in Hc'.
  destruct (nodes c' !! ch') as [n1|] eqn:Hn1; cbn in Hc'; [|discriminate].
  injection Hc' as Hc'.
  exists n1. split; [exact Hn1|]. intros g' Hg'. rewrite Hc' in Hg'.
  destruct (Hgc' g' Hg') as [Hdef' Hpar'].
  split; [now rewrite (resumable_sameView rootGame g' c c' V)|].
  rewrite N, setAsRootNode_parent; [exact Hpar'|].
  intros ->. rewrite Hpar in Hpar'. injection Hpar' as <-. contradiction.
Qed.

Lemma removelast_cons2 {A} (a b : A) (l : list A) :
  removelast (a :: b :: l) = a :: removelast (b :: l).
Proof. reflexivity. Qed.

(** The outer loop: the root ends at the last selected grandchild, each
    resumption unlinked the root it replaced, and what the test of the
    inner loop reads is unchanged. *)
Lemma scanChildren_spec (rootGame : Game) (cs : list ptr) :
  forall s : Scan,
    shaped rootGame (s_cache s) cs ->
    exists s',
      scanChildren rootGame cs s = Some s'
      /\ s_root s' = default (s_root s) (last (hits rootGame (s_cache s) cs))
      /\ calls (s_cache s')
         = calls (s_cache s)
           ++ map CallUnlinkNode
                (removelast (s_root s :: hits rootGame (s_cache s) cs))
      /\ sameView (s_cache s) (s_cache s')
      /\ (hits rootGame (s_cache s) cs = [] -> s' = s)
      /\ (hits rootGame (s_cache s) cs <> [] ->
          s_found s' = true /\ linkedRoot (s_cache s') (s_root s')).
Proof.
  induction cs as [|ch rest IH]; intros s Hsh.
  - exists s. cbn. rewrite app_nil_r.
    repeat split; try reflexivity; try apply sameView_refl; congruence.
  - destruct Hsh as [Hnd Hch].
    destruct (Hch ch ltac:(left)) as (nch & Hnch & Hgc).
    cbn [Tree.scanChildren]. rewrite Hnch. cbn [mbind option_bind].
    rewrite scanGrandChildren_spec by (intros g Hg; apply (Hgc g Hg)).
    cbn [mbind option_bind].
    unfold Tree.hits at 1 2 3 4. cbn [omap list_omap].
    rewrite (childrenOf_lookup _ _ _ Hnch).
    fold (hits rootGame (s_cache s) rest).
    destruct (firstHit rootGame (s_cache s) (n_children nch)) as [g|] eqn:Hfh.
    + apply firstHit_Some in Hfh as [Hin Hres].
      destruct (resume_shaped rootGame ch g rest s (conj Hnd Hch)) as [Hsh' Hhits].
      { now rewrite (childrenOf_lookup _ _ _ Hnch). }
      destruct (resume_spec rootGame g s ltac:(rewrite Hres; eauto))
        as (Hr & Hf & _ & Hl & HV & Hlr).
      destruct (IH (resume g s) Hsh')
        as (s' & Hs' & Hroot & Hcalls & HV' & Hnil & Hcons).
      rewrite Hhits in Hroot, Hcalls, Hnil, Hcons.
      exists s'. split; [exact Hs'|].
      split.
      { rewrite Hroot, Hr, last_cons.
        destruct (last (hits rootGame (s_cache s) rest)); reflexivity. }
      split.
      { rewrite Hcalls, Hl, Hr, removelast_cons2. cbn [map].
        rewrite <- app_assoc. reflexivity. }
      split; [eapply sameView_trans; eassumption|].
      split; [discriminate|]. intros _.
      destruct (hits rootGame (s_cache s) rest) as [|g' hs] eqn:Hrest.
      * rewrite (Hnil eq_refl). split; [exact Hf|]. rewrite Hr. exact Hlr.
      * apply Hcons. discriminate.
    + apply (IH s). split; [now apply NoDup_cons in Hnd as [_ ?]|].
      intros ch' Hin. apply Hch. now right.
Qed.

(** *** From the decidable shape to the propositional one *)

Lemma childOK_shaped (rootGame : Game) (c : Cache) (ch : ptr) :
  childOK rootGame c ch = true -> childShaped rootGame c ch.
Proof.
  unfold Tree.childOK, Tree.childShaped.
  destruct (nodes c !! ch) as [n|]; [|discriminate].
  intros H. exists n. split; [reflexivity|]. intros g Hg.
  rewrite forallb_forall in H. apply list_elem_of_In in Hg.
  specialize (H g Hg).
  destruct (resumable rootGame g c) as [b|]; [|discriminate].
  destruct (nodes c !! g) as [ng|]; [|discriminate].
  apply bool_decide_eq_true in H. cbn. rewrite H. eauto.
Qed.

Lemma childrenOK_shaped (rootGame : Game) (c : Cache) (cs : list ptr) :
  childrenOK rootGame c cs = true -> shaped rootGame c cs.
Proof.
  unfold Tree.childrenOK. rewrite andb_true_iff.
  intros [Hnd Hall]. apply bool_decide_eq_true in Hnd.
  split; [exact Hnd|]. intros ch Hin. apply childOK_shaped.
  rewrite forallb_forall in Hall. apply Hall. now apply list_elem_of_In.
Qed.

(** *** The selected grandchildren and the matching grandchildren *)

Lemma hits_cons (rootGame : Game) (c : Cache) (ch : ptr) (cs : list ptr) :
  hits rootGame c (ch :: cs)
  = match firstHit rootGame c (childrenOf c ch) with
    | Some g => g :: hits rootGame c cs
    | None => hits rootGame c cs
    end.
Proof. reflexivity. Qed.

Lemma hits_elem (rootGame : Game) (c : Cache) (cs : list ptr) (g : ptr) :
  g ∈ hits rootGame c cs ->
  exists ch, ch ∈ cs /\ g ∈ childrenOf c ch
             /\ resumable rootGame g c = Some true.
Proof.
  induction cs as [|ch cs IH]; [intros H; inversion H|].
  rewrite hits_cons.
  destruct (firstHit rootGame c (childrenOf c ch)) as [g'|] eqn:Hfh.
  - intros Hin. apply elem_of_cons in Hin as [->|Hin].
    + apply firstHit_Some in Hfh as [H1 H2]. exists ch.
      split; [left|]. split; assumption.
    + destruct (IH Hin) as (ch' & H1 & H2). exists ch'. split; [now right|exact H2].
  - intros Hin. destruct (IH Hin) as (ch' & H1 & H2).
    exists ch'. split; [now right|exact H2].
Qed.

Lemma hits_nil (rootGame : Game) (c : Cache) (cs : list ptr) :
  hits rootGame c cs = [] ->
  forall ch g, ch ∈ cs -> g ∈ childrenOf c ch ->
               resumable rootGame g c <> Some true.
Proof.
  induction cs as [|ch cs IH]; [intros _ ch g H; inversion H|].
  rewrite hits_cons.
  destruct (firstHit rootGame c (childrenOf c ch)) as [g'|] eqn:Hfh;
    [discriminate|].
  intros Hnil ch' g Hin Hg. apply elem_of_cons in Hin as [->|Hin].
  - apply (firstHit_None rootGame c _ Hfh g Hg).
  - apply (IH Hnil ch' g Hin Hg).
Qed.

Lemma filter_find {A} (f : A -> bool) (l : list A) :
  (length (List.filter f l) <= 1)%nat ->
  List.filter f l = match find f l with Some x => [x] | None => [] end.
Proof.
  induction l as [|a l IH]; [reflexivity|]. cbn.
  destruct (f a); cbn; intros Hlen.
  - destruct (List.filter f l); [reflexivity|cbn in Hlen; lia].
  - apply IH, Hlen.
Qed.

Lemma allMatches_hits (rootGame : Game) (c : Cache) (r : ptr) :
  distinctSiblings rootGame c r = true ->
  allMatches rootGame c r = hits rootGame c (childrenOf c r).
Proof.
  unfold Tree.allMatches, Tree.distinctSiblings, grandChildrenOf.
  induction (childrenOf c r) as [|ch cs IH]; [reflexivity|].
  cbn [forallb flat_map]. rewrite andb_true_iff, Nat.leb_le.
  intros [H1 H2]. rewrite List.filter_app, IH by exact H2.
  rewrite hits_cons, (filter_find _ _ H1). unfold Tree.firstHit.
  destruct (find (isHit rootGame c) (childrenOf c ch)); reflexivity.
Qed.

Lemma single_match_distinct (rootGame : Game) (c : Cache) (r : ptr) :
  (length (allMatches rootGame c r) <= 1)%nat ->
  distinctSiblings rootGame c r = true.
Proof.
  unfold Tree.allMatches, Tree.distinctSiblings, grandChildrenOf.
  induction (childrenOf c r) as [|ch cs IH]; [reflexivity|].
  cbn [forallb flat_map]. rewrite List.filter_app, length_app.
  intros Hlen. rewrite andb_true_iff, Nat.leb_le.
  split; [lia|apply IH; lia].
Qed.

(** *** [clearRoot] with resumption enabled *)

Lemma resetNodes_keeps (c : Cache) (g : ptr) :
  linkedRoot c g ->
  exists n, nodes (resetNodes c) !! g = Some n /\ nodes c !! g = Some n.
Proof.
  intros (n & h & Hn & _ & Hh & np & Hnp & Hin).
  exists n. split; [|exact Hn]. unfold resetNodes, logCall; cbn [nodes].
  apply map_lookup_filter_Some. split; [exact Hn|].
  cbn. unfold linked. rewrite Hh, Hnp. now apply bool_decide_eq_true.
Qed.

Lemma resetNodes_sub (c : Cache) (p : ptr) (n : Node) :
  nodes (resetNodes c) !! p = Some n -> nodes c !! p = Some n.
Proof.
  unfold resetNodes, logCall; cbn [nodes]. intros H.
  apply map_lookup_filter_Some in H. apply H.
Qed.

Lemma sameView_survivor (c c' : Cache) (p : ptr) (n : Node) :
  sameView c c' -> nodes (resetNodes c') !! p = Some n ->
  exists n0, nodes c !! p = Some n0 /\ nodeView n = nodeView n0.
Proof.
  intros [HV _] H. apply resetNodes_sub in H. specialize (HV p).
  rewrite H in HV. destruct (nodes c !! p) as [n0|]; [|discriminate].
  exists n0. split; [reflexivity|].
  change (Some (nodeView n) = Some (nodeView n0)) in HV. congruence.
Qed.

Lemma clearRoot_resume_spec (rootGame : Game) (t : Tree) (c : Cache)
    (r : ptr) :
  m_root t = Some r ->
  m_resumePreviousPositionIfPossible t = true ->
  wellFormed rootGame c r = true ->
  exists c',
    clearRoot rootGame t c
    = Some (mkTree (last (hits rootGame c (childrenOf c r))) true, c')
    /\ calls c'
       = calls c
         ++ map CallUnlinkNode
              (r :: removelast (hits rootGame c (childrenOf c r)))
         ++ [CallResetNodes]
    /\ (forall g, last (hits rootGame c (childrenOf c r)) = Some g ->
          exists n n0, nodes c' !! g = Some n /\ nodes c !! g = Some n0
                       /\ nodeView n = nodeView n0 /\ n_parent n = None)
    /\ (forall p n, nodes c' !! p = Some n ->
          exists n0, nodes c !! p = Some n0 /\ nodeView n = nodeView n0).
Proof.
  intros Hroot Hflag Hwf. unfold Tree.wellFormed in Hwf.
  destruct (nodes c !! r) as [nr|] eqn:Hnr; [|discriminate].
  apply childrenOK_shaped in Hwf.
  rewrite (childrenOf_lookup _ _ _ Hnr).
  destruct (scanChildren_spec rootGame (n_children nr) (mkScan r c false) Hwf)
    as (s' & Hs' & Hr & Hcalls & HV & Hnil & Hcons).
  cbn [s_cache s_root] in *.
  unfold Tree.clearRoot. rewrite Hroot, Hflag. cbn [negb].
  rewrite Hnr. cbn [mbind option_bind]. rewrite Hs'. cbn [mbind option_bind].
  destruct (hits rootGame c (n_children nr)) as [|g0 hs] eqn:Hhits.
  - rewrite (Hnil eq_refl). cbn [s_found s_root s_cache].
    destruct (unlinkNode_frame r c) as (_ & L & V).
    eexists. split; [reflexivity|]. split; [|split; [discriminate|]].
    + unfold resetNodes, logCall; cbn [calls]. rewrite L.
      rewrite <- app_assoc. reflexivity.
    + intros p n. apply sameView_survivor. exact V.
  - destruct (Hcons ltac:(discriminate)) as [Hf Hlr].
    rewrite Hf. cbn [mbind option_bind].
    assert (Hlast : last (g0 :: hs) = Some (s_root s')).
    { rewrite Hr. destruct (last (g0 :: hs)) eqn:E; [reflexivity|].
      apply last_None in E. discriminate. }
    rewrite Hlast.
    eexists. split; [reflexivity|]. split; [|split].
    + unfold resetNodes, logCall; cbn [calls]. rewrite Hcalls.
      rewrite removelast_cons2. cbn [map]. rewrite <- !app_assoc. reflexivity.
    + intros g [= <-].
      destruct (resetNodes_keeps _ _ Hlr) as (n & Hn1 & Hn2).
      destruct Hlr as (n' & h & Hn' & Hpar & _).
      assert (n' = n) by congruence. subst n'.
      destruct (sameView_survivor c (s_cache s') (s_root s') n HV Hn1)
        as (n0 & Hn0 & Hv).
      exists n, n0. repeat split; assumption.
    + intros p n. apply sameView_survivor. exact HV.
Qed.

(** *** What the walks of [unlinkNode] and [updateTranspositions] reach *)

Lemma elem_of_flat_map {A B} (f : A -> list B) (l : list A) (x : B) :
  x ∈ flat_map f l <-> exists y, y ∈ l /\ x ∈ f y.
Proof.
  rewrite list_elem_of_In, in_flat_map.
  split; intros (y & H1 & H2); exists y.
  - split; apply list_elem_of_In; assumption.
  - split; apply list_elem_of_In; assumption.
Qed.

Lemma subtree_cons (ns : gmap ptr Node) (fuel : nat) (p q : ptr) :
  q ∈ subtree ns (S fuel) p
  <-> exists n, ns !! p = Some n
        /\ (q = p \/ exists ch, ch ∈ n_children n /\ q ∈ subtree ns fuel ch).
Proof.
  cbn [subtree]. destruct (ns !! p) as [n|].
  - rewrite elem_of_cons, elem_of_flat_map. split.
    + intros H. exists n. split; [reflexivity|exact H].
    + intros (n' & [= <-] & H). exact H.
  - split; [intros H; inversion H|intros (n & H & _); discriminate].
Qed.

Lemma subtree_fuel_mono (ns : gmap ptr Node) (fuel : nat) :
  forall p q, q ∈ subtree ns fuel p -> q ∈ subtree ns (S fuel) p.
Proof.
  induction fuel as [|fuel IH]; intros p q H; [inversion H|].
  apply subtree_cons in H as (n & Hn & H).
  apply subtree_cons. exists n. split; [exact Hn|].
  destruct H as [->|(ch & Hch & H)]; [now left|].
  right. exists ch. split; [exact Hch|]. apply IH, H.
Qed.

Lemma subtree_narrows (ns ns' : gmap ptr Node) :
  (forall p n', ns' !! p = Some n' ->
     exists n, ns !! p = Some n /\ n_children n' ⊆ n_children n) ->
  forall fuel p q, q ∈ subtree ns' fuel p -> q ∈ subtree ns fuel p.
Proof.
  intros Hs. induction fuel as [|fuel IH]; intros p q H; [inversion H|].
  apply subtree_cons in H as (n' & Hn' & H).
  destruct (Hs p n' Hn') as (n & Hn & Hsub).
  apply subtree_cons. exists n. split; [exact Hn|].
  destruct H as [->|(ch & Hch & H)]; [now left|].
  right. exists ch. split; [apply Hsub, Hch|apply IH, H].
Qed.

(** Taking [g] out of children vectors loses nothing but what is below
    [g]. *)
Lemma subtree_detach (ns ns1 : gmap ptr Node) (g : ptr) :
  (forall p n, ns !! p = Some n ->
     exists n1, ns1 !! p = Some n1
       /\ forall x, x ∈ n_children n -> x <> g -> x ∈ n_children n1) ->
  forall fuel p q, q ∈ subtree ns fuel p ->
    q ∈ subtree ns1 fuel p \/ q ∈ subtree ns1 fuel g.
Proof.
  intros Hd. induction fuel as [|fuel IH]; intros p q H; [inversion H|].
  apply subtree_cons in H as (n & Hn & H).
  destruct (Hd p n Hn) as (n1 & Hn1 & Hch).
  destruct H as [->|(ch & Hin & H)].
  - left. apply subtree_cons. exists n1. split; [exact Hn1|now left].
  - destruct (IH ch q H) as [H1|H1].
    + destruct (decide (ch = g)) as [->|Hne].
      * right. apply subtree_fuel_mono, H1.
      * left. apply subtree_cons. exists n1. split; [exact Hn1|].
        right. exists ch. split; [apply Hch; assumption|exact H1].
    + right. apply subtree_fuel_mono, H1.
Qed.

Lemma narrows_refl (c : Cache) : narrows c c.
Proof.
  split; [reflexivity|]. intros p.
  destruct (nodes c !! p); [split; reflexivity|exact I].
Qed.

Lemma narrows_trans (a b c : Cache) :
  narrows a b -> narrows b c -> narrows a c.
Proof.
  intros [U1 N1] [U2 N2]. split; [congruence|]. intros p.
  specialize (N1 p). specialize (N2 p).
  destruct (nodes a !! p), (nodes b !! p), (nodes c !! p); try tauto.
  destruct N1 as [P1 C1], N2 as [P2 C2].
  split; [congruence|]. intros x Hx. apply C1, C2, Hx.
Qed.

Lemma narrows_lookup (c c' : Cache) (p : ptr) (n : Node) :
  narrows c c' -> nodes c !! p = Some n ->
  exists n', nodes c' !! p = Some n' /\ n_position n' = n_position n.
Proof.
  intros [_ N] Hn. specialize (N p). rewrite Hn in N.
  destruct (nodes c' !! p) as [n'|]; [|destruct N].
  exists n'. split; [reflexivity|apply N].
Qed.

Lemma narrows_lookup_inv (c c' : Cache) (p : ptr) (n' : Node) :
  narrows c c' -> nodes c' !! p = Some n' ->
  exists n, nodes c !! p = Some n /\ n_position n' = n_position n
            /\ n_children n' ⊆ n_children n.
Proof.
  intros [_ N] Hn. specialize (N p). rewrite Hn in N.
  destruct (nodes c !! p) as [n|]; [|destruct N].
  exists n. split; [reflexivity|exact N].
Qed.

Lemma treeOf_narrows (c c' : Cache) (p q : ptr) :
  narrows c c' -> q ∈ treeOf c' p -> q ∈ treeOf c p.
Proof.
  intros Hn. unfold treeOf. rewrite (proj1 Hn).
  apply subtree_narrows. intros x n' Hx.
  destruct (narrows_lookup_inv c c' x n' Hn Hx) as (n & H1 & _ & H2).
  exists n. split; assumption.
Qed.

Lemma walk_nodes (f : ptr -> NodePosition -> NodePosition) (fuel : nat)
    (p : ptr) (c : Cache) :
  nodes (walk f fuel p c) = nodes c.
Proof.
  revert fuel p c.
  apply (walk_preserves (fun x y : Cache => nodes y = nodes x)).
  - reflexivity.
  - intros a b c H1 H2. congruence.
  - reflexivity.
Qed.

(** [unlinkNode] only takes nodes out of transposition sets. *)
Lemma walk_drop_shrinks (fuel : nat) (p : ptr) (c : Cache) :
  grows (walk dropTransposition fuel p c) c.
Proof.
  revert fuel p c. apply (walk_preserves (fun x y : Cache => grows y x)).
  - apply grows_refl.
  - intros a b c H1 H2. eapply grows_trans; eassumption.
  - intros p h c h' q (np & Hnp & Hq). cbn in Hnp.
    destruct (decide (h = h')) as [->|Hne].
    + rewrite lookup_alter_eq in Hnp.
      destruct (positions c !! h') as [np0|] eqn:E; [|discriminate].
      cbn in Hnp. injection Hnp as <-. exists np0. split; [exact E|].
      cbn in Hq. apply elem_of_difference in Hq as [Hq _]. exact Hq.
    + rewrite lookup_alter_ne in Hnp by exact Hne. exists np. split; assumption.
Qed.

(** [unlinkNode] takes every node of the subtree out of the transposition
    set of its NodePosition. *)
Lemma walk_drop_subtree (fuel : nat) :
  forall (p : ptr) (c : Cache) (q : ptr) (n : Node) (h : Z),
    q ∈ subtree (nodes c) fuel p ->
    nodes c !! q = Some n -> n_position n = Some h ->
    ~ recorded (walk dropTransposition fuel p c) h q.
Proof.
  induction fuel as [|fuel IH]; intros p c q n h Hq Hn Hh; [inversion Hq|].
  apply subtree_cons in Hq as (np & Hnp & Hq).
  cbn [walk]. rewrite Hnp.
  match goal with |- context [fold_left _ _ ?a] => set (c1 := a) end.
  assert (Hc1 : nodes c1 = nodes c)
    by (unfold c1; destruct (n_position np); reflexivity).
  assert (Hfold : forall l (a : Cache), nodes a = nodes c ->
     grows (fold_left (fun acc ch => walk dropTransposition fuel ch acc) l a) a
     /\ ((exists ch, ch ∈ l /\ q ∈ subtree (nodes c) fuel ch) ->
         ~ recorded
             (fold_left (fun acc ch => walk dropTransposition fuel ch acc) l a)
             h q)).
  { induction l as [|ch l IHl]; intros a Ha.
    - split; [apply grows_refl|]. intros (ch & Hch & _). inversion Hch.
    - cbn [fold_left].
      destruct (IHl (walk dropTransposition fuel ch a)) as [G1 G2];
        [rewrite walk_nodes; exact Ha|].
      split.
      + eapply grows_trans; [exact G1|apply walk_drop_shrinks].
      + intros (ch' & Hch' & Hq'). apply elem_of_cons in Hch' as [->|Hch'].
        * intros Hrec. apply G1 in Hrec. revert Hrec.
          apply (IH ch a q n h); [rewrite Ha; exact Hq'|rewrite Ha; exact Hn|exact Hh].
        * apply G2. exists ch'. split; assumption. }
  destruct (Hfold (n_children np) c1 Hc1) as [G1 G2].
  destruct Hq as [->|Hq]; [|apply G2, Hq].
  intros Hrec. apply G1 in Hrec. assert (np = n) by congruence. subst np.
  unfold c1 in Hrec. rewrite Hh in Hrec. destruct Hrec as (e & He & Hin).
  cbn in He. rewrite lookup_alter_eq in He.
  destruct (positions c !! h) as [e0|]; [|discriminate].
  cbn in He. injection He as <-. cbn in Hin.
  apply elem_of_difference in Hin as [_ Hin]. apply Hin, elem_of_singleton.
  reflexivity.
Qed.

(** [updateTranspositions] records nothing but nodes of the subtree. *)
Lemma walk_add_only (fuel : nat) :
  forall (p : ptr) (c : Cache) (h : Z) (x : ptr),
    recorded (walk addTransposition fuel p c) h x ->
    recorded c h x \/ x ∈ subtree (nodes c) fuel p.
Proof.
  induction fuel as [|fuel IH]; intros p c h x Hrec; [left; exact Hrec|].
  cbn [walk] in Hrec.
  destruct (nodes c !! p) as [np|] eqn:Hnp; [|left; exact Hrec].
  match type of Hrec with context [fold_left _ _ ?a] => set (c1 := a) in * end.
  assert (Hc1 : nodes c1 = nodes c)
    by (unfold c1; destruct (n_position np); reflexivity).
  assert (Hfold : forall l (a : Cache), nodes a = nodes c ->
     recorded (fold_left (fun acc ch => walk addTransposition fuel ch acc) l a)
       h x ->
     recorded a h x \/ exists ch, ch ∈ l /\ x ∈ subtree (nodes c) fuel ch).
  { induction l as [|ch l IHl]; intros a Ha H; [left; exact H|].
    cbn [fold_left] in H. apply IHl in H; [|rewrite walk_nodes; exact Ha].
    destruct H as [H|(ch' & H1 & H2)].
    - apply IH in H as [H|H]; [left; exact H|].
      right. exists ch. split; [left|]. rewrite <- Ha. exact H.
    - right. exists ch'. split; [now right|exact H2]. }
  apply Hfold in Hrec; [|exact Hc1].
  destruct Hrec as [Hrec|Hsub].
  - assert (Hx : recorded c h x \/ x = p).
    { unfold c1 in Hrec. destruct (n_position np) as [h'|]; [|left; exact Hrec].
      destruct Hrec as (e & He & Hin). cbn in He.
      destruct (decide (h' = h)) as [->|Hne].
      + rewrite lookup_alter_eq in He.
        destruct (positions c !! h) as [e0|] eqn:E; [|discriminate].
        cbn in He. injection He as <-. cbn in Hin.
        apply elem_of_union in Hin as [Hin|Hin];
          [right; apply elem_of_singleton in Hin; exact Hin|].
        left. exists e0. split; [exact E|exact Hin].
      + rewrite lookup_alter_ne in He by exact Hne.
        left. exists e. split; assumption. }
    destruct Hx as [Hx| ->]; [left; exact Hx|].
    right. apply subtree_cons. exists np. split; [exact Hnp|now left].
  - right. apply subtree_cons. exists np. split; [exact Hnp|right; exact Hsub].
Qed.

Lemma used_alter (f : Node -> Node) (p : ptr) (ns : gmap ptr Node) :
  size (alter f p ns) = size ns.
Proof. rewrite <- !size_dom, dom_alter_L. reflexivity. Qed.

(** [setAsRootNode g] keeps every slot and every binding to a
    NodePosition; a children vector is as it was, or has lost [g]. *)
Lemma setAsRootNode_lookup (g p : ptr) (c : Cache) :
  match nodes c !! p, nodes (setAsRootNode g c) !! p with
  | Some n, Some n' =>
      n_position n' = n_position n
      /\ (n_children n' = n_children n
          \/ n_children n' = filter (fun x => x ≠ g) (n_children n))
  | None, None => True
  | _, _ => False
  end.
Proof.
  unfold setAsRootNode.
  destruct (nodes c !! g) as [n|] eqn:Hg.
  2:{ destruct (nodes c !! p); [split; [reflexivity|left; reflexivity]|exact I]. }
  cbn [nodes withNodes].
  destruct (decide (g = p)) as [<-|Hgp].
  - rewrite lookup_alter_eq. destruct (n_parent n) as [q|].
    + destruct (decide (q = g)) as [->|Hq].
      * rewrite lookup_alter_eq, Hg. cbn. auto.
      * rewrite lookup_alter_ne by exact Hq. rewrite Hg. cbn. auto.
    + rewrite Hg. cbn. auto.
  - rewrite lookup_alter_ne by exact Hgp. destruct (n_parent n) as [q|].
    + destruct (decide (q = p)) as [->|Hq].
      * rewrite lookup_alter_eq. destruct (nodes c !! p); cbn; auto.
      * rewrite lookup_alter_ne by exact Hq. destruct (nodes c !! p); cbn; auto.
    + destruct (nodes c !! p); cbn; auto.
Qed.

Lemma setAsRootNode_used (g : ptr) (c : Cache) :
  used (setAsRootNode g c) = used c.
Proof.
  unfold setAsRootNode, used. destruct (nodes c !! g) as [n|]; [|reflexivity].
  cbn [nodes withNodes]. rewrite used_alter.
  destruct (n_parent n); [apply used_alter|reflexivity].
Qed.

Lemma setAsRootNode_narrows (g : ptr) (c : Cache) :
  narrows c (setAsRootNode g c).
Proof.
  split; [apply setAsRootNode_used|]. intros p.
  pose proof (setAsRootNode_lookup g p c) as H.
  destruct (nodes c !! p) as [n|], (nodes (setAsRootNode g c) !! p) as [n'|];
    try exact H.
  destruct H as [Hp [Hc|Hc]]; (split; [exact Hp|]); rewrite Hc;
    [reflexivity|apply list_subseteq_filter].
Qed.

Lemma resume_nodes (g : ptr) (s : Scan) :
  nodes (s_cache (resume g s)) = nodes (setAsRootNode g (s_cache s)).
Proof.
  unfold resume; cbn [s_cache].
  destruct (unlinkNode_frame (s_root s) (setAsRootNode g (s_cache s)))
    as (N2 & _).
  destruct (updateTranspositions_frame g
              (unlinkNode (s_root s) (setAsRootNode g (s_cache s))))
    as (N3 & _).
  now rewrite N3, N2.
Qed.

Lemma resume_narrows (g : ptr) (s : Scan) :
  narrows (s_cache s) (s_cache (resume g s)).
Proof.
  destruct (setAsRootNode_narrows g (s_cache s)) as [U N].
  split; [unfold used in *; now rewrite resume_nodes|].
  intros p. rewrite resume_nodes. apply N.
Qed.

(** One resumption keeps the bookkeeping: what is still recorded of the
    old tree lies below the new root. *)
Lemma resume_recordedBelowRoot (c : Cache) (r g : ptr) (s : Scan) :
  narrows c (s_cache s) ->
  recordedBelowRoot c r s -> recordedBelowRoot c r (resume g s).
Proof.
  intros Hnar J q n h HT Hn Hh Hrec.
  unfold treeOf, used. rewrite resume_nodes.
  fold (used (setAsRootNode g (s_cache s))).
  unfold resume in Hrec |- *; cbn [s_cache s_root] in Hrec |- *.
  set (cs := s_cache s) in *. set (c1 := setAsRootNode g cs) in *.
  destruct (narrows_lookup c cs q n Hnar Hn) as (ns & Hns & Hps).
  destruct (narrows_lookup cs c1 q ns (setAsRootNode_narrows g cs) Hns)
    as (n1 & Hn1 & Hp1).
  unfold updateTranspositions in Hrec.
  apply walk_add_only in Hrec as [Hrec|Hsub].
  - assert (Hw : recorded (walk dropTransposition (S (used c1)) (s_root s) c1)
                   h q) by exact Hrec.
    pose proof (walk_drop_shrinks _ _ _ _ _ Hw) as Hc1.
    assert (Hcs : recorded cs h q).
    { destruct (setAsRootNode_frame g cs) as (P1 & _). fold c1 in P1.
      unfold recorded in Hc1 |- *. rewrite P1 in Hc1. exact Hc1. }
    specialize (J q n h HT Hn Hh Hcs). unfold treeOf in J.
    change (s_cache s) with cs in J.
    assert (Hu1 : used c1 = used cs) by apply setAsRootNode_used.
    rewrite <- Hu1 in J.
    apply (subtree_detach (nodes cs) (nodes c1) g) in J.
    + destruct J as [J|J]; [|exact J].
      exfalso. revert Hw.
      apply (walk_drop_subtree _ _ _ _ n1 h J Hn1). congruence.
    + intros p np Hp.
      pose proof (setAsRootNode_lookup g p cs) as L. rewrite Hp in L.
      fold c1 in L. destruct (nodes c1 !! p) as [np1|]; [|destruct L].
      exists np1. split; [reflexivity|]. intros x Hx Hne.
      destruct L as [_ [->| ->]]; [exact Hx|].
      apply list_elem_of_filter. split; assumption.
  - assert (Hu : used (unlinkNode (s_root s) c1) = used c1).
    { unfold used. now rewrite (proj1 (unlinkNode_frame (s_root s) c1)). }
    rewrite Hu in Hsub.
    rewrite (proj1 (unlinkNode_frame (s_root s) c1)) in Hsub. exact Hsub.
Qed.

(** What a resumption keeps, the loops keep. *)
Lemma scanGrandChildren_cases (rootGame : Game) (gcs : list ptr)
    (s s' : Scan) :
  scanGrandChildren rootGame gcs s = Some s' ->
  s' = s \/ exists g, s' = resume g s.
Proof.
  induction gcs as [|g gcs IH]; cbn [Tree.scanGrandChildren].
  - intros [= <-]. now left.
  - destruct (resumable rootGame g (s_cache s)) as [[|]|];
      cbn [mbind option_bind]; [|exact IH|discriminate].
    intros [= <-]. right. now exists g.
Qed.

Lemma scanChildren_invariant (P : Scan -> Prop) (rootGame : Game) :
  (forall g s, P s -> P (resume g s)) ->
  forall cs s s', P s -> scanChildren rootGame cs s = Some s' -> P s'.
Proof.
  intros Hstep. induction cs as [|ch cs IH]; intros s s' Hs;
    cbn [Tree.scanChildren].
  - intros [= <-]. exact Hs.
  - destruct (nodes (s_cache s) !! ch) as [n|]; cbn [mbind option_bind];
      [|discriminate].
    destruct (scanGrandChildren rootGame (n_children n) s) as [s1|] eqn:E;
      cbn [mbind option_bind]; [|discriminate].
    apply IH.
    apply scanGrandChildren_cases in E as [->|[g ->]];
      [exact Hs|apply Hstep, Hs].
Qed.

(** After the reset a node that is no longer recorded at its NodePosition
    is gone from the arena. *)
Lemma resetNodes_collects (c pre : Cache) (q : ptr) :
  narrows c pre ->
  (forall n h, nodes c !! q = Some n -> n_position n = Some h ->
               ~ recorded pre h q) ->
  nodes (resetNodes pre) !! q = None
  /\ forall n h, nodes c !! q = Some n -> n_position n = Some h ->
                 ~ recorded (resetNodes pre) h q.
Proof.
  intros Hnar K. split.
  - destruct (nodes (resetNodes pre) !! q) as [n'|] eqn:E; [|reflexivity].
    exfalso. unfold resetNodes, logCall in E; cbn [nodes] in E.
    apply map_lookup_filter_Some in E as [E L]. cbn in L.
    destruct (narrows_lookup_inv c pre q n' Hnar E) as (n & Hn & Hp & _).
    unfold linked in L.
    destruct (n_position n') as [h|] eqn:Hh; [|discriminate].
    destruct (positions pre !! h) as [np|] eqn:Hnp; [|discriminate].
    apply bool_decide_eq_true in L.
    apply (K n h Hn ltac:(congruence)). exists np. split; assumption.
  - intros n h Hn Hh (np & Hnp & Hin). apply (K n h Hn Hh).
    unfold resetNodes, logCall in Hnp; cbn [positions] in Hnp.
    apply map_lookup_filter_Some in Hnp as [Hnp _]. exists np. split; assumption.
Qed.

(** [clearRoot] with resume enabled collects the old tree: of the nodes
    below the old root only those below the new root stay in the arena and
    in the transposition sets of their NodePositions. *)
Lemma clearRoot_resume_collects (rootGame : Game) (t t' : Tree)
    (c c' : Cache) (r : ptr) :
  m_root t = Some r ->
  m_resumePreviousPositionIfPossible t = true ->
  clearRoot rootGame t c = Some (t', c') ->
  forall q, q ∈ treeOf c r ->
    (forall g, m_root t' = Some g -> q ∉ treeOf c g) ->
    nodes c' !! q = None
    /\ forall n h, nodes c !! q = Some n -> n_position n = Some h ->
                   ~ recorded c' h q.
Proof.
  intros Hroot Hflag Hrun q HT Hout.
  unfold Tree.clearRoot in Hrun. rewrite Hroot, Hflag in Hrun.
  cbn [negb] in Hrun.
  destruct (nodes c !! r) as [nr|]; cbn [mbind option_bind] in Hrun;
    [|discriminate].
  destruct (scanChildren rootGame (n_children nr) (mkScan r c false))
    as [s'|] eqn:Hs'; cbn [mbind option_bind] in Hrun; [|discriminate].
  assert (Hinv : narrows c (s_cache s') /\ recordedBelowRoot c r s').
  { apply (scanChildren_invariant
             (fun s => narrows c (s_cache s) /\ recordedBelowRoot c r s)
             rootGame) with (cs := n_children nr) (s := mkScan r c false).
    - intros g s [H1 H2]. split.
      + eapply narrows_trans; [exact H1|apply resume_narrows].
      + apply resume_recordedBelowRoot; assumption.
    - split; [apply narrows_refl|]. intros x n h Hx _ _ _. exact Hx.
    - exact Hs'. }
  destruct Hinv as [Hnar J].
  destruct (s_found s') eqn:Hf; cbn [mbind option_bind] in Hrun;
    injection Hrun as <- <-; cbn [m_root] in Hout.
  - apply resetNodes_collects; [exact Hnar|].
    intros n h Hn Hh Hrec. apply (Hout (s_root s') eq_refl).
    apply (treeOf_narrows c (s_cache s')); [exact Hnar|].
    apply (J q n h HT Hn Hh Hrec).
  - destruct (unlinkNode_frame (s_root s') (s_cache s')) as (N & _ & _).
    apply resetNodes_collects.
    + eapply narrows_trans; [exact Hnar|]. split.
      * unfold used. now rewrite N.
      * intros p. rewrite N.
        destruct (nodes (s_cache s') !! p); [split; reflexivity|exact I].
    + intros n h Hn Hh Hrec.
      assert (Hw : recorded (walk dropTransposition (S (used (s_cache s')))
                               (s_root s') (s_cache s')) h q) by exact Hrec.
      pose proof (walk_drop_shrinks _ _ _ _ _ Hw) as Hpre.
      specialize (J q n h HT Hn Hh Hpre).
      destruct (narrows_lookup c (s_cache s') q n Hnar Hn) as (n1 & Hn1 & Hp1).
      revert Hw. apply (walk_drop_subtree _ _ _ _ n1 h J Hn1). congruence.
Qed.

(** A grandchild of the root is a node of the tree. *)
Lemma two_slots (c : Cache) (a b : ptr) :
  is_Some (nodes c !! a) -> is_Some (nodes c !! b) -> a <> b ->
  (2 <= used c)%nat.
Proof.
  intros [x Ha] [y Hb] Hne. unfold used.
  rewrite <- (insert_delete_id (nodes c) a x Ha).
  rewrite map_size_insert_None by apply lookup_delete_eq.
  assert (size (delete a (nodes c)) <> 0%nat); [|lia].
  apply (map_size_ne_0_lookup_2 _ b).
  rewrite lookup_delete_ne by exact Hne. eauto.
Qed.

Lemma grandchild_in_tree (c : Cache) (r ch g : ptr) :
  ch ∈ childrenOf c r -> g ∈ childrenOf c ch -> is_Some (nodes c !! g) ->
  g ∈ treeOf c r.
Proof.
  unfold childrenOf. intros Hch Hg Hng.
  destruct (nodes c !! r) as [nr|] eqn:Hr; [|inversion Hch].
  destruct (nodes c !! ch) as [nch|] eqn:Hc; [|inversion Hg].
  unfold treeOf.
  destruct (decide (r = ch /\ ch = g)) as [[-> ->]|Hne].
  - apply subtree_cons. exists nr. split; [exact Hr|now left].
  - assert (H2 : (2 <= used c)%nat).
    { destruct (decide (r = ch)) as [->|Hrc].
      - apply (two_slots c ch g); [eauto|exact Hng|]. intros ->. now apply Hne.
      - apply (two_slots c r ch); eauto. }
    destruct (used c) as [|[|k]]; [lia|lia|].
    apply subtree_cons. exists nr. split; [exact Hr|]. right.
    exists ch. split; [exact Hch|].
    apply subtree_cons. exists nch. split; [exact Hc|]. right.
    exists g. split; [exact Hg|].
    destruct Hng as [ng Hng].
    apply subtree_cons. exists ng. split; [exact Hng|now left].
Qed.

(** *** The grandchild the loops end at *)

Lemma firstHit_split (rootGame : Game) (c : Cache) (l : list ptr) (g : ptr) :
  firstHit rootGame c l = Some g ->
  exists before after,
    l = before ++ g :: after
    /\ resumable rootGame g c = Some true
    /\ forall g', g' ∈ before -> resumable rootGame g' c <> Some true.
Proof.
  unfold Tree.firstHit. induction l as [|a l IH]; [discriminate|].
  cbn [find]. destruct (isHit rootGame c a) eqn:Ha.
  - intros [= <-]. exists [], l. split; [reflexivity|]. split.
    + unfold Tree.isHit in Ha.
      destruct (resumable rootGame a c) as [[|]|]; congruence.
    + intros g' H. inversion H.
  - intros H. destruct (IH H) as (before & after & -> & Hg & Hb).
    exists (a :: before), after. split; [reflexivity|]. split; [exact Hg|].
    intros g' Hin. apply elem_of_cons in Hin as [->|Hin]; [|apply Hb, Hin].
    unfold Tree.isHit in Ha. intros E. rewrite E in Ha. discriminate.
Qed.

Lemma last_hits_split (rootGame : Game) (c : Cache) (cs : list ptr) (g : ptr) :
  last (hits rootGame c cs) = Some g ->
  exists pre ch post,
    cs = pre ++ ch :: post
    /\ firstHit rootGame c (childrenOf c ch) = Some g
    /\ hits rootGame c post = [].
Proof.
  induction cs as [|ch cs IH]; [discriminate|].
  rewrite hits_cons.
  destruct (hits rootGame c cs) as [|g1 hs] eqn:Hrest.
  - destruct (firstHit rootGame c (childrenOf c ch)) as [g0|] eqn:Hfh;
      [|discriminate].
    intros [= <-]. exists [], ch, cs. repeat split; assumption.
  - intros Hlast.
    assert (Hl : last (g1 :: hs) = Some g).
    { destruct (firstHit rootGame c (childrenOf c ch)); [|exact Hlast].
      rewrite last_cons in Hlast. destruct (last (g1 :: hs)) eqn:E; [exact Hlast|].
      apply last_None in E. discriminate. }
    destruct (IH Hl) as (pre & ch' & post & -> & H1 & H2).
    exists (ch :: pre), ch', post. repeat split; assumption.
Qed.

(** *** The specified properties of the tree *)



(** C8.  [embodiedRoot()] returns the existing root and leaves tree and
    cache as they are when a root exists.  Otherwise, when the arena has a
    free slot (and the position map has room for an entry that is not
    cached yet), it takes a fresh node from the arena, binds it to the
    NodePosition of the hash of the current game position, the cached
    entry if there is one and a new entry otherwise, initialises the node
    and the entry, makes the node the root and returns it.  What it returns
    is always the (non-null) root. *)
Theorem C8_embodiedRoot (rootGame : Game) (t : Tree) (c : Cache) :
  let h := positionHash (position rootGame) in
  (forall r, m_root t = Some r -> embodiedRoot rootGame t c = Some (r, t, c))
  /\ (m_root t = None -> (used c < capacity c)%nat ->
      containsNodePosition h c = true
      \/ (size (positions c) < positionCapacity c)%nat ->
      exists p c',
        embodiedRoot rootGame t c
        = Some (p, mkTree (Some p) (m_resumePreviousPositionIfPossible t), c')
        /\ nodes c !! p = None
        /\ nodes c'
           = <[p := mkNode None (Some rootGame) (Some h) [] false freshStats]>
               (nodes c)
        /\ (exists np,
              positions c' !! h = Some np
              /\ np_position np = Some (position rootGame)
              /\ np_transpositions np
                 = {[p]} ∪ match positions c !! h with
                           | Some np0 => np_transpositions np0
                           | None => ∅
                           end)
        /\ (forall h', h' <> h -> positions c' !! h' = positions c !! h')
        /\ calls c'
           = calls c
             ++ CallNewNode p
                :: (if containsNodePosition h c then []
                    else [CallNewNodePosition h]))
  /\ (forall p t' c',
        embodiedRoot rootGame t c = Some (p, t', c') -> m_root t' = Some p).
Proof.
  intros h. split; [|split].
  - intros r Hr. unfold Tree.embodiedRoot. now rewrite Hr.
  - intros Hroot Hroom Hpos. unfold Tree.embodiedRoot. rewrite Hroot.
    unfold newNode. destruct (decide (used c < capacity c)%nat); [|lia].
    cbn [mbind option_bind]. fold h.
    set (p := fresh (dom (nodes c))).
    assert (Hfresh : nodes c !! p = None)
      by (apply not_elem_of_dom, is_fresh).
    set (c1 := logCall (CallNewNode p) (withNodes (<[p:=blankNode freshStats]> (nodes c)) c)).
    assert (Hc1 : containsNodePosition h c1 = containsNodePosition h c)
      by reflexivity.
    rewrite Hc1. exists p.
    destruct (containsNodePosition h c) eqn:Hcont.
    + unfold nodePosition. rewrite Hc1. cbn [mbind option_bind].
      eexists. split; [reflexivity|]. split; [exact Hfresh|].
      unfold containsNodePosition in Hcont. apply bool_decide_eq_true in Hcont.
      destruct Hcont as [np0 Hnp0].
      cbn [nodes positions calls Position_initialize Node_setPosition
             Node_initialize withNodes withPositions logCall c1].
      split; [now rewrite !alter_insert_eq|].
      split.
      { rewrite lookup_alter_eq, Hnp0. cbn. eexists. split; [reflexivity|].
        split; reflexivity. }
      split; [intros h' Hne; now rewrite lookup_alter_ne|reflexivity].
    + destruct Hpos as [Hpos|Hpos]; [discriminate|].
      unfold newNodePosition.
      assert (Hsz : size (positions c1) = size (positions c)) by reflexivity.
      rewrite Hsz.
      destruct (decide (size (positions c) < positionCapacity c1)%nat) as [|Hn];
        [|exfalso; apply Hn; exact Hpos].
      cbn [mbind option_bind].
      eexists. split; [reflexivity|]. split; [exact Hfresh|].
      unfold containsNodePosition in Hcont. apply bool_decide_eq_false in Hcont.
      assert (Hnone : positions c !! h = None).
      { destruct (positions c !! h) eqn:E; [|reflexivity].
        exfalso. apply Hcont. eauto. }
      cbn [nodes positions calls Position_initialize Node_setPosition
             Node_initialize withNodes withPositions logCall c1].
      split; [now rewrite !alter_insert_eq|].
      split.
      { rewrite lookup_alter_eq, lookup_insert_eq, Hnone. cbn.
        eexists. split; [reflexivity|]. split; reflexivity. }
      split.
      { intros h' Hne. rewrite lookup_alter_ne, lookup_insert_ne by congruence.
        reflexivity. }
      rewrite <- app_assoc. reflexivity.
  - intros p t' c' H. unfold Tree.embodiedRoot in H.
    destruct (m_root t) as [r|] eqn:Hr.
    + injection H as <- <- <-. exact Hr.
    + destruct (newNode freshStats c) as [[p1 c1]|];
        cbn [mbind option_bind] in H; [|discriminate].
      match type of H with
      | mbind _ ?m = _ => destruct m as [[h1 c2]|];
          cbn [mbind option_bind] in H; [|discriminate]
      end.
      injection H as <- <- <-. reflexivity.
Qed.



End Tree_facts.

(** *** The statements at the example tree *)

Section Tree_examples.
Import Tree.


(** An empty tree over the example cache, the game at position 99. *)
Lemma C8_embodiedRoot_witness :
  exists p c',
    Example.embodiedRoot 99%Z (Tree.new true) Example.cache
    = Some (p, mkTree (Some p) true, c')
    /\ nodes c' !! p = Some (mkNode None (Some 99%Z) (Some 99%Z) [] false 0%Z).
Proof.
  destruct (C8_embodiedRoot (fun g => g) (fun p => p) 0%Z 99%Z
              (Tree.new true) Example.cache) as (_ & Hnew & _).
  destruct (Hnew eq_refl ltac:(vm_compute; lia) ltac:(right; vm_compute; lia))
    as (p & c' & E & _ & Hn & _).
  exists p, c'. split; [exact E|]. rewrite Hn. apply lookup_insert_eq.
Defined.



End Tree_examples.

(** * Further properties of the code *)

(** ** The clock *)

Section Clock_more.
Local Open Scope Z_scope.
Import Clock ClockSpec ClockRun.

(** What a deadline computation on a clock that is not infinite leaves
    behind: only the deadline, the trend factor and the timer change, and
    the timer is armed with [qMax(0, int(deadline - elapsed))]. *)
Lemma calculateDeadline_shape (overhead nsecs : Z) (c c' : t) :
  m_infinite c = false ->
  calculateDeadline overhead nsecs c = Some c' ->
  c' = mkClock (m_isActive c) (m_whiteTime c) (m_whiteIncrement c)
         (m_blackTime c) (m_blackIncrement c) (m_moveTime c) (m_infinite c)
         (m_deadline c') (m_trendFactor c') (m_materialScore c)
         (m_halfMoveNumber c) (m_info c) (m_onTheClock c)
         (Some (Z.max 0 (Int.narrow32 (m_deadline c' - elapsed nsecs))))
  /\ - 2 ^ 63 <= m_deadline c' - elapsed nsecs < 2 ^ 63.
Proof.
  intros Hinf H. unfold calculateDeadline in H. rewrite Hinf in H.
  repeat match type of H with
  | mbind _ ?m = Some _ =>
      let E := fresh "E" in
      destruct m eqn:E; cbn [mbind option_bind] in H; [|discriminate H]
  end.
  injection H as <-. cbn [m_deadline m_trendFactor].
  match goal with
  | E : Int.int64 (Qt.qMax 0 _ - elapsed nsecs) = Some _ |- _ =>
      apply checked_inv in E as [-> Hr]
  end.
  rewrite !qMax_max in *. rewrite Hinf. split; [reflexivity|].
  change (64 - 1) with 63 in Hr. exact Hr.
Qed.

Lemma narrow32_small (z : Z) :
  - 2 ^ 31 <= z < 2 ^ 31 -> Int.narrow32 z = z.
Proof.
  intros Hz. unfold Int.narrow32. rewrite Z.mod_small; cbn in *; lia.
Qed.

Lemma narrow32_range (z : Z) : - 2 ^ 31 <= Int.narrow32 z < 2 ^ 31.
Proof.
  unfold Int.narrow32.
  pose proof (Z.mod_pos_bound (z + 2 ^ 31) (2 ^ 32) ltac:(cbn; lia)).
  cbn in *; lia.
Qed.

Lemma elapsed_range (nsecs : Z) :
  timerReading nsecs = true -> 0 <= elapsed nsecs <= nsecs /\ nsecs < 2 ^ 63.
Proof.
  unfold timerReading. rewrite andb_true_iff, Z.leb_le, Z.ltb_lt.
  intros [H0 H1]. unfold elapsed. split; [|exact H1].
  split; [apply Z.quot_pos; lia|apply Z.quot_le_upper_bound; lia].
Qed.

(** X1.  The setters and getters of the two sides are independent: a value
    written by [setTime] or [setIncrement] is read back for that side, the
    other side keeps its value, and times and increments do not touch each
    other. *)
Theorem X1_time_increment_round_trip (a b : Army) (v : Z) (c : t) :
  time a (setTime a v c) = v
  /\ increment a (setIncrement a v c) = v
  /\ (a <> b -> time b (setTime a v c) = time b c)
  /\ (a <> b -> increment b (setIncrement a v c) = increment b c)
  /\ increment b (setTime a v c) = increment b c
  /\ time b (setIncrement a v c) = time b c.
Proof.
  destruct a, b; repeat split; try reflexivity; intros H; congruence.
Qed.

Lemma X1_time_increment_round_trip_witness :
  time White (setTime White 300000 exampleClock) = 300000
  /\ time Black (setTime White 300000 exampleClock) = -1.
Proof.
  destruct (X1_time_increment_round_trip White Black 300000 exampleClock)
    as (H1 & _ & H3 & _).
  split; [exact H1|]. rewrite H3; [reflexivity|discriminate].
Defined.

(** X2.  What [expectedHalfMovesTillEOG] computes: [m + 10] below 20, the
    constant 22 from 20 to 60, and [m - 30] above 60 (for material scores
    below 2^23, where the conversion to [float] is exact). *)
Theorem X2_expectedHalfMoves_piecewise (c : t) :
  - 2 ^ 31 <= m_materialScore c < 2 ^ 23 ->
  expectedHalfMovesTillEOG c
  = Some (if m_materialScore c <? 20 then m_materialScore c + 10
          else if m_materialScore c <=? 60 then 22
          else m_materialScore c - 30).
Proof.
  intros Hm.
  destruct (Z.ltb_spec (m_materialScore c) 20).
  - apply expected_low; cbn in *; lia.
  - destruct (Z.leb_spec (m_materialScore c) 60).
    + apply expected_mid; lia.
    + apply expected_high; lia.
Qed.

Lemma X2_expectedHalfMoves_piecewise_witness :
  expectedHalfMovesTillEOG (setMaterialScore 61 exampleClock) = Some 31.
Proof.
  exact (X2_expectedHalfMoves_piecewise (setMaterialScore 61 exampleClock)
           ltac:(cbn; lia)).
Defined.

(** X3.  At a material score of -10 the expected number of half moves is
    0 and [calculateDeadline] divides by it: on a clock that is not
    infinite no deadline computation is defined, not even with a move-time
    override, since the ideal time is computed before the branches. *)
Theorem X3_division_by_zero (info0 info : SearchInfo) (army : Army)
    (isPartial : bool) (overhead nsecs : Z) (c : t) :
  m_infinite c = false -> m_materialScore c = -10 ->
  expectedHalfMovesTillEOG c = Some 0
  /\ calculateDeadline overhead nsecs c = None
  /\ startDeadline info0 army overhead nsecs c = None
  /\ updateDeadline info isPartial overhead nsecs c = None.
Proof.
  intros Hinf Hm.
  assert (Hgen : forall c0, m_infinite c0 = false -> m_materialScore c0 = -10 ->
            expectedHalfMovesTillEOG c0 = Some 0
            /\ calculateDeadline overhead nsecs c0 = None).
  { intros c0 Hi0 Hm0.
    assert (He : expectedHalfMovesTillEOG c0 = Some 0).
    { rewrite expected_low; rewrite Hm0; [reflexivity|cbn; lia|lia]. }
    split; [exact He|].
    unfold calculateDeadline. rewrite Hi0, He.
    destruct (Int.int64 (time (m_onTheClock c0) c0 - overhead));
      reflexivity. }
  destruct (Hgen c Hinf Hm) as [He Hc].
  split; [exact He|]. split; [exact Hc|]. split.
  - apply (Hgen (started info0 army c)); assumption.
  - apply (Hgen (updated info c)); assumption.
Qed.

Lemma X3_division_by_zero_witness :
  calculateDeadline 100 0
    (setMoveTime 1000 (setMaterialScore (-10) exampleClock)) = None.
Proof.
  exact (proj1 (proj2 (X3_division_by_zero exampleInfo exampleInfo White false
                         100 0
                         (setMoveTime 1000 (setMaterialScore (-10) exampleClock))
                         eq_refl eq_refl))).
Defined.

(** X4.  After a deadline computation on a clock that is not infinite the
    deadline is never negative and the one-shot timer is armed with a
    non-negative interval; the interval is the time left to the deadline,
    [max(0, deadline - elapsed)], whenever that fits an [int]. *)
Theorem X4_deadline_and_timer (overhead nsecs : Z) (c c' : t) :
  m_infinite c = false ->
  timerReading nsecs = true ->
  calculateDeadline overhead nsecs c = Some c' ->
  0 <= m_deadline c'
  /\ exists ms,
       m_timeout c' = Some ms /\ 0 <= ms < 2 ^ 31
       /\ (- 2 ^ 31 <= m_deadline c' - elapsed nsecs < 2 ^ 31 ->
           ms = Z.max 0 (m_deadline c' - elapsed nsecs)).
Proof.
  intros Hinf Hn H.
  destruct (calculateDeadline_inv _ _ _ _ Hinf H)
    as (maximum & ideal & raw & tf & dl & _ & _ & _ & _ & _ & _ & Hd).
  destruct (calculateDeadline_shape _ _ _ _ Hinf H) as [Hc Hr].
  destruct (elapsed_range nsecs Hn) as [He _].
  split; [lia|].
  exists (Z.max 0 (Int.narrow32 (m_deadline c' - elapsed nsecs))).
  split; [rewrite Hc at 1; reflexivity|].
  pose proof (narrow32_range (m_deadline c' - elapsed nsecs)).
  split; [lia|]. intros Hfit.
  rewrite narrow32_small by exact Hfit. reflexivity.
Qed.

Lemma X4_deadline_and_timer_witness :
  exists c' ms,
    calculateDeadline 100 3000000 (setMoveTime 1000 exampleClock) = Some c'
    /\ m_timeout c' = Some ms /\ ms = 897.
Proof.
  destruct (calculateDeadline 100 3000000 (setMoveTime 1000 exampleClock))
    as [c'|] eqn:E; [|discriminate E].
  destruct (X4_deadline_and_timer 100 3000000 (setMoveTime 1000 exampleClock)
              c' eq_refl eq_refl E) as (_ & ms & Hms & _ & Hex).
  exists c', ms. split; [reflexivity|]. split; [exact Hms|].
  injection E as <-. apply Hex. vm_compute. split; [discriminate|reflexivity].
Defined.

(** X5.  The timer interval is narrowed to [int]: when between 2^31 and
    2^32 ms are left to the deadline the narrowed value is negative and the
    timer is armed with 0, so it fires at once although the deadline is
    weeks away. *)
Theorem X5_timer_narrowing (overhead nsecs : Z) (c c' : t) :
  m_infinite c = false ->
  calculateDeadline overhead nsecs c = Some c' ->
  2 ^ 31 <= m_deadline c' - elapsed nsecs < 2 ^ 32 ->
  m_timeout c' = Some 0.
Proof.
  intros Hinf H Hbig.
  destruct (calculateDeadline_shape _ _ _ _ Hinf H) as [Hc _].
  rewrite Hc at 1. cbn [m_timeout]. f_equal.
  unfold Int.narrow32.
  replace ((m_deadline c' - elapsed nsecs + 2 ^ 31) mod 2 ^ 32)
    with (m_deadline c' - elapsed nsecs - 2 ^ 31).
  - cbn in *; lia.
  - apply (Z.mod_unique _ _ 1); cbn in *; lia.
Qed.

Lemma X5_timer_narrowing_witness :
  exists c', calculateDeadline 100 0 (setMoveTime 2147483748 exampleClock)
             = Some c'
             /\ m_deadline c' = 2147483648 /\ m_timeout c' = Some 0.
Proof.
  destruct (calculateDeadline 100 0 (setMoveTime 2147483748 exampleClock))
    as [c'|] eqn:E; [|discriminate E].
  pose proof (X5_timer_narrowing 100 0 (setMoveTime 2147483748 exampleClock)
                c' eq_refl E) as Ht.
  exists c'. injection E as <-.
  split; [reflexivity|]. split; [reflexivity|].
  apply Ht. vm_compute. split; [discriminate|reflexivity].
Defined.

(** The deadline when the time is set, there is no move-time override, the
    depth is at least 3 and the ideal time is below 2^23 ms. *)
Lemma deadline_closed_form (overhead nsecs e : Z) (c c' : t) :
  m_infinite c = false -> m_moveTime c = -1 ->
  time (m_onTheClock c) c <> -1 ->
  3 <= depth (m_info c) ->
  expectedHalfMovesTillEOG c = Some e ->
  0 <= time (m_onTheClock c) c ÷ e + increment (m_onTheClock c) c < 2 ^ 23 ->
  calculateDeadline overhead nsecs c = Some c' ->
  idealOf c = Some (time (m_onTheClock c) c ÷ e + increment (m_onTheClock c) c)
  /\ m_deadline c'
     = Z.max 0 (Z.min (time (m_onTheClock c) c - overhead)
                  (time (m_onTheClock c) c ÷ e + increment (m_onTheClock c) c)).
Proof.
  intros Hinf Hmt Ht Hdepth He Hsmall H.
  destruct (calculateDeadline_inv _ _ _ _ Hinf H)
    as (maximum & ideal & raw & tf & dl & Hmax & Hi & _ & _ & Hdl & _ & Hd).
  unfold maximumOf in Hmax. apply checked_inv in Hmax as [-> _].
  assert (Hideal : idealOf c = Some (time (m_onTheClock c) c ÷ e
                                      + increment (m_onTheClock c) c)).
  { clear Hi. unfold idealOf in *. rewrite He. cbn [mbind option_bind].
    unfold calculateDeadline in H. rewrite Hinf, He in H.
    destruct (Int.int64 (time (m_onTheClock c) c - overhead));
      cbn [mbind option_bind] in H; [|discriminate].
    destruct (Int.div64 (time (m_onTheClock c) c) e) as [q|] eqn:Eq;
      cbn [mbind option_bind] in H |- *; [|discriminate].
    assert (q = time (m_onTheClock c) c ÷ e).
    { unfold Int.div64 in Eq. destruct (e =? 0); [discriminate|].
      now apply checked_inv in Eq as [-> _]. }
    subst q.
    rewrite int64_Some by (cbn in *; lia). cbn [mbind option_bind].
    unfold easingCurve. apply qRound_of_int. exact Hsmall. }
  split; [exact Hideal|].
  rewrite Hideal in Hi. injection Hi as <-.
  unfold branchDeadline in Hdl. rewrite Hmt in Hdl. cbn [Z.eqb negb] in Hdl.
  destruct (Z.eqb_spec (time (m_onTheClock c) c) (-1)); [contradiction|].
  unfold minimumDepth in Hdl.
  destruct (Z.leb_spec 3 (depth (m_info c))); [|lia].
  cbn [negb andb] in Hdl. rewrite qMin_min in Hdl. injection Hdl as <-.
  exact Hd.
Qed.

(** X6.  Below 2^23 ms the detour through [float] loses nothing: with the
    time set, no move-time override and depth at least 3, the deadline is
    [max(0, min(time - overhead, time / e + increment))], with [/] the
    truncating quotient and [e] the expected number of half moves. *)
Theorem X6_deadline_closed_form (overhead nsecs e : Z) (c c' : t) :
  m_infinite c = false -> m_moveTime c = -1 ->
  time (m_onTheClock c) c <> -1 ->
  3 <= depth (m_info c) ->
  expectedHalfMovesTillEOG c = Some e ->
  0 <= time (m_onTheClock c) c ÷ e + increment (m_onTheClock c) c < 2 ^ 23 ->
  calculateDeadline overhead nsecs c = Some c' ->
  idealOf c = Some (time (m_onTheClock c) c ÷ e + increment (m_onTheClock c) c)
  /\ m_deadline c'
     = Z.max 0 (Z.min (time (m_onTheClock c) c - overhead)
                  (time (m_onTheClock c) c ÷ e + increment (m_onTheClock c) c)).
Proof. apply deadline_closed_form. Qed.

Lemma X6_deadline_closed_form_witness :
  exists c',
    calculateDeadline 100 0 (setIncrement White 2000 (setTime White 300000 exampleClock))
    = Some c'
    /\ m_deadline c' = 15636.
Proof.
  destruct (calculateDeadline 100 0
              (setIncrement White 2000 (setTime White 300000 exampleClock)))
    as [c'|] eqn:E; [|discriminate E].
  exists c'. split; [reflexivity|].
  exact (proj2 (X6_deadline_closed_form 100 0 22
                  (setIncrement White 2000 (setTime White 300000 exampleClock))
                  c' eq_refl eq_refl ltac:(cbn; lia) ltac:(cbn; lia) eq_refl
                  ltac:(vm_compute; split; [discriminate|reflexivity]) E)).
Defined.

(** X7.  With no move-time override: before the minimum depth of 3 is
    reached the whole remaining time less the overhead is the deadline, and
    when the time of the side on the clock is unset the deadline is the
    fallback of 5000 ms, whatever the overhead and the depth. *)
Theorem X7_shallow_and_fallback (overhead nsecs : Z) (c c' : t) :
  m_infinite c = false -> m_moveTime c = -1 ->
  calculateDeadline overhead nsecs c = Some c' ->
  (time (m_onTheClock c) c = -1 -> m_deadline c' = 5000)
  /\ (time (m_onTheClock c) c <> -1 -> depth (m_info c) < 3 ->
      m_deadline c' = Z.max 0 (time (m_onTheClock c) c - overhead)).
Proof.
  intros Hinf Hmt H.
  destruct (calculateDeadline_inv _ _ _ _ Hinf H)
    as (maximum & ideal & raw & tf & dl & Hmax & _ & _ & _ & Hdl & _ & Hd).
  unfold maximumOf in Hmax. apply checked_inv in Hmax as [-> _].
  unfold branchDeadline in Hdl. rewrite Hmt in Hdl. cbn [Z.eqb negb] in Hdl.
  split.
  - intros Ht. rewrite Ht in Hdl. cbn in Hdl. injection Hdl as <-. lia.
  - intros Ht Hdepth.
    destruct (Z.eqb_spec (time (m_onTheClock c) c) (-1)); [contradiction|].
    unfold minimumDepth in Hdl.
    destruct (Z.leb_spec 3 (depth (m_info c))); [lia|].
    cbn [negb andb] in Hdl. injection Hdl as <-. exact Hd.
Qed.

Lemma X7_shallow_and_fallback_witness :
  exists c',
    updateDeadline (mkInfo 2 Worse F32.half) false 100 0
      (setTime White 60000 exampleClock) = Some c'
    /\ m_deadline c' = 59900.
Proof.
  destruct (updateDeadline (mkInfo 2 Worse F32.half) false 100 0
              (setTime White 60000 exampleClock)) as [c'|] eqn:E;
    [|discriminate E].
  exists c'. split; [reflexivity|].
  exact (proj2 (X7_shallow_and_fallback 100 0
                  (updated (mkInfo 2 Worse F32.half)
                     (setTime White 60000 exampleClock))
                  c' eq_refl eq_refl E)
           ltac:(cbn; lia) ltac:(cbn; lia)).
Defined.

(** When [hasExpired()] answers true, for a timer reading and a deadline
    that are [qint64] values. *)
Lemma hasExpired_iff (nsecs : Z) (c : t) :
  timerReading nsecs = true -> - 2 ^ 63 <= m_deadline c < 2 ^ 63 ->
  hasExpired nsecs c = true
  <-> 0 <= m_deadline c < elapsed nsecs.
Proof.
  intros Hn Hd. destruct (elapsed_range nsecs Hn) as [He Hlt].
  unfold hasExpired, Qt.timer_hasExpired, Int.to_uint64.
  rewrite (Z.mod_small (elapsed nsecs)) by (cbn in *; lia).
  rewrite Z.ltb_lt.
  destruct (Z.lt_ge_cases (m_deadline c) 0) as [Hneg|Hpos].
  - replace (m_deadline c mod 2 ^ 64) with (m_deadline c + 2 ^ 64)
      by (apply (Z.mod_unique _ _ (-1)); cbn in *; lia).
    cbn in *; lia.
  - rewrite Z.mod_small by (cbn in *; lia). lia.
Qed.

(** X8.  Expiry is monotone in time: once [hasExpired()] is true it stays
    true at every later reading of the timer (the deadline unchanged), and
    it is false at the instant the timer is restarted. *)
Theorem X8_hasExpired_monotone (nsecs nsecs' : Z) (c : t) :
  timerReading nsecs = true -> timerReading nsecs' = true ->
  - 2 ^ 63 <= m_deadline c < 2 ^ 63 ->
  nsecs <= nsecs' ->
  (hasExpired nsecs c = true -> hasExpired nsecs' c = true)
  /\ hasExpired 0 c = false.
Proof.
  intros Hn Hn' Hd Hle. split.
  - rewrite !hasExpired_iff by assumption. intros [H0 H1].
    split; [exact H0|]. eapply Z.lt_le_trans; [exact H1|].
    assert (0 <= nsecs).
    { unfold timerReading in Hn.
      rewrite andb_true_iff, Z.leb_le in Hn. apply Hn. }
    unfold elapsed. apply Z.quot_le_mono; lia.
  - destruct (hasExpired 0 c) eqn:E; [|reflexivity].
    apply hasExpired_iff in E; [|reflexivity|exact Hd].
    unfold elapsed in E. rewrite Z.quot_0_l in E by lia. lia.
Qed.

Lemma X8_hasExpired_monotone_witness :
  hasExpired 2000000 exampleClock = true
  /\ hasExpired 0 exampleClock = false.
Proof.
  destruct (X8_hasExpired_monotone 1000000 2000000 exampleClock
              eq_refl eq_refl ltac:(cbn; lia) ltac:(lia)) as [Hmono Hzero].
  split; [apply Hmono; reflexivity | exact Hzero].
Defined.

(** X9.  On a clock that is not infinite and has a deadline of at least 0,
    [hasExpired()] is true exactly when [timeToDeadline()] is negative. *)
Theorem X9_hasExpired_timeToDeadline (nsecs : Z) (c : t) :
  timerReading nsecs = true -> m_infinite c = false ->
  0 <= m_deadline c < 2 ^ 63 ->
  exists d, timeToDeadline nsecs c = Some d
            /\ d = m_deadline c - elapsed nsecs
            /\ (hasExpired nsecs c = true <-> d < 0).
Proof.
  intros Hn Hinf Hd. destruct (elapsed_range nsecs Hn) as [He Hlt].
  exists (m_deadline c - elapsed nsecs).
  unfold timeToDeadline. rewrite Hinf.
  split; [apply int64_Some; cbn in *; lia|]. split; [reflexivity|].
  rewrite hasExpired_iff by (try assumption; cbn in *; lia). lia.
Qed.

Lemma X9_hasExpired_timeToDeadline_witness :
  exists d, timeToDeadline 5000000 exampleClock = Some d
            /\ d = -5 /\ (hasExpired 5000000 exampleClock = true <-> d < 0).
Proof.
  exact (X9_hasExpired_timeToDeadline 5000000 exampleClock eq_refl eq_refl
           ltac:(cbn; lia)).
Defined.

(** X10.  On a clock that is not infinite [lessThanMoveOverhead()] is
    true exactly when fewer than MoveOverhead milliseconds are left to the
    deadline.  On an infinite clock, whatever its deadline and whatever
    the timer reads, [timeToDeadline()] is -1, so [lessThanMoveOverhead()]
    is true for every overhead of at least 0. *)
Theorem X10_lessThanMoveOverhead (overhead nsecs : Z) (c : t) :
  (m_infinite c = false -> timerReading nsecs = true ->
   -1 <= m_deadline c < 2 ^ 63 ->
   exists b, lessThanMoveOverhead overhead nsecs c = Some b
             /\ (b = true <-> m_deadline c - elapsed nsecs < overhead))
  /\ (m_infinite c = true ->
      timeToDeadline nsecs c = Some (-1)
      /\ (0 <= overhead -> lessThanMoveOverhead overhead nsecs c = Some true)).
Proof.
  unfold lessThanMoveOverhead, timeToDeadline. split; intros Hinf; rewrite Hinf.
  - intros Hn Hd. destruct (elapsed_range nsecs Hn) as [He Hlt].
    rewrite int64_Some by (cbn in *; lia). cbn [mbind option_bind].
    eexists. split; [reflexivity|]. apply Z.ltb_lt.
  - split; [reflexivity|]. intros Ho. cbn [mbind option_bind].
    f_equal. apply Z.ltb_lt. lia.
Qed.

(** An infinite clock after a deadline computation (deadline -1), 5 ms
    after the timer was restarted. *)
Lemma X10_lessThanMoveOverhead_witness :
  exists c',
    calculateDeadline 100 0 (setInfinite true exampleClock) = Some c'
    /\ m_deadline c' = -1
    /\ lessThanMoveOverhead 100 5000000 c' = Some true.
Proof.
  destruct (calculateDeadline_infinite 100 0 (setInfinite true exampleClock)
              eq_refl) as (c' & E & Hd & _).
  assert (Hinf : m_infinite c' = true).
  { vm_compute in E. injection E as <-. reflexivity. }
  exists c'. split; [exact E|]. split; [exact Hd|].
  exact (proj2 (proj2 (X10_lessThanMoveOverhead 100 5000000 c') Hinf)
           ltac:(lia)).
Defined.

(** X18.  More time never shortens the deadline: for two clocks that
    differ only in the time of the side on the clock, with no move-time
    override, depth at least 3, a positive expected number of half moves
    [e] and ideal times below 2^23 ms, the clock with more time gets a
    deadline at least as late. *)
Theorem X18_deadline_monotone_in_time (overhead nsecs e t1 t2 : Z)
    (c c1 c2 : t) :
  m_infinite c = false -> m_moveTime c = -1 ->
  3 <= depth (m_info c) ->
  expectedHalfMovesTillEOG c = Some e -> 0 < e ->
  0 <= t1 <= t2 ->
  0 <= increment (m_onTheClock c) c ->
  t2 ÷ e + increment (m_onTheClock c) c < 2 ^ 23 ->
  calculateDeadline overhead nsecs (setTime (m_onTheClock c) t1 c) = Some c1 ->
  calculateDeadline overhead nsecs (setTime (m_onTheClock c) t2 c) = Some c2 ->
  m_deadline c1 <= m_deadline c2.
Proof.
  intros Hinf Hmt Hdepth He Hpos Ht Hinc Hsmall H1 H2.
  assert (Hq : 0 <= t1 ÷ e <= t2 ÷ e).
  { split; [apply Z.quot_pos; lia|apply Z.quot_le_mono; lia]. }
  assert (Hset : forall v,
            m_infinite (setTime (m_onTheClock c) v c) = false
            /\ m_moveTime (setTime (m_onTheClock c) v c) = -1
            /\ depth (m_info (setTime (m_onTheClock c) v c)) = depth (m_info c)
            /\ expectedHalfMovesTillEOG (setTime (m_onTheClock c) v c) = Some e
            /\ m_onTheClock (setTime (m_onTheClock c) v c) = m_onTheClock c
            /\ time (m_onTheClock c) (setTime (m_onTheClock c) v c) = v
            /\ increment (m_onTheClock c) (setTime (m_onTheClock c) v c)
               = increment (m_onTheClock c) c).
  { intros v. destruct (m_onTheClock c) eqn:Ea;
      repeat split; cbn; try assumption; try reflexivity;
      rewrite <- He; unfold expectedHalfMovesTillEOG; reflexivity. }
  assert (Hform : forall v c', 0 <= v -> 0 <= v ÷ e ->
            v ÷ e + increment (m_onTheClock c) c < 2 ^ 23 ->
            calculateDeadline overhead nsecs (setTime (m_onTheClock c) v c)
            = Some c' ->
            m_deadline c'
            = Z.max 0 (Z.min (v - overhead)
                         (v ÷ e + increment (m_onTheClock c) c))).
  { intros v c' Hv Hqv Hsm Hc.
    destruct (Hset v) as (S1 & S2 & S3 & S4 & S5 & S6 & S7).
    pose proof (deadline_closed_form overhead nsecs e
                  (setTime (m_onTheClock c) v c) c' S1 S2) as Hcf.
    rewrite S5, S6, S7, S3 in Hcf.
    apply Hcf; try assumption; lia. }
  rewrite (Hform t1 c1) by (try assumption; lia).
  rewrite (Hform t2 c2) by (try assumption; lia).
  lia.
Qed.

Lemma X18_deadline_monotone_in_time_witness :
  exists c1 c2,
    calculateDeadline 100 0 (setTime White 60000 exampleClock) = Some c1
    /\ calculateDeadline 100 0 (setTime White 90000 exampleClock) = Some c2
    /\ m_deadline c1 <= m_deadline c2.
Proof.
  destruct (calculateDeadline 100 0 (setTime White 60000 exampleClock))
    as [c1|] eqn:E1; [|vm_compute in E1; discriminate E1].
  destruct (calculateDeadline 100 0 (setTime White 90000 exampleClock))
    as [c2|] eqn:E2; [|vm_compute in E2; discriminate E2].
  exists c1, c2. split; [reflexivity|]. split; [reflexivity|].
  exact (X18_deadline_monotone_in_time 100 0 22 60000 90000 exampleClock c1 c2
           eq_refl eq_refl ltac:(vm_compute; discriminate) eq_refl
           ltac:(lia) ltac:(lia) ltac:(vm_compute; discriminate)
           ltac:(vm_compute; reflexivity) E1 E2).
Defined.

(** *** Every reachable state *)

Lemma calculateDeadline_invariant (overhead nsecs : Z) (c c' : t) :
  0 <= m_trendFactor c ->
  calculateDeadline overhead nsecs c = Some c' -> invariant c'.
Proof.
  intros Htf H. destruct (m_infinite c) eqn:Hinf.
  - destruct (calculateDeadline_infinite overhead nsecs c Hinf)
      as (c0 & E & Hd & Ht & Hto).
    rewrite E in H. injection H as <-. unfold invariant.
    rewrite Hd, Ht, Hto. repeat split; try lia; discriminate.
  - destruct (calculateDeadline_inv _ _ _ _ Hinf H)
      as (maximum & ideal & raw & tf & dl & _ & _ & _ & _ & _ & Hc & Hd).
    destruct (calculateDeadline_shape _ _ _ _ Hinf H) as [Hs _].
    unfold invariant. split; [lia|]. split; [lia|].
    intros ms Hms. rewrite Hs in Hms. cbn [m_timeout] in Hms.
    injection Hms as <-.
    pose proof (narrow32_range (m_deadline c' - elapsed nsecs)). lia.
Qed.

Lemma step_invariant (info0 : SearchInfo) (op : Op) (c c' : t) :
  invariant c -> step info0 op c = Some c' -> invariant c'.
Proof.
  intros (Htf & Hd & Hto) H. destruct op; cbn [step] in H.
  - injection H as <-. destruct army; exact (conj Htf (conj Hd Hto)).
  - injection H as <-. destruct army; exact (conj Htf (conj Hd Hto)).
  - injection H as <-. exact (conj Htf (conj Hd Hto)).
  - injection H as <-. exact (conj Htf (conj Hd Hto)).
  - injection H as <-. exact (conj Htf (conj Hd Hto)).
  - apply (calculateDeadline_invariant overhead nsecs (started info0 army c));
      assumption.
  - apply (calculateDeadline_invariant overhead nsecs (updated info c));
      assumption.
Qed.

(** X11.  Whatever sequence of setter calls and deadline computations is
    made on a freshly constructed clock, if it runs through then the trend
    factor is at least 0, the deadline is at least -1, and an armed timer
    has an interval from 0 to 2^31 - 1. *)
Theorem X11_reachable_invariant (info0 : SearchInfo) (army0 : Army)
    (ops : list Op) (c : t) :
  run info0 ops (Clock info0 army0) = Some c -> invariant c.
Proof.
  assert (Hgen : forall ops c0 c1,
            invariant c0 -> run info0 ops c0 = Some c1 -> invariant c1).
  { clear ops c. induction ops as [|op ops IH]; intros c0 c1 Hinv H.
    - injection H as <-. exact Hinv.
    - cbn [run] in H.
      destruct (step info0 op c0) as [c'|] eqn:E;
        cbn [mbind option_bind] in H; [|discriminate].
      apply (IH c' c1); [|exact H].
      apply (step_invariant info0 op c0 c' Hinv E). }
  apply Hgen. unfold invariant. cbn. repeat split; try lia; discriminate.
Qed.

Lemma X11_reachable_invariant_witness :
  exists c,
    run exampleInfo
      [OpSetTime White 60000; OpSetIncrement White 1000; OpSetMoveTime (-1);
       OpSetMaterialScore 40; OpStartDeadline White 100 0;
       OpUpdateDeadline (mkInfo 4 Better F32.half) false 100 250000000;
       OpSetInfinite true; OpStartDeadline Black 100 0]
      (Clock exampleInfo White) = Some c
    /\ invariant c.
Proof.
  destruct (run exampleInfo
      [OpSetTime White 60000; OpSetIncrement White 1000; OpSetMoveTime (-1);
       OpSetMaterialScore 40; OpStartDeadline White 100 0;
       OpUpdateDeadline (mkInfo 4 Better F32.half) false 100 250000000;
       OpSetInfinite true; OpStartDeadline Black 100 0]
      (Clock exampleInfo White)) as [c|] eqn:E;
    [|vm_compute in E; discriminate E].
  exists c. split; [reflexivity|].
  exact (X11_reachable_invariant exampleInfo White _ c E).
Defined.

(** *** The trend factor is at most a quarter of the remaining time *)

Import F32 F32Order.

Lemma round_nonneg (m e : Z) : 0 <= m -> 0 <= Fnum (round m e).
Proof.
  intros Hm. unfold round.
  destruct (Z.leb_spec (digits m - prec) 0) as [Hk|Hk]; [exact Hm|].
  cbn [Fnum]. rewrite Z.abs_eq by exact Hm.
  assert (Hp : 0 < 2 ^ (digits m - prec)) by (apply Z.pow_pos_nonneg; lia).
  destruct (rne_le m (digits m - prec) m Hm Hk ltac:(nia)) as [H0 _].
  destruct m; cbn [Z.sgn]; lia.
Qed.

(** Rounding does not step over a number with a 24-bit significand. *)
Lemma round_leHalves (m e N : Z) :
  0 <= m -> 0 <= N < 2 ^ 24 ->
  leHalves (mk m e) N -> leHalves (round m e) N.
Proof.
  intros Hm HN Hle. unfold round, digits.
  destruct (Z.leb_spec (Z.log2 (Z.abs m) + 1 - prec) 0) as [Hk|Hk];
    [exact Hle|].
  rewrite Z.abs_eq in * by exact Hm.
  set (k := Z.log2 m + 1 - prec) in *.
  assert (Hlog : 0 < Z.log2 m) by (unfold prec in *; lia).
  assert (Hpos : 0 < m).
  { destruct (Z.eq_dec m 0) as [->|]; [cbn in Hlog|]; lia. }
  destruct (Z.log2_spec m Hpos) as [Hlo _].
  assert (Hm24 : 2 ^ 23 * 2 ^ k <= m).
  { rewrite <- pow2_split by (unfold k, prec in *; lia).
    replace (23 + k) with (Z.log2 m) by (unfold k, prec; lia). exact Hlo. }
  assert (H2k : 0 < 2 ^ k) by (apply Z.pow_pos_nonneg; lia).
  unfold leHalves in Hle |- *. cbn [Fnum Fexp] in Hle |- *.
  destruct (Z.leb_spec 0 (e + 1)) as [He|He].
  { exfalso.
    assert (1 <= 2 ^ (e + 1)) by (apply (Z.pow_le_mono_r 2 0); lia).
    assert (2 <= 2 ^ k) by (apply (Z.pow_le_mono_r 2 1); lia).
    cbn in *; nia. }
  set (j := - (e + 1)) in *.
  assert (H2j : 0 < 2 ^ j) by (apply Z.pow_pos_nonneg; lia).
  assert (Hkj : k <= j).
  { destruct (Z.le_gt_cases k j) as [|Hgt]; [assumption|exfalso].
    assert (2 * 2 ^ j <= 2 ^ k).
    { replace (2 * 2 ^ j) with (2 ^ (1 + j))
        by (rewrite pow2_split by lia; reflexivity).
      apply pow2_mono; lia. }
    cbn in *; nia. }
  assert (Hsgn : Z.sgn m = 1) by (destruct m; cbn; lia).
  rewrite Hsgn, Z.mul_1_l.
  assert (Hsplit : 2 ^ j = 2 ^ (j - k) * 2 ^ k).
  { rewrite <- pow2_split by lia. f_equal; lia. }
  destruct (rne_le m k (N * 2 ^ (j - k)) ltac:(lia) Hk ltac:(nia)) as [_ Hr].
  destruct (Z.leb_spec 0 (e + k + 1)) as [Hz|Hz].
  - replace (e + k + 1) with 0 by lia.
    replace (j - k) with 0 in Hr by lia. cbn in Hr |- *. lia.
  - replace (- (e + k + 1)) with (j - k) by lia. exact Hr.
Qed.

Lemma mul_unit_leHalves (M : Z) (d : float) :
  0 <= M < 2 ^ 23 -> unit_range d = true ->
  0 <= Fnum (mul (mk M 0) d) /\ leHalves (mul (mk M 0) d) (2 * M).
Proof.
  intros HM Hd. unfold unit_range in Hd.
  rewrite andb_true_iff, Z.leb_le, Z.leb_le in Hd. destruct Hd as [H0 H1].
  unfold mul; cbn [Fnum Fexp]. rewrite Z.add_0_l.
  split; [apply round_nonneg; nia|].
  apply round_leHalves; [nia|cbn in *; lia|].
  unfold leHalves; cbn [Fnum Fexp].
  destruct (Z.leb_spec 0 (Fexp d + 1)) as [He|He].
  - destruct (Z.eq_dec (Fexp d) 0) as [E0|E0].
    + rewrite E0 in *. cbn in H1 |- *. nia.
    + destruct (Z.eq_dec (Fexp d) (-1)) as [E1|E1].
      * rewrite E1 in *. cbn in H1 |- *. nia.
      * rewrite (Z.pow_neg_r 2 (- Fexp d)) in H1 by lia.
        replace (Fnum d) with 0 by lia. rewrite Z.mul_0_r, Z.mul_0_l. lia.
  - replace (- Fexp d) with (1 + - (Fexp d + 1)) in H1 by lia.
    rewrite pow2_split in H1 by lia. change (2 ^ 1) with 2 in H1.
    assert (0 < 2 ^ (- (Fexp d + 1))) by (apply Z.pow_pos_nonneg; lia).
    nia.
Qed.

Lemma add_half_leHalves (x : float) (M : Z) :
  0 <= M < 2 ^ 23 -> 0 <= Fnum x -> leHalves x (2 * M) ->
  0 <= Fnum (add x half) /\ leHalves (add x half) (2 * M + 1).
Proof.
  intros HM Hx Hle. unfold add, half; cbn [Fnum Fexp].
  set (e0 := Z.min (Fexp x) (-1)).
  assert (Ha : 0 <= 2 ^ (Fexp x - e0)) by apply pow2_pos.
  assert (Hb : 0 <= 2 ^ (-1 - e0)) by apply pow2_pos.
  split; [apply round_nonneg; nia|].
  apply round_leHalves; [nia|cbn in *; lia|].
  unfold leHalves in Hle |- *. cbn [Fnum Fexp].
  destruct (Z.leb_spec 0 (Fexp x + 1)) as [He|He].
  - replace e0 with (-1) by (unfold e0; lia).
    replace (-1 + 1) with 0 by lia. cbn [Z.leb Z.compare].
    replace (Fexp x - -1) with (Fexp x + 1) by lia.
    replace (-1 - -1) with 0 by lia. cbn. lia.
  - replace e0 with (Fexp x) by (unfold e0; lia).
    destruct (Z.leb_spec 0 (Fexp x + 1)); [lia|].
    replace (Fexp x - Fexp x) with 0 by lia.
    replace (-1 - Fexp x) with (- (Fexp x + 1)) by lia.
    change (2 ^ 0) with 1. nia.
Qed.

Lemma trunc_leHalves (y : float) (M : Z) :
  0 <= M -> 0 <= Fnum y -> leHalves y (2 * M + 1) -> 0 <= trunc y <= M.
Proof.
  intros HM Hy Hle. unfold leHalves in Hle. unfold trunc.
  destruct (Z.leb_spec 0 (Fexp y)) as [He|He].
  - destruct (Z.leb_spec 0 (Fexp y + 1)); [|lia].
    replace (Fexp y + 1) with (1 + Fexp y) in Hle by lia.
    rewrite pow2_split in Hle by lia. change (2 ^ 1) with 2 in Hle.
    pose proof (pow2_pos (Fexp y)). nia.
  - assert (Hp : 0 < 2 ^ (- Fexp y)) by (apply Z.pow_pos_nonneg; lia).
    rewrite Z.quot_div_nonneg by lia.
    split; [apply Z.div_pos; lia|].
    apply Z.lt_succ_r. apply Z.div_lt_upper_bound; [lia|].
    destruct (Z.leb_spec 0 (Fexp y + 1)) as [H1|H1].
    + replace (Fexp y) with (-1) in * by lia. cbn in Hle |- *. lia.
    + replace (- Fexp y) with (1 + - (Fexp y + 1)) by lia.
      rewrite pow2_split by lia. change (2 ^ 1) with 2.
      assert (0 < 2 ^ (- (Fexp y + 1))) by (apply Z.pow_pos_nonneg; lia).
      nia.
Qed.

(** [qRound(M * d)] for an integer [0 <= M < 2^23] and [0 <= d <= 1] lies
    between 0 and [M]. *)
Lemma qRound_mul_unit (M : Z) (d : float) :
  0 <= M < 2 ^ 23 -> unit_range d = true ->
  exists r, Qt.qRound (mul (of_int M) d) = Some r /\ 0 <= r <= M.
Proof.
  intros HM Hd. rewrite of_int_exact by (unfold prec; cbn in *; lia).
  destruct (mul_unit_leHalves M d HM Hd) as [Hn Hle].
  destruct (add_half_leHalves _ M HM Hn Hle) as [Hn' Hle'].
  pose proof (trunc_leHalves _ M ltac:(lia) Hn' Hle') as Ht.
  unfold Qt.qRound, ge0. destruct (Z.leb_spec 0 (Fnum (mul (mk M 0) d))); [|lia].
  exists (trunc (add (mul (mk M 0) d) half)). split; [|exact Ht].
  unfold to_int. apply int32_Some. cbn in *; lia.
Qed.

(** X12.  "Largest factor is a quarter of remaining time": on a clock that
    is not infinite, with between 0 and 2^25 ms remaining after the
    overhead and a trend degree in [0, 1], one deadline computation halves
    a non-negative trend factor when the trend is Better and otherwise
    raises it by at least 0 and at most a quarter of the remaining time. *)
Theorem X12_trend_quarter (overhead nsecs : Z) (c c' : t) :
  m_infinite c = false ->
  0 <= time (m_onTheClock c) c - overhead < 2 ^ 25 ->
  unit_range (trendDegree (m_info c)) = true ->
  0 <= m_trendFactor c ->
  calculateDeadline overhead nsecs c = Some c' ->
  (trend (m_info c) = Better -> m_trendFactor c' = m_trendFactor c ÷ 2)
  /\ (trend (m_info c) <> Better ->
      m_trendFactor c <= m_trendFactor c'
      <= m_trendFactor c + (time (m_onTheClock c) c - overhead) ÷ 4).
Proof.
  intros Hinf Hmax Hu Htf H.
  destruct (calculateDeadline_inv _ _ _ _ Hinf H)
    as (maximum & ideal & raw & tf & dl & _ & _ & Hraw & Hupd & _ & Hc & _).
  assert (Hq : 0 <= (time (m_onTheClock c) c - overhead) ÷ 4 < 2 ^ 23).
  { rewrite Z.quot_div_nonneg by lia. split; [apply Z.div_pos; lia|].
    apply Z.div_lt_upper_bound; cbn in *; lia. }
  unfold trendRaw in Hraw. rewrite int64_Some in Hraw by (cbn in *; lia).
  cbn [mbind option_bind] in Hraw.
  destruct (qRound_mul_unit _ (trendDegree (m_info c)) Hq Hu) as (r & Hr & Hrb).
  rewrite Hr in Hraw. injection Hraw as <-.
  split.
  - intros Hb. rewrite Hb in Hupd. cbn [Trend_eqb negb] in Hupd.
    injection Hupd as <-. rewrite Hc.
    assert (0 <= m_trendFactor c ÷ 2) by (apply Z.quot_pos; lia). lia.
  - intros Hnb.
    assert (Hneg : negb (Trend_eqb (trend (m_info c)) Better) = true)
      by (destruct (trend (m_info c)); [reflexivity|reflexivity|contradiction]).
    rewrite Hneg in Hupd. apply checked_inv in Hupd as [-> _]. rewrite Hc. lia.
Qed.

Lemma X12_trend_quarter_witness :
  exists c',
    calculateDeadline 100 0 (setTrendFactor 40 (setTime White 60100 exampleClock))
    = Some c'
    /\ 40 <= m_trendFactor c' <= 40 + 15000.
Proof.
  destruct (calculateDeadline 100 0
              (setTrendFactor 40 (setTime White 60100 exampleClock)))
    as [c'|] eqn:E; [|vm_compute in E; discriminate E].
  exists c'. split; [reflexivity|].
  exact (proj2 (X12_trend_quarter 100 0
                  (setTrendFactor 40 (setTime White 60100 exampleClock)) c'
                  eq_refl ltac:(vm_compute; split; [discriminate|reflexivity])
                  eq_refl ltac:(vm_compute; discriminate) E)
           ltac:(discriminate)).
Defined.

End Clock_more.

(** ** The search tree root *)

Section Tree_more.
Context {Position Game Stats : Type}.
Variable position : Game -> Position.
Variable isSamePosition : Position -> Position -> bool.
Variable positionHash : Position -> Z.
Variable freshStats : Stats.
Import Tree.

Local Abbreviation Cache := (@Tree.Cache Position Game Stats).
Local Abbreviation Scan := (@Tree.Scan Position Game Stats).
Local Abbreviation resumable := (Tree.resumable position isSamePosition).
Local Abbreviation scanGrandChildren := (Tree.scanGrandChildren position isSamePosition).
Local Abbreviation scanChildren := (Tree.scanChildren position isSamePosition).
Local Abbreviation clearRoot := (Tree.clearRoot position isSamePosition).
Local Abbreviation destroy := (Tree.destroy position isSamePosition).
Local Abbreviation embodiedRoot := (Tree.embodiedRoot position positionHash freshStats).

(** X13.  With resume disabled, and in the destructor whatever the flag,
    [clearRoot] never looks below the root: it is defined on every cache,
    leaves the tree without a root and calls [unlinkNode] on the old root,
    if there was one, and then [resetNodes].  Without a root it only calls
    [resetNodes], whatever the flag. *)
Theorem X13_clearRoot_without_resume (rootGame : Game) (t : Tree)
    (c : Cache) :
  let unlinked := match m_root t with
                  | Some r => [CallUnlinkNode r]
                  | None => []
                  end in
  (m_resumePreviousPositionIfPossible t = false ->
   exists c', clearRoot rootGame t c = Some (mkTree None false, c')
              /\ calls c' = calls c ++ unlinked ++ [CallResetNodes])
  /\ (exists c', destroy rootGame t c = Some (mkTree None false, c')
                 /\ calls c' = calls c ++ unlinked ++ [CallResetNodes])
  /\ (m_root t = None ->
      clearRoot rootGame t c
      = Some (mkTree None (m_resumePreviousPositionIfPossible t), resetNodes c)).
Proof.
  intros unlinked.
  assert (Hoff : forall t0 : Tree,
            m_resumePreviousPositionIfPossible t0 = false ->
            exists c', clearRoot rootGame t0 c = Some (mkTree None false, c')
              /\ calls c' = calls c
                   ++ match m_root t0 with
                      | Some r => [CallUnlinkNode r]
                      | None => []
                      end ++ [CallResetNodes]).
  { intros t0 Hflag. unfold Tree.clearRoot. rewrite Hflag. cbn [negb].
    destruct (m_root t0) as [r|]; cbn [mbind option_bind].
    - eexists. split; [reflexivity|].
      destruct (unlinkNode_frame r c) as (_ & L & _).
      unfold resetNodes, logCall; cbn [calls]. rewrite L.
      rewrite <- app_assoc. reflexivity.
    - eexists. split; [reflexivity|]. reflexivity. }
  split; [apply Hoff|]. split.
  - apply (Hoff (mkTree (m_root t) false)). reflexivity.
  - intros Hroot. unfold Tree.clearRoot. rewrite Hroot. reflexivity.
Qed.

(** X14.  [embodiedRoot] is idempotent: once it has returned a root, a
    second call, for whatever game, returns the same node and changes
    neither the tree nor the cache. *)
Theorem X14_embodiedRoot_idempotent (rootGame rootGame' : Game) (t t' : Tree)
    (c c' : Cache) (p : ptr) :
  embodiedRoot rootGame t c = Some (p, t', c') ->
  embodiedRoot rootGame' t' c' = Some (p, t', c').
Proof.
  intros H.
  assert (Hroot : m_root t' = Some p).
  { unfold Tree.embodiedRoot in H. destruct (m_root t) as [r|] eqn:Hr.
    - injection H as <- <- <-. exact Hr.
    - destruct (newNode freshStats c) as [[p1 c1]|];
        cbn [mbind option_bind] in H; [|discriminate].
      match type of H with
      | mbind _ ?m = _ => destruct m as [[h1 c2]|];
          cbn [mbind option_bind] in H; [|discriminate]
      end.
      injection H as <- <- <-. reflexivity. }
  unfold Tree.embodiedRoot. now rewrite Hroot.
Qed.

(** The inner loop skips grandchildren that do not match and stops at the
    first one that matches or cannot be tested. *)
Lemma scanGrandChildren_stops (rootGame : Game) (pre post : list ptr)
    (g : ptr) (s : Scan) :
  (forall x, x ∈ pre -> resumable rootGame x (s_cache s) = Some false) ->
  scanGrandChildren rootGame pre s = Some s
  /\ (resumable rootGame g (s_cache s) = Some true ->
      scanGrandChildren rootGame (pre ++ g :: post) s = Some (resume g s))
  /\ (resumable rootGame g (s_cache s) = None ->
      scanGrandChildren rootGame (pre ++ g :: post) s = None).
Proof.
  induction pre as [|x pre IH]; intros Hpre.
  - split; [reflexivity|]. split; intros Hg; cbn; rewrite Hg; reflexivity.
  - destruct IH as (I1 & I2 & I3).
    { intros y Hy. apply Hpre. now right. }
    pose proof (Hpre x ltac:(left)) as Hx.
    split; [|split].
    + cbn. rewrite Hx. exact I1.
    + intros Hg. cbn. rewrite Hx. apply I2, Hg.
    + intros Hg. cbn. rewrite Hx. apply I3, Hg.
Qed.

(** X15.  The inner loop of [clearRoot] stops at the first match
    ([break]): after grandchildren that do not match, a matching grandchild
    is resumed at, and the grandchildren behind it are never looked at,
    whatever they are; without a match the loop changes nothing. *)
Theorem X15_inner_loop_stops (rootGame : Game) (pre post : list ptr)
    (g : ptr) (s : Scan) :
  (forall x, x ∈ pre -> resumable rootGame x (s_cache s) = Some false) ->
  scanGrandChildren rootGame pre s = Some s
  /\ (resumable rootGame g (s_cache s) = Some true ->
      scanGrandChildren rootGame (pre ++ g :: post) s = Some (resume g s)).
Proof.
  intros Hpre.
  destruct (scanGrandChildren_stops rootGame pre post g s Hpre) as (H1 & H2 & _).
  split; assumption.
Qed.

(** X16.  With resume enabled [clearRoot] dereferences every child of the
    root and the NodePosition of every grandchild it inspects without a
    null check: when the first child is not a live node, or the first
    grandchild it cannot skip has no bound, initialised NodePosition, the
    call is undefined. *)
Theorem X16_clearRoot_null_dereference (rootGame : Game) (t : Tree)
    (c : Cache) (r ch : ptr) (rest : list ptr) :
  m_root t = Some r ->
  m_resumePreviousPositionIfPossible t = true ->
  childrenOf c r = ch :: rest ->
  (nodes c !! ch = None -> clearRoot rootGame t c = None)
  /\ (forall pre g post,
        childrenOf c ch = pre ++ g :: post ->
        (forall x, x ∈ pre -> resumable rootGame x c = Some false) ->
        resumable rootGame g c = None ->
        clearRoot rootGame t c = None).
Proof.
  intros Hroot Hflag Hch. unfold childrenOf in Hch.
  destruct (nodes c !! r) as [nr|] eqn:Hnr; [|discriminate].
  assert (Hunf : clearRoot rootGame t c
                 = '(root, cache) ←
                     (s ← scanChildren rootGame (ch :: rest) (mkScan r c false);
                      if s_found s then Some (Some (s_root s), s_cache s)
                      else Some (None, unlinkNode (s_root s) (s_cache s)));
                   Some (mkTree root (m_resumePreviousPositionIfPossible t),
                         resetNodes cache)).
  { unfold Tree.clearRoot. rewrite Hroot, Hflag. cbn [negb].
    rewrite Hnr. cbn [mbind option_bind]. rewrite Hch. reflexivity. }
  rewrite Hunf. split.
  - intros Hnone. cbn. rewrite Hnone. reflexivity.
  - intros pre g post Hgc Hpre Hg. unfold childrenOf in Hgc.
    destruct (nodes c !! ch) as [nch|] eqn:Hnch;
      [|destruct pre; discriminate].
    cbn. rewrite Hnch. cbn [mbind option_bind]. rewrite Hgc.
    destruct (scanGrandChildren_stops rootGame pre post g (mkScan r c false) Hpre)
      as (_ & _ & Hnull).
    rewrite (Hnull Hg). reflexivity.
Qed.

Lemma embodiedRoot_fresh_inv (rootGame : Game) (t t' : Tree) (c c' : Cache)
    (p : ptr) :
  m_root t = None ->
  embodiedRoot rootGame t c = Some (p, t', c') ->
  t' = mkTree (Some p) (m_resumePreviousPositionIfPossible t)
  /\ nodes c' !! p
     = Some (mkNode None (Some rootGame)
               (Some (positionHash (position rootGame))) [] false freshStats).
Proof.
  intros Hroot H. unfold Tree.embodiedRoot in H. rewrite Hroot in H.
  unfold newNode in H.
  destruct (decide (used c < capacity c)%nat); [|discriminate].
  cbn [mbind option_bind] in H.
  match type of H with
  | mbind _ ?m = _ => destruct m as [[h1 c2]|] eqn:E;
      cbn [mbind option_bind] in H; [|discriminate]
  end.
  injection H as <- <- <-.
  assert (Hh : h1 = positionHash (position rootGame)
               /\ nodes c2 = <[fresh (dom (nodes c)) := blankNode freshStats]> (nodes c)).
  { destruct (containsNodePosition _ _) in E.
    - unfold nodePosition in E.
      destruct (containsNodePosition _ _) in E; cbn in E; [|discriminate].
      injection E as <- <-. split; reflexivity.
    - unfold newNodePosition in E. destruct (decide _) in E; [|discriminate].
      injection E as <- <-. split; reflexivity. }
  destruct Hh as [-> Hn]. split; [reflexivity|].
  cbn [nodes Position_initialize Node_setPosition Node_initialize withNodes
         withPositions].
  rewrite Hn, !alter_insert_eq, lookup_insert_eq. reflexivity.
Qed.

(** X17.  A root that [embodiedRoot] has just created has no children, so
    the next [clearRoot] cannot resume: whatever the game and the flag, it
    unlinks that root, resets the arena and leaves the tree without a
    root. *)
Theorem X17_fresh_root_is_dropped (rootGame rootGame' : Game) (t t' : Tree)
    (c c' : Cache) (p : ptr) :
  m_root t = None ->
  embodiedRoot rootGame t c = Some (p, t', c') ->
  exists c'',
    clearRoot rootGame' t' c'
    = Some (mkTree None (m_resumePreviousPositionIfPossible t), c'')
    /\ calls c'' = calls c' ++ [CallUnlinkNode p; CallResetNodes].
Proof.
  intros Hroot H.
  destruct (embodiedRoot_fresh_inv rootGame t t' c c' p Hroot H) as [-> Hn].
  unfold Tree.clearRoot. cbn [m_root m_resumePreviousPositionIfPossible].
  destruct (unlinkNode_frame p c') as (_ & L & _).
  destruct (m_resumePreviousPositionIfPossible t); cbn [negb].
  - rewrite Hn.
    cbn [mbind option_bind n_children Tree.scanChildren s_found s_root s_cache].
    eexists. split; [reflexivity|].
    unfold resetNodes, logCall; cbn [calls].
    rewrite L, <- app_assoc. reflexivity.
  - cbn [mbind option_bind]. eexists. split; [reflexivity|].
    unfold resetNodes, logCall; cbn [calls].
    rewrite L, <- app_assoc. reflexivity.
Qed.

End Tree_more.

(** *** The statements at the example trees *)

Section Tree_more_examples.
Import Tree.

(** The destructor on the example tree. *)
Lemma X13_clearRoot_without_resume_witness :
  exists c',
    Tree.destroy (fun g : Z => g) Z.eqb 500%Z Example.tree Example.cache
    = Some (mkTree None false, c')
    /\ calls c' = [CallUnlinkNode 1%positive; CallResetNodes].
Proof.
  exact (proj1 (proj2 (X13_clearRoot_without_resume (fun g : Z => g) Z.eqb
                         500%Z Example.tree Example.cache))).
Defined.

(** A second call after the first root was created. *)
Lemma X14_embodiedRoot_idempotent_witness :
  exists p t' c',
    Example.embodiedRoot 99%Z (Tree.new true) Example.cache = Some (p, t', c')
    /\ Example.embodiedRoot 7%Z t' c' = Some (p, t', c').
Proof.
  destruct (Example.embodiedRoot 99%Z (Tree.new true) Example.cache)
    as [[[p t'] c']|] eqn:E; [|vm_compute in E; discriminate E].
  exists p, t', c'. split; [reflexivity|].
  exact (X14_embodiedRoot_idempotent (fun g : Z => g) (fun h : Z => h) 0%Z
           99%Z 7%Z (Tree.new true) t' Example.cache c' p E).
Defined.

(** Below node 2 the loop skips node 4 and stops at node 5; what follows
    node 5 in the list does not matter. *)
Lemma X15_inner_loop_stops_witness :
  TreeExample2.scanGrandChildren 500%Z
    ([4%positive] ++ 5%positive :: [99%positive])
    (mkScan 1%positive Example.cache false)
  = Some (resume 5%positive (mkScan 1%positive Example.cache false)).
Proof.
  refine (proj2 (X15_inner_loop_stops (fun g : Z => g) Z.eqb 500%Z
                   [4%positive] [99%positive] 5%positive
                   (mkScan 1%positive Example.cache false) _) eq_refl).
  intros x Hx. apply list_elem_of_singleton in Hx. rewrite Hx. reflexivity.
Defined.

(** Node 4, the first grandchild, has no NodePosition. *)
Lemma X16_clearRoot_null_dereference_witness :
  Example.clearRoot 500%Z Example.tree TreeExample2.cache = None.
Proof.
  refine (proj2 (X16_clearRoot_null_dereference (fun g : Z => g) Z.eqb 500%Z
                   Example.tree TreeExample2.cache 1%positive 2%positive
                   [3%positive] eq_refl eq_refl eq_refl)
            [] 4%positive [5%positive] eq_refl _ eq_refl).
  intros x Hx. inversion Hx.
Defined.

(** A root created over the example cache and dropped again. *)
Lemma X17_fresh_root_is_dropped_witness :
  exists p t' c' c'',
    Example.embodiedRoot 99%Z (Tree.new true) Example.cache = Some (p, t', c')
    /\ Example.clearRoot 99%Z t' c' = Some (mkTree None true, c'').
Proof.
  destruct (Example.embodiedRoot 99%Z (Tree.new true) Example.cache)
    as [[[p t'] c']|] eqn:E; [|vm_compute in E; discriminate E].
  destruct (X17_fresh_root_is_dropped (fun g : Z => g) Z.eqb (fun h : Z => h)
              0%Z 99%Z 99%Z (Tree.new true) t' Example.cache c' p eq_refl E)
    as (c'' & Hc & _).
  exists p, t', c', c''. split; [reflexivity|exact Hc].
Defined.

End Tree_more_examples.
